(** * serviceowners: glob patterns, ownership index, impact and lint

    A shallow embedding of the core of the [serviceowners] Python package
    ([patterns.py], [serviceowners_file.py], [ownership.py], [impact.py],
    [lint.py]) together with the properties its specification states.

    Conventions.
    - A Python [str] is a [list ascii]; a character is a code point below
      256.  String literals are written [L "..."].
    - A function that may raise returns an [outcome].
    - Python's [re] module is modelled by a parser for the part of the
      regular-expression syntax that [_glob_to_regex] can emit, and a
      backtracking matcher; syntax outside that part is reported as
      [Unmodelled] and shown unreachable from [compile_pattern]. *)

From Stdlib Require Import String Ascii List Bool Arith Lia PeanoNat.
From Stdlib Require Import Sorting.Permutation Sorting.Sorted.
From Stdlib Require Import Numbers.DecimalString.
Import ListNotations.

(* ------------------------------------------------------------------ *)
(** * Python strings *)
(* ------------------------------------------------------------------ *)

Module PyStr.

Definition str := list ascii.

Definition L (s : string) : str := list_ascii_of_string s.

Definition chr_eqb (a b : ascii) : bool := Ascii.eqb a b.

(** [ord(c)] *)
Definition ord (c : ascii) : nat := nat_of_ascii c.

(** [str.isspace] for one character: the code points below 256 that
    Python counts as whitespace. *)
Definition isspace (c : ascii) : bool :=
  let n := ord c in
  ((9 <=? n) && (n <=? 13)) || ((28 <=? n) && (n <=? 32))
  || (n =? 133) || (n =? 160).

Definition is_slash (c : ascii) : bool := chr_eqb c "/".

Fixpoint lstrip_by (p : ascii -> bool) (s : str) : str :=
  match s with
  | [] => []
  | c :: t => if p c then lstrip_by p t else s
  end.

Fixpoint rstrip_by (p : ascii -> bool) (s : str) : str :=
  match s with
  | [] => []
  | c :: t =>
      match rstrip_by p t with
      | [] => if p c then [] else [c]
      | t' => c :: t'
      end
  end.

(** [s.strip()], [s.rstrip()], [s.rstrip("/")] *)
Definition strip (s : str) : str := rstrip_by isspace (lstrip_by isspace s).
Definition rstrip (s : str) : str := rstrip_by isspace s.
Definition rstrip_slash (s : str) : str := rstrip_by is_slash s.

Fixpoint startswith (pre s : str) : bool :=
  match pre, s with
  | [], _ => true
  | a :: pre', b :: s' => chr_eqb a b && startswith pre' s'
  | _ :: _, [] => false
  end.

Definition endswith_chr (c : ascii) (s : str) : bool :=
  match rev s with
  | d :: _ => chr_eqb c d
  | [] => false
  end.

(** [c in s] for a one-character string [c] *)
Definition contains (c : ascii) (s : str) : bool := existsb (chr_eqb c) s.

(** [s.replace(a, b)] for a one-character [a] *)
Definition replace_chr (a : ascii) (b : str) (s : str) : str :=
  flat_map (fun c => if chr_eqb c a then b else [c]) s.

Definition str_eqb (a b : str) : bool :=
  if list_eq_dec ascii_dec a b then true else false.

(** [str(n)] for a non-negative integer *)
Definition str_of_nat (n : nat) : str :=
  L (NilEmpty.string_of_uint (Nat.to_uint n)).

(** [sep.join(parts)] *)
Fixpoint join (sep : str) (parts : list str) : str :=
  match parts with
  | [] => []
  | [p] => p
  | p :: rest => p ++ sep ++ join sep rest
  end.

End PyStr.
Import PyStr.

(* ------------------------------------------------------------------ *)
(** * Exceptions and outcomes *)
(* ------------------------------------------------------------------ *)

(** Why [re.compile] rejected an expression. *)
Inductive re_error :=
| UnterminatedSet
| BadRange
| NothingToRepeat
| MultipleRepeat
| UnbalancedParen
| MissingParen
| BadEscapeEnd.

(** The exceptions of [patterns.py] and [errors.py] that the modelled
    functions raise, with the data their messages are built from. *)
Inductive exn :=
| PatternSyntaxError_empty
| PatternSyntaxError_root
| PatternSyntaxError_invalid (raw : str) (e : re_error)
| ParseError_columns (source : str) (line : nat) (raw : str)
| ParseError_empty_service (source : str) (line : nat)
| ParseError_pattern (source : str) (line : nat) (e : exn).

Inductive outcome (A : Type) :=
| Returns (a : A)
| Raises (e : exn)
| Unmodelled.

Arguments Returns {A} a.
Arguments Raises {A} e.
Arguments Unmodelled {A}.

Definition raised {A} (o : outcome A) : bool :=
  match o with Raises _ => true | _ => false end.

Definition is_PatternSyntaxError (e : exn) : bool :=
  match e with
  | PatternSyntaxError_empty | PatternSyntaxError_root
  | PatternSyntaxError_invalid _ _ => true
  | _ => false
  end.

(* ------------------------------------------------------------------ *)
(** * Python [re]: syntax, parser, matcher *)
(* ------------------------------------------------------------------ *)

Module Re.

Inductive set_item :=
| SChar (c : ascii)
| SRange (lo hi : ascii).

Inductive atom :=
| ALit (c : ascii)
| ADot
| ASet (neg : bool) (items : list set_item).

Inductive regex :=
| REps
| RAtom (a : atom)
| RStar (a : atom)
| RBol
| REol
| RSeq (r1 r2 : regex)
| RAlt (r1 r2 : regex).

Fixpoint seq_of (rs : list regex) : regex :=
  match rs with
  | [] => REps
  | r :: rs' => RSeq r (seq_of rs')
  end.

(** One open group (or the whole expression): the alternatives closed
    by [|] so far and the items of the current branch, latest first. *)
Record frame := { alts : option regex; cur : list regex }.

Definition empty_frame : frame := {| alts := None; cur := [] |}.

Definition push (r : regex) (f : frame) : frame :=
  {| alts := alts f; cur := r :: cur f |}.

Definition close (f : frame) : regex :=
  match alts f with
  | None => seq_of (rev (cur f))
  | Some a => RAlt a (seq_of (rev (cur f)))
  end.

Inductive pstate :=
| PTop (stack : list frame) (f : frame)
| PTopEsc (stack : list frame) (f : frame)
| PSetOpen (stack : list frame) (f : frame)
| PSetItem (stack : list frame) (f : frame) (neg : bool) (items : list set_item)
| PSetEsc (stack : list frame) (f : frame) (neg : bool) (items : list set_item)
| PSetHave (stack : list frame) (f : frame) (neg : bool) (items : list set_item) (c1 : ascii)
| PSetDash (stack : list frame) (f : frame) (neg : bool) (items : list set_item) (c1 : ascii)
| PSetDashEsc (stack : list frame) (f : frame) (neg : bool) (items : list set_item) (c1 : ascii)
| PErr (e : re_error)
| PUnsupported.

Definition is_alnum (c : ascii) : bool :=
  let n := ord c in
  ((48 <=? n) && (n <=? 57)) || ((65 <=? n) && (n <=? 90))
  || ((97 <=? n) && (n <=? 122)).

Definition is_chr (c : ascii) (s : string) : bool :=
  existsb (chr_eqb c) (L s).

(** [*] applied to the last item of the current branch *)
Definition repeat_last (stack : list frame) (f : frame) : pstate :=
  match cur f with
  | [] => PErr NothingToRepeat
  | RAtom a :: rest => PTop stack {| alts := alts f; cur := RStar a :: rest |}
  | RStar _ :: _ => PErr MultipleRepeat
  | RBol :: _ | REol :: _ => PErr NothingToRepeat
  | _ => PUnsupported
  end.

Definition step_top (stack : list frame) (f : frame) (c : ascii) : pstate :=
  if chr_eqb c "\" then PTopEsc stack f
  else if chr_eqb c "[" then PSetOpen stack f
  else if chr_eqb c "." then PTop stack (push (RAtom ADot) f)
  else if chr_eqb c "^" then PTop stack (push RBol f)
  else if chr_eqb c "$" then PTop stack (push REol f)
  else if chr_eqb c "*" then repeat_last stack f
  else if is_chr c "?+{" then PUnsupported
  else if chr_eqb c "(" then PTop (f :: stack) empty_frame
  else if chr_eqb c "|" then
    PTop stack {| alts := Some (close f); cur := [] |}
  else if chr_eqb c ")" then
    match stack with
    | [] => PErr UnbalancedParen
    | parent :: stack' => PTop stack' (push (close f) parent)
    end
  else PTop stack (push (RAtom (ALit c)) f).

Definition close_set (stack : list frame) (f : frame) (neg : bool)
    (items : list set_item) : pstate :=
  PTop stack (push (RAtom (ASet neg items)) f).

(** At the start of a set member: [this = sourceget()] *)
Definition step_item (stack : list frame) (f : frame) (neg : bool)
    (items : list set_item) (c : ascii) : pstate :=
  if chr_eqb c "]" && negb (match items with [] => true | _ => false end)
  then close_set stack f neg items
  else if chr_eqb c "\" then PSetEsc stack f neg items
  else PSetHave stack f neg items c.

Definition mk_range (stack : list frame) (f : frame) (neg : bool)
    (items : list set_item) (lo hi : ascii) : pstate :=
  if ord hi <? ord lo then PErr BadRange
  else PSetItem stack f neg (items ++ [SRange lo hi]).

Definition step (st : pstate) (c : ascii) : pstate :=
  match st with
  | PTop stack f => step_top stack f c
  | PTopEsc stack f =>
      if is_alnum c then PUnsupported
      else PTop stack (push (RAtom (ALit c)) f)
  | PSetOpen stack f =>
      if chr_eqb c "^" then PSetItem stack f true []
      else step_item stack f false [] c
  | PSetItem stack f neg items => step_item stack f neg items c
  | PSetEsc stack f neg items =>
      if is_alnum c then PUnsupported else PSetHave stack f neg items c
  | PSetHave stack f neg items c1 =>
      if chr_eqb c "-" then PSetDash stack f neg items c1
      else step_item stack f neg (items ++ [SChar c1]) c
  | PSetDash stack f neg items c1 =>
      if chr_eqb c "]" then close_set stack f neg (items ++ [SChar c1; SChar "-"])
      else if chr_eqb c "\" then PSetDashEsc stack f neg items c1
      else mk_range stack f neg items c1 c
  | PSetDashEsc stack f neg items c1 =>
      if is_alnum c then PUnsupported else mk_range stack f neg items c1 c
  | PErr e => PErr e
  | PUnsupported => PUnsupported
  end.

Definition run (st : pstate) (s : str) : pstate := fold_left step s st.

Inductive compiled :=
| ReOk (r : regex)
| ReError (e : re_error)
| ReUnsupported.

Definition finish (st : pstate) : compiled :=
  match st with
  | PTop [] f => ReOk (close f)
  | PTop (_ :: _) _ => ReError MissingParen
  | PTopEsc _ _ => ReError BadEscapeEnd
  | PSetEsc _ _ _ _ | PSetDashEsc _ _ _ _ _ => ReError BadEscapeEnd
  | PSetOpen _ _ | PSetItem _ _ _ _ | PSetHave _ _ _ _ _
  | PSetDash _ _ _ _ _ => ReError UnterminatedSet
  | PErr e => ReError e
  | PUnsupported => ReUnsupported
  end.

Definition start : pstate := PTop [] empty_frame.

(** [re.compile(rx)] *)
Definition compile (rx : str) : compiled := finish (run start rx).

Definition in_item (c : ascii) (it : set_item) : bool :=
  match it with
  | SChar d => chr_eqb c d
  | SRange lo hi => (ord lo <=? ord c) && (ord c <=? ord hi)
  end.

Definition newline : ascii := ascii_of_nat 10.

Definition accepts (a : atom) (c : ascii) : bool :=
  match a with
  | ALit d => chr_eqb c d
  | ADot => negb (chr_eqb c newline)
  | ASet neg items => xorb neg (existsb (in_item c) items)
  end.

(** [$] without MULTILINE: at the end, or before a final newline *)
Definition at_end (s : str) : bool :=
  match s with
  | [] => true
  | [c] => chr_eqb c newline
  | _ => false
  end.

(** Zero or more characters accepted by [a], then the continuation. *)
Fixpoint star_k (a : atom) (s : str) (bos : bool) (k : str -> bool -> bool)
    : bool :=
  k s bos
  || match s with
     | c :: s' => accepts a c && star_k a s' false k
     | [] => false
     end.

(** Backtracking matcher: does [r], followed by the continuation [k],
    match a prefix of [s]?  [bos] tells whether [s] is the whole subject
    (the position is the beginning of the string). *)
Fixpoint mtch (r : regex) (s : str) (bos : bool) (k : str -> bool -> bool)
    : bool :=
  match r with
  | REps => k s bos
  | RAtom a =>
      match s with
      | c :: s' => accepts a c && k s' false
      | [] => false
      end
  | RStar a => star_k a s bos k
  | RBol => bos && k s bos
  | REol => at_end s && k s bos
  | RSeq r1 r2 => mtch r1 s bos (fun s' b' => mtch r2 s' b' k)
  | RAlt r1 r2 => mtch r1 s bos k || mtch r2 s bos k
  end.

(** [bool(r.match(s))]: a match anchored at the start of [s] *)
Definition match_ (r : regex) (s : str) : bool :=
  mtch r s true (fun _ _ => true).

End Re.

(* ------------------------------------------------------------------ *)
(** * patterns.py *)
(* ------------------------------------------------------------------ *)

Record CompiledPattern := {
  raw : str;
  normalized : str;
  regex : Re.regex
}.

(** [CompiledPattern.matches] *)
Definition matches (cp : CompiledPattern) (path : str) : bool :=
  Re.match_ (regex cp) path.

(** [while pat.startswith("./"): pat = pat[2:]] *)
Fixpoint strip_dot_slash (pat : str) : str :=
  match pat with
  | c1 :: c2 :: rest =>
      if chr_eqb c1 "." && chr_eqb c2 "/" then strip_dot_slash rest else pat
  | _ => pat
  end.

Definition strip_leading_slash (pat : str) : str :=
  match pat with
  | c :: rest => if chr_eqb c "/" then rest else pat
  | [] => []
  end.

Definition _normalize_pattern (pat : str) : outcome str :=
  let pat := strip pat in
  match pat with
  | [] => Raises PatternSyntaxError_empty
  | _ =>
      let pat := replace_chr "\" (L "/") pat in
      let pat := strip_dot_slash pat in
      let pat := strip_leading_slash pat in
      match pat with
      | [] => Raises PatternSyntaxError_root
      | _ =>
          if endswith_chr "/" pat
          then Returns (rstrip_slash pat ++ L "/**")
          else Returns pat
      end
  end.

(** The characters [re.escape] puts a backslash before. *)
Definition is_re_special (c : ascii) : bool :=
  Re.is_chr c "()[]{}?*+-|^$\.&~# "
  || ((9 <=? ord c) && (ord c <=? 13)).

Definition re_escape (c : ascii) : str :=
  if is_re_special c then ["\"%char; c] else [c].

(** The rest of the pattern after a run of [*] *)
Fixpoint skip_stars (s : str) : str :=
  match s with
  | c :: t => if chr_eqb c "*" then skip_stars t else s
  | [] => []
  end.

(** Split at the first [c]: what is before it and what is after it. *)
Fixpoint split_at_chr (c : ascii) (s : str) : option (str * str) :=
  match s with
  | [] => None
  | d :: t =>
      if chr_eqb d c then Some ([], t)
      else match split_at_chr c t with
           | Some (a, b) => Some (d :: a, b)
           | None => None
           end
  end.

(** The optional [!] or [^] right after an opening bracket *)
Definition class_head (rest : str) : str * str :=
  match rest with
  | c :: t => if chr_eqb c "!" || chr_eqb c "^" then ([c], t) else ([], rest)
  | [] => ([], [])
  end.

Definition class_inner (inner : str) : str :=
  let inner :=
    match inner with
    | c :: t => if chr_eqb c "!" then "^"%char :: t else inner
    | [] => []
    end in
  replace_chr "\" (L "\\") inner.

(** The loop of [_glob_to_regex]: the list [out] of regex pieces.  Each
    round consumes at least one character of [pat], so [length pat]
    rounds are enough. *)
Fixpoint glob_loop (fuel : nat) (pat : str) : list str :=
  match fuel with
  | 0 => []
  | S fuel' =>
      match pat with
      | [] => []
      | c :: rest =>
          if chr_eqb c "*" then
            match rest with
            | d :: _ =>
                if chr_eqb d "*"
                then L ".*" :: glob_loop fuel' (skip_stars rest)
                else L "[^/]*" :: glob_loop fuel' rest
            | [] => L "[^/]*" :: glob_loop fuel' rest
            end
          else if chr_eqb c "?" then L "[^/]" :: glob_loop fuel' rest
          else if chr_eqb c "[" then
            let (k, r') := class_head rest in
            match split_at_chr "]" r' with
            | None => re_escape c :: glob_loop fuel' rest
            | Some (a, b) =>
                (L "[" ++ class_inner (k ++ a) ++ L "]") :: glob_loop fuel' b
            end
          else re_escape c :: glob_loop fuel' rest
      end
  end.

Definition glob_out (pat : str) : list str := glob_loop (length pat) pat.

Definition _glob_to_regex (pat : str) : str := concat (glob_out pat).

(** The expression handed to [re.compile] *)
Definition anchored (norm : str) : str :=
  let body := _glob_to_regex norm in
  if contains "/" norm then L "^" ++ body ++ L "$"
  else L "(^|.*/)" ++ body ++ L "$".

(** [compile_pattern]; the [lru_cache] around it only memoises a pure
    function and is left out. *)
Definition compile_pattern (pattern : str) : outcome CompiledPattern :=
  match _normalize_pattern pattern with
  | Returns norm =>
      match Re.compile (anchored norm) with
      | Re.ReOk r =>
          Returns {| raw := pattern; normalized := norm; regex := r |}
      | Re.ReError e => Raises (PatternSyntaxError_invalid pattern e)
      | Re.ReUnsupported => Unmodelled
      end
  | Raises e => Raises e
  | Unmodelled => Unmodelled
  end.

(** [compile_pattern(p).matches(path)], [None] when compiling fails *)
Definition pattern_matches (p path : str) : option bool :=
  match compile_pattern p with
  | Returns cp => Some (matches cp path)
  | _ => None
  end.

(* ------------------------------------------------------------------ *)
(** * serviceowners_file.py *)
(* ------------------------------------------------------------------ *)

Record Rule := {
  pattern : str;
  service : str;
  line : nat;
  source : str;
  compiled : CompiledPattern
}.

Definition is_quote (c : ascii) : bool :=
  chr_eqb c "'" || chr_eqb c (ascii_of_nat 34).

Definition preceded_by_space (seen : str) : bool :=
  match rev seen with
  | [] => true
  | p :: _ => isspace p
  end.

(** The loop of [_strip_inline_comment]: [seen] is [line[:i]], [rest] is
    [line[i:]]. *)
Fixpoint comment_loop (in_quote : bool) (seen rest : str) : str :=
  match rest with
  | [] => rstrip seen
  | ch :: rest' =>
      let in_quote := if is_quote ch then negb in_quote else in_quote in
      if chr_eqb ch "#" && negb in_quote && preceded_by_space seen
      then rstrip seen
      else comment_loop in_quote (seen ++ [ch]) rest'
  end.

Definition _strip_inline_comment (ln : str) : str := comment_loop false [] ln.

(** The line boundaries of [str.splitlines] below code point 256. *)
Definition is_linebreak (c : ascii) : bool :=
  let n := ord c in
  ((10 <=? n) && (n <=? 13)) || ((28 <=? n) && (n <=? 30)) || (n =? 133).

Definition cr : ascii := ascii_of_nat 13.

Fixpoint splitlines_from (acc : str) (s : str) : list str :=
  match s with
  | [] => match acc with [] => [] | _ => [acc] end
  | c :: t =>
      if chr_eqb c cr then
        match t with
        | d :: t' =>
            if chr_eqb d Re.newline then acc :: splitlines_from [] t'
            else acc :: splitlines_from [] t
        | [] => acc :: splitlines_from [] t
        end
      else if is_linebreak c then acc :: splitlines_from [] t
      else splitlines_from (acc ++ [c]) t
  end.

Definition splitlines (s : str) : list str := splitlines_from [] s.

(** [s.split()]: the maximal runs of non-whitespace *)
Fixpoint split_from (acc : str) (s : str) : list str :=
  match s with
  | [] => match acc with [] => [] | _ => [acc] end
  | c :: t =>
      if isspace c then
        match acc with
        | [] => split_from [] t
        | _ => acc :: split_from [] t
        end
      else split_from (acc ++ [c]) t
  end.

Definition split (s : str) : list str := split_from [] s.

Definition is_empty (s : str) : bool :=
  match s with [] => true | _ => false end.

(** What is left of a raw line once blank lines, comment lines and inline
    comments are taken away; [None] when the line is skipped. *)
Definition line_content (raw_line : str) : option str :=
  let ln := strip raw_line in
  if is_empty ln || startswith (L "#") ln then None
  else
    let ln := strip (_strip_inline_comment raw_line) in
    if is_empty ln then None else Some ln.

(** The body of the loop of [parse_serviceowners_text]: [rules] is the
    list built so far, [idx] the number of the first line of [lines]. *)
Fixpoint parse_loop (src : str) (rules : list Rule) (idx : nat)
    (lines : list str) : outcome (list Rule) :=
  match lines with
  | [] => Returns rules
  | raw_line :: lines' =>
      match line_content raw_line with
      | None => parse_loop src rules (S idx) lines'
      | Some ln =>
          match split ln with
          | [p; s] =>
              let pat := strip p in
              let svc := strip s in
              if is_empty svc then Raises (ParseError_empty_service src idx)
              else
                match compile_pattern pat with
                | Returns c =>
                    parse_loop src
                      (rules ++ [{| pattern := pat; service := svc;
                                    line := idx; source := src;
                                    compiled := c |}])
                      (S idx) lines'
                | Raises e => Raises (ParseError_pattern src idx e)
                | Unmodelled => Unmodelled
                end
          | _ => Raises (ParseError_columns src idx raw_line)
          end
      end
  end.

Definition parse_serviceowners_text (text src : str) : outcome (list Rule) :=
  parse_loop src [] 1 (splitlines text).

(* ------------------------------------------------------------------ *)
(** * ownership.py *)
(* ------------------------------------------------------------------ *)

Record Match := {
  match_path : str;
  match_chosen : option Rule;
  match_matches : list Rule
}.

(** The property [Match.service] *)
Definition Match_service (m : Match) : option str :=
  match match_chosen m with
  | Some r => Some (service r)
  | None => None
  end.

(** [xs[-1] if xs else None] *)
Definition last_opt {A} (xs : list A) : option A :=
  match rev xs with
  | x :: _ => Some x
  | [] => None
  end.

(** The loop of [OwnershipIndex.match] over the rules of the index *)
Definition match_loop (rules : list Rule) (path : str) : list Rule :=
  fold_left
    (fun acc r => if matches (compiled r) path then acc ++ [r] else acc)
    rules [].

(** [OwnershipIndex.match] on the contents of [self._rules] *)
Definition OwnershipIndex_match (rules : list Rule) (path : str) : Match :=
  let ms := match_loop rules path in
  {| match_path := path; match_chosen := last_opt ms; match_matches := ms |}.

(** ** The index as an object

    List objects live in a store; a reference is a position in it.
    Rules are frozen dataclasses, so only lists are mutable. *)

Definition loc := nat.
Definition store := list (list Rule).

Definition deref (h : store) (l : loc) : list Rule := nth l h [].

Definition alloc (h : store) (v : list Rule) : store * loc :=
  (h ++ [v], length h).

Fixpoint assign (h : store) (l : loc) (v : list Rule) : store :=
  match h, l with
  | [], _ => []
  | _ :: h', 0 => v :: h'
  | x :: h', S l' => x :: assign h' l' v
  end.

Record OwnershipIndex := { _rules : loc }.

(** [OwnershipIndex(rules)]: [self._rules = list(rules)] *)
Definition OwnershipIndex_init (h : store) (rules : loc)
    : store * OwnershipIndex :=
  let (h', l) := alloc h (deref h rules) in (h', {| _rules := l |}).

(** The property [OwnershipIndex.rules]: [list(self._rules)] *)
Definition OwnershipIndex_rules (h : store) (self : OwnershipIndex)
    : store * loc :=
  alloc h (deref h (_rules self)).

Definition OwnershipIndex_match_obj (h : store) (self : OwnershipIndex)
    (path : str) : Match :=
  OwnershipIndex_match (deref h (_rules self)) path.

(* ------------------------------------------------------------------ *)
(** * Python dicts, sets and [sorted] *)
(* ------------------------------------------------------------------ *)

(** A [dict] with [str] keys: the items in insertion order. *)
Definition dict (V : Type) := list (str * V).

Fixpoint dict_get {V} (d : dict V) (k : str) : option V :=
  match d with
  | [] => None
  | (k', v) :: d' => if str_eqb k' k then Some v else dict_get d' k
  end.

(** [d[k] = v] *)
Fixpoint dict_set {V} (d : dict V) (k : str) (v : V) : dict V :=
  match d with
  | [] => [(k, v)]
  | (k', v') :: d' =>
      if str_eqb k' k then (k', v) :: d' else (k', v') :: dict_set d' k v
  end.

(** [k in d] *)
Definition dict_mem {V} (d : dict V) (k : str) : bool :=
  match dict_get d k with Some _ => true | None => false end.

(** [a <= b] on strings: lexicographic on code points *)
Fixpoint str_leb (a b : str) : bool :=
  match a, b with
  | [], _ => true
  | _ :: _, [] => false
  | x :: a', y :: b' =>
      if ord x <? ord y then true
      else if ord y <? ord x then false
      else str_leb a' b'
  end.

(** [set(xs)] as the list of its elements; Python fixes no iteration
    order for a set, this one is the order [nodup] leaves. *)
Definition py_set (xs : list str) : list str :=
  nodup (list_eq_dec ascii_dec) xs.

Fixpoint insert_sorted (x : str) (l : list str) : list str :=
  match l with
  | [] => [x]
  | y :: l' => if str_leb x y then x :: l else y :: insert_sorted x l'
  end.

(** [sorted(xs)] *)
Definition sorted (xs : list str) : list str :=
  fold_right insert_sorted [] xs.

(* ------------------------------------------------------------------ *)
(** * impact.py *)
(* ------------------------------------------------------------------ *)

Record ImpactReport := {
  services_to_files : dict (list str);
  unmapped_files : list str;
  overlaps : dict (list str)
}.

(** One round of the loop of [compute_impact] *)
Definition impact_step (rules : list Rule) (acc : ImpactReport) (path : str)
    : ImpactReport :=
  let m := OwnershipIndex_match rules path in
  match Match_service m with
  | None =>
      {| services_to_files := services_to_files acc;
         unmapped_files := unmapped_files acc ++ [path];
         overlaps := overlaps acc |}
  | Some svc =>
      let files :=
        match dict_get (services_to_files acc) svc with
        | Some fs => fs
        | None => []
        end in
      {| services_to_files :=
           dict_set (services_to_files acc) svc (files ++ [path]);
         unmapped_files := unmapped_files acc;
         overlaps :=
           if 1 <? length (match_matches m)
           then dict_set (overlaps acc) path (map service (match_matches m))
           else overlaps acc |}
  end.

Definition empty_report : ImpactReport :=
  {| services_to_files := []; unmapped_files := []; overlaps := [] |}.

(** [compute_impact(index, changed_files)], [rules] being the contents of
    [index._rules] *)
Definition compute_impact (rules : list Rule) (changed_files : list str)
    : ImpactReport :=
  let acc := fold_left (impact_step rules) changed_files empty_report in
  {| services_to_files :=
       map (fun kv => (fst kv, sorted (py_set (snd kv))))
           (services_to_files acc);
     unmapped_files := sorted (py_set (unmapped_files acc));
     overlaps := overlaps acc |}.

(* ------------------------------------------------------------------ *)
(** * lint.py *)
(* ------------------------------------------------------------------ *)

Inductive Severity := ERROR | WARN.

Inductive IssueCode :=
| DUPLICATE_PATTERN
| UNKNOWN_SERVICE
| SERVICE_HAS_NO_CONTACT
| GIT_REQUIRED
| GIT_ERROR
| PATTERN_MATCHES_NOTHING
| OVERLAPPING_RULES.

Record Issue := {
  issue_severity : Severity;
  issue_code : IssueCode;
  issue_message : str;
  issue_file : option str;
  issue_line : option nat;
  issue_hint : option str
}.

Record LintResult := { issues : list Issue }.

Definition is_error (i : Issue) : bool :=
  match issue_severity i with ERROR => true | WARN => false end.

Definition has_errors (r : LintResult) : bool := existsb is_error (issues r).

Definition has_warnings (r : LintResult) : bool :=
  existsb (fun i => negb (is_error i)) (issues r).

(** What [lint_rules] reads of a [Service] of [services_file.py] *)
Record Service := {
  owners : list str;
  contact_slack : option str;
  contact_email : option str
}.

(** Truth value of an optional string: [None] and the empty string are
    false. *)
Definition truthy (s : option str) : bool :=
  match s with
  | Some (_ :: _) => true
  | _ => false
  end.

(** The file-listing collaborator [git_ls_files(repo_root)]: the tracked
    files, a [GitError], or any other exception of the subprocess. *)
Inductive git_result :=
| GitFiles (files : list str)
| GitFailed (msg : str)
| GitCrashed.

Definition warn_or_error (strict : bool) : Severity :=
  if strict then ERROR else WARN.

Definition duplicate_issue (strict : bool) (prev r : Rule) : Issue :=
  {| issue_severity := warn_or_error strict;
     issue_code := DUPLICATE_PATTERN;
     issue_message :=
       L "Pattern '" ++ pattern r
         ++ L "' is defined multiple times (last-match wins). Previous: "
         ++ service prev ++ L " (line " ++ str_of_nat (line prev)
         ++ L "), this: " ++ service r ++ L " (line "
         ++ str_of_nat (line r) ++ L ").";
     issue_file := Some (source r);
     issue_line := Some (line r);
     issue_hint := Some (L "Remove duplicates or make precedence explicit.") |}.

(** One round of the duplicate-pattern loop: the issues so far and the
    dict [seen]. *)
Definition duplicate_step (strict : bool) (st : list Issue * dict Rule)
    (r : Rule) : list Issue * dict Rule :=
  let (iss, seen) := st in
  match dict_get seen (pattern r) with
  | Some prev =>
      if negb (str_eqb (service prev) (service r))
      then (iss ++ [duplicate_issue strict prev r], seen)
      else (iss, dict_set seen (pattern r) r)
  | None => (iss, dict_set seen (pattern r) r)
  end.

Definition duplicate_check (strict : bool) (rules : list Rule) : list Issue :=
  fst (fold_left (duplicate_step strict) rules ([], [])).

Definition unknown_service_issue (strict : bool) (r : Rule) : Issue :=
  {| issue_severity := warn_or_error strict;
     issue_code := UNKNOWN_SERVICE;
     issue_message :=
       L "SERVICEOWNERS references unknown service '" ++ service r ++ L "'.";
     issue_file := Some (source r);
     issue_line := Some (line r);
     issue_hint := Some (L "Add it to services.yaml (or fix the spelling).") |}.

Definition no_contact_issue (name : str) : Issue :=
  {| issue_severity := WARN;
     issue_code := SERVICE_HAS_NO_CONTACT;
     issue_message :=
       L "Service '" ++ name ++ L "' has no owners and no contact (slack/email).";
     issue_file := None;
     issue_line := None;
     issue_hint := Some (L "Add owners/contact so PRs have someone to page.") |}.

(** [not svc.owners and not (svc.contact and (svc.contact.slack or
    svc.contact.email))]; a [Contact] object is always true. *)
Definition has_no_contact (svc : Service) : bool :=
  match owners svc with
  | [] => negb (truthy (contact_slack svc) || truthy (contact_email svc))
  | _ :: _ => false
  end.

(** The checks that run when services metadata is there *)
Definition services_check (strict : bool) (rules : list Rule)
    (services : dict Service) : list Issue :=
  match services with
  | [] => []
  | _ =>
      map (unknown_service_issue strict)
          (filter (fun r => negb (dict_mem services (service r))) rules)
      ++ map (fun kv => no_contact_issue (fst kv))
             (filter (fun kv => has_no_contact (snd kv)) services)
  end.

Definition git_required_issue (flag : string) : Issue :=
  {| issue_severity := ERROR;
     issue_code := GIT_REQUIRED;
     issue_message := L flag ++ L " requires repo_root (git repo).";
     issue_file := None;
     issue_line := None;
     issue_hint := None |}.

Definition git_error_issue (msg : str) : Issue :=
  {| issue_severity := ERROR;
     issue_code := GIT_ERROR;
     issue_message := msg;
     issue_file := None;
     issue_line := None;
     issue_hint := None |}.

Definition matches_nothing_issue (strict : bool) (r : Rule) : Issue :=
  {| issue_severity := warn_or_error strict;
     issue_code := PATTERN_MATCHES_NOTHING;
     issue_message :=
       L "Pattern '" ++ pattern r ++ L "' matches no git-tracked files.";
     issue_file := Some (source r);
     issue_line := Some (line r);
     issue_hint :=
       Some (L "Remove it or fix the glob (or ignore if files are generated later).") |}.

Definition overlapping_issue (examples : list str) : Issue :=
  {| issue_severity := WARN;
     issue_code := OVERLAPPING_RULES;
     issue_message :=
       L "Some files match multiple services (last-match wins). Examples: "
         ++ join (L "; ") examples;
     issue_file := None;
     issue_line := None;
     issue_hint :=
       Some (L "Often OK. If it's confusing, tighten globs or add comments.") |}.

(** [try: tracked = git_ls_files(repo_root) except GitError as e: ...]:
    the issues added and the tracked files, or the exception that is not
    caught. *)
Definition tracked_files (git : str -> git_result) (repo_root : str)
    : option (list Issue * list str) :=
  match git repo_root with
  | GitFiles files => Some ([], files)
  | GitFailed msg => Some ([git_error_issue msg], [])
  | GitCrashed => None
  end.

Definition matches_check (strict : bool) (rules : list Rule)
    (tracked : list str) : list Issue :=
  map (matches_nothing_issue strict)
      (filter (fun r => negb (existsb (matches (compiled r)) tracked)) rules).

(** The scan of the overlap check, stopping at [cap] examples *)
Fixpoint overlap_scan (rules : list Rule) (cap : nat) (examples : list str)
    (tracked : list str) : list str :=
  match tracked with
  | [] => examples
  | f :: tracked' =>
      let m := OwnershipIndex_match rules f in
      let svcs := map service (match_matches m) in
      if (1 <? length (match_matches m)) && (1 <? length (py_set svcs)) then
        let examples := examples ++ [f ++ L " -> " ++ join (L ", ") svcs] in
        if cap <=? length examples then examples
        else overlap_scan rules cap examples tracked'
      else overlap_scan rules cap examples tracked'
  end.

Definition overlaps_check (rules : list Rule) (tracked : list str)
    : list Issue :=
  match overlap_scan rules 25 [] tracked with
  | [] => []
  | examples => [overlapping_issue examples]
  end.

(** An opt-in check that needs the tracked files *)
Definition opt_in (git : str -> git_result) (requested : bool)
    (flag : string) (repo_root : option str)
    (check : list str -> list Issue) : option (list Issue) :=
  if requested then
    match repo_root with
    | None => Some [git_required_issue flag]
    | Some root =>
        match tracked_files git root with
        | Some (iss, tracked) => Some (iss ++ check tracked)
        | None => None
        end
    end
  else Some [].

(** [lint_rules]; [None] stands for an exception that leaves the
    function: the only one is an exception of [git_ls_files] other than
    [GitError]. *)
Definition lint_rules (git : str -> git_result) (rules : list Rule)
    (services : option (dict Service)) (strict check_matches check_overlaps : bool)
    (repo_root : option str) : option LintResult :=
  let services := match services with Some d => d | None => [] end in
  let iss := duplicate_check strict rules in
  let iss := iss ++ services_check strict rules services in
  match opt_in git check_matches "--check-matches" repo_root
          (matches_check strict rules) with
  | None => None
  | Some iss1 =>
      match opt_in git check_overlaps "--check-overlaps" repo_root
              (overlaps_check rules) with
      | None => None
      | Some iss2 => Some {| issues := iss ++ iss1 ++ iss2 |}
      end
  end.

(* ------------------------------------------------------------------ *)
(** * Words of the specification and of the proofs *)
(* ------------------------------------------------------------------ *)

(** ** Reading a glob as tokens *)

(** The tokens of a glob, as [_glob_to_regex] reads them *)
Inductive gtoken :=
| TStarStar
| TStar
| TQuestion
| TClass (inner : str)
| TLit (c : ascii).

Fixpoint glob_tokens_loop (fuel : nat) (pat : str) : list gtoken :=
  match fuel with
  | 0 => []
  | S fuel' =>
      match pat with
      | [] => []
      | c :: rest =>
          if chr_eqb c "*" then
            match rest with
            | d :: _ =>
                if chr_eqb d "*"
                then TStarStar :: glob_tokens_loop fuel' (skip_stars rest)
                else TStar :: glob_tokens_loop fuel' rest
            | [] => TStar :: glob_tokens_loop fuel' rest
            end
          else if chr_eqb c "?" then TQuestion :: glob_tokens_loop fuel' rest
          else if chr_eqb c "[" then
            let (k, r') := class_head rest in
            match split_at_chr "]" r' with
            | None => TLit c :: glob_tokens_loop fuel' rest
            | Some (a, b) => TClass (k ++ a) :: glob_tokens_loop fuel' b
            end
          else TLit c :: glob_tokens_loop fuel' rest
      end
  end.

Definition glob_tokens (pat : str) : list gtoken :=
  glob_tokens_loop (length pat) pat.

(** The regex piece of a token *)
Definition render (t : gtoken) : str :=
  match t with
  | TStarStar => L ".*"
  | TStar => L "[^/]*"
  | TQuestion => L "[^/]"
  | TClass inner => L "[" ++ class_inner inner ++ L "]"
  | TLit c => re_escape c
  end.

Definition is_class (t : gtoken) : bool :=
  match t with TClass _ => true | _ => false end.

(** The glob has a bracket expression: a [[] with a []] after it *)
Definition has_class (pat : str) : bool := existsb is_class (glob_tokens pat).

(** No backslash in the string *)
Definition no_backslash (s : str) : bool :=
  forallb (fun c => negb (chr_eqb c "\")) s.

(** A glob character that stands for itself *)
Definition glob_plain (c : ascii) : bool :=
  negb (chr_eqb c "*" || chr_eqb c "?" || chr_eqb c "[").

Definition no_newline (s : str) : bool :=
  forallb (fun c => negb (chr_eqb c Re.newline)) s.

(** The three reasons for which a pattern is rejected.  The pattern is
    empty once surrounding whitespace is gone. *)
Definition empty_pattern (p : str) : bool := is_empty (strip p).

(** The pattern is not empty and names the repository root alone: nothing
    is left once the leading [./] and [/] are gone. *)
Definition root_pattern (p : str) : bool :=
  negb (is_empty (strip p))
  && is_empty (strip_leading_slash
                 (strip_dot_slash (replace_chr "\" (L "/") (strip p)))).

(** The pattern has a bracket expression and [re.compile] rejects the
    expression the translator renders. *)
Definition unrenderable_class (p : str) : bool :=
  match _normalize_pattern p with
  | Returns n =>
      has_class n
      && match Re.compile (anchored n) with
         | Re.ReError _ => true
         | _ => false
         end
  | _ => false
  end.

(** A bare directory name: one path component, not empty, without
    separator or whitespace, and not the current directory [.] *)
Definition name_chr (c : ascii) : bool :=
  negb (is_slash c) && negb (chr_eqb c "\") && negb (isspace c).

Definition bare_dir_name (name : str) : bool :=
  negb (is_empty name) && forallb name_chr name && negb (str_eqb name (L ".")).

(** ** What the tokens compile to *)

Definition not_slash : Re.atom := Re.ASet true [Re.SChar "/"].

(** The set a bracket expression stands for, when its rendering is a
    set of its own: [re] reads it, alone, as exactly one set. *)
Definition class_atom (inner : str) : option Re.atom :=
  match Re.run Re.start (render (TClass inner)) with
  | Re.PTop [] f =>
      match Re.alts f, Re.cur f with
      | None, [Re.RAtom a] => Some a
      | _, _ => None
      end
  | _ => None
  end.

(** A bracket expression whose rendering is a set of its own; every
    other token *)
Definition standalone (t : gtoken) : bool :=
  match t with
  | TClass inner =>
      match class_atom inner with Some _ => true | None => false end
  | _ => true
  end.

(** What a token compiles to (for a bracket expression, when it is
    [standalone]) *)
Definition item_of (t : gtoken) : Re.regex :=
  match t with
  | TStarStar => Re.RStar Re.ADot
  | TStar => Re.RStar not_slash
  | TQuestion => Re.RAtom not_slash
  | TClass inner =>
      match class_atom inner with
      | Some a => Re.RAtom a
      | None => Re.REps
      end
  | TLit c => Re.RAtom (Re.ALit c)
  end.

(** What the anchoring prefix compiles to: [^], or the group [(^|.*/)] *)
Definition any_dir : Re.regex :=
  Re.RAlt (Re.seq_of [Re.RBol])
          (Re.seq_of [Re.RStar Re.ADot; Re.RAtom (Re.ALit "/")]).

Definition anchor_of (norm : str) : Re.regex :=
  if contains "/" norm then Re.RBol else any_dir.

(** The frame after the items of the tokens [ts] were added *)
Definition push_all (ts : list gtoken) (f : Re.frame) : Re.frame :=
  {| Re.alts := Re.alts f; Re.cur := rev (map item_of ts) ++ Re.cur f |}.

(** [path.rsplit("/", 1)[-1]]: the final [/]-delimited segment *)
Fixpoint last_segment (s : str) : str :=
  match s with
  | [] => []
  | c :: t =>
      if contains "/" t then last_segment t
      else if is_slash c then t else s
  end.

(** The directory part of a path: what comes before the final segment *)
Definition dir_part (s : str) : str :=
  firstn (length s - length (last_segment s)) s.

(** The tokens of a basename glob that stay inside one segment: [*],
    [?], literal characters, and the bracket expressions that stand for
    a set without [/] *)
Definition segment_token (t : gtoken) : bool :=
  match t with
  | TStar | TQuestion | TLit _ => true
  | TStarStar => false
  | TClass inner =>
      match class_atom inner with
      | Some a => negb (Re.accepts a "/")
      | None => false
      end
  end.

(** The compiled pattern [*.[ch]] *)
Definition c_or_h_pattern : CompiledPattern :=
  match compile_pattern (L "*.[ch]") with
  | Returns cp => cp
  | _ => {| raw := []; normalized := []; regex := Re.REps |}
  end.

(** ** States of the [re] parser *)

(** States of the [re] parser between two pieces of a translated glob:
    outside a set, inside a set, or failed; never in the middle of an
    escape and never outside the modelled syntax. *)
Definition settled (st : Re.pstate) : bool :=
  match st with
  | Re.PTop _ _ | Re.PSetOpen _ _ | Re.PSetItem _ _ _ _
  | Re.PSetHave _ _ _ _ _ | Re.PSetDash _ _ _ _ _ | Re.PErr _ => true
  | _ => false
  end.

Definition in_set (st : Re.pstate) : bool :=
  match st with
  | Re.PSetOpen _ _ | Re.PSetItem _ _ _ _
  | Re.PSetHave _ _ _ _ _ | Re.PSetDash _ _ _ _ _ | Re.PErr _ => true
  | _ => false
  end.

(** A [*] may follow: inside a set, or right after an item that can be
    repeated. *)
Definition star_ready (st : Re.pstate) : bool :=
  match st with
  | Re.PTop _ f =>
      match Re.cur f with
      | Re.RAtom _ :: _ => true
      | _ => false
      end
  | _ => in_set st
  end.

(** A character that is neither a backslash nor a closing bracket *)
Definition inner_chr (c : ascii) : bool :=
  negb (chr_eqb c "\") && negb (chr_eqb c "]").

Definition token_ok (t : gtoken) : bool :=
  match t with
  | TClass inner => forallb inner_chr inner
  | _ => true
  end.

(** States of the [re] parser inside a set, failures included *)
Definition set_state (st : Re.pstate) : bool :=
  match st with
  | Re.PTop _ _ | Re.PTopEsc _ _ => false
  | _ => true
  end.

(** The state [st] of a parse that started at a set, seen from a parse
    in which the set comes after the items of [f] and inside the groups
    of [stack] *)
Definition reframe (stack : list Re.frame) (f : Re.frame) (st : Re.pstate)
    : Re.pstate :=
  match st with
  | Re.PSetOpen _ _ => Re.PSetOpen stack f
  | Re.PSetItem _ _ neg items => Re.PSetItem stack f neg items
  | Re.PSetEsc _ _ neg items => Re.PSetEsc stack f neg items
  | Re.PSetHave _ _ neg items c1 => Re.PSetHave stack f neg items c1
  | Re.PSetDash _ _ neg items c1 => Re.PSetDash stack f neg items c1
  | Re.PSetDashEsc _ _ neg items c1 => Re.PSetDashEsc stack f neg items c1
  | Re.PTop _ f0 =>
      match Re.cur f0 with
      | r :: _ => Re.PTop stack (Re.push r f)
      | [] => Re.PTop stack f
      end
  | _ => st
  end.

(** ** Words about matching *)

(** No [^] in the expression *)
Fixpoint bol_free (r : Re.regex) : bool :=
  match r with
  | Re.RBol => false
  | Re.RSeq r1 r2 | Re.RAlt r1 r2 => bol_free r1 && bol_free r2
  | _ => true
  end.

(** An item that consumes one or more characters other than [/] *)
Definition slash_free_item (r : Re.regex) : bool :=
  match r with
  | Re.RAtom a | Re.RStar a => negb (Re.accepts a "/")
  | _ => false
  end.

(** The continuation of a match that is over *)
Definition accept : str -> bool -> bool := fun _ _ => true.

(** [/] and then [k]: the end of the alternative [.*/] of the prefix *)
Definition after_slash (k : str -> bool -> bool) : str -> bool -> bool :=
  fun s _ =>
    match s with
    | c :: s' => chr_eqb c "/" && k s' false
    | [] => false
    end.

(** ** Lines of the rule file *)

Definition chr_at (ln : str) (i : nat) : option ascii := nth_error ln i.

(** [#] at position [i], at the start of the line or after whitespace *)
Definition hash_after_space (ln : str) (i : nat) : bool :=
  match chr_at ln i with
  | Some c => chr_eqb c "#"
  | None => false
  end
  && ((i =? 0)
      || match chr_at ln (i - 1) with
         | Some p => isspace p
         | None => false
         end).

(** The number of quote characters before position [i] *)
Definition quotes_before (ln : str) (i : nat) : nat :=
  length (filter is_quote (firstn i ln)).

(** As the code has it: the [#] is moreover outside quotes, an even
    number of quote characters comes before it. *)
Definition starts_comment (ln : str) (i : nat) : bool :=
  hash_after_space ln i && Nat.even (quotes_before ln i).

(** The line up to the first position where [starts] holds, without
    trailing whitespace *)
Definition cut_comment (starts : str -> nat -> bool) (ln : str) : str :=
  match find (starts ln) (seq 0 (length ln)) with
  | Some i => rstrip (firstn i ln)
  | None => rstrip ln
  end.

Definition is_ParseError (e : exn) : bool :=
  match e with
  | ParseError_columns _ _ _ | ParseError_empty_service _ _
  | ParseError_pattern _ _ _ => true
  | _ => false
  end.

(** A line of the rule file that has content but not two columns *)
Definition bad_columns (raw_line : str) : bool :=
  match line_content raw_line with
  | Some ln => negb (length (split ln) =? 2)
  | None => false
  end.

(** The rules of a rule file, [[]] when it does not parse *)
Definition rules_of_text (text : str) : list Rule :=
  match parse_serviceowners_text text (L "SERVICEOWNERS") with
  | Returns rules => rules
  | _ => []
  end.

Definition lines_text (lines : list string) : str :=
  flat_map (fun l => L l ++ [Re.newline]) lines.

(** The rules of the test [test_last_match_wins] *)
Definition last_match_text : str :=
  L "*.py core" ++ [Re.newline] ++ L "src/** platform" ++ [Re.newline].

Definition two_services_rules : list Rule :=
  rules_of_text (lines_text ["src/** api"; "src/** web"]%string).

(** ** Callers of an index *)

(** What the code around an index can do to the store: change in place a
    list it holds a reference to (whatever the change, the contents
    become some [v]), or read the property [rules] and keep the list it
    gets. *)
Inductive action :=
| Mutate (l : loc) (v : list Rule)
| ReadRules.

Definition holds (known : list loc) (l : loc) : bool :=
  existsb (Nat.eqb l) known.

(** The store after the caller's actions; [known] are the references the
    caller holds.  [None] when an action uses a reference the caller
    does not hold. *)
Fixpoint caller_run (self : OwnershipIndex) (h : store) (known : list loc)
    (acts : list action) : option store :=
  match acts with
  | [] => Some h
  | Mutate l v :: acts' =>
      if holds known l then caller_run self (assign h l v) known acts'
      else None
  | ReadRules :: acts' =>
      let (h', l) := OwnershipIndex_rules h self in
      caller_run self h' (l :: known) acts'
  end.

(** A store with one list, the rules of [two_services_rules], and a
    caller that empties that list, reads [rules], and overwrites what it
    got. *)
Definition caller_store : store := [two_services_rules].

Definition caller_acts : list action :=
  [Mutate 0 []; ReadRules; Mutate 2 (two_services_rules ++ two_services_rules);
   Mutate 0 (rev two_services_rules)].

Definition caller_store_after : store :=
  [rev two_services_rules; two_services_rules;
   two_services_rules ++ two_services_rules].

(** ** Buckets and order *)

(** [a < b] on strings *)
Definition str_ltb (a b : str) : bool := str_leb a b && negb (str_eqb a b).

(** [a <= b] as a proposition *)
Definition str_le (a b : str) : Prop := str_leb a b = true.

(** Sorted lexicographically and free of duplicates: each element is
    strictly below the next. *)
Fixpoint strictly_sorted (l : list str) : bool :=
  match l with
  | [] => true
  | x :: l' =>
      match l' with
      | [] => true
      | y :: _ => str_ltb x y && strictly_sorted l'
      end
  end.

(** The service that owns a path, [None] for an unmapped path *)
Definition owner_of (rules : list Rule) (path : str) : option str :=
  Match_service (OwnershipIndex_match rules path).

Definition owned_by (rules : list Rule) (svc : option str) (path : str) : bool :=
  match owner_of rules path, svc with
  | Some a, Some b => str_eqb a b
  | None, None => true
  | _, _ => false
  end.

(** The value a dict of buckets has for a bucket: no key for an empty
    one *)
Definition as_bucket (fs : list str) : option (list str) :=
  match fs with
  | [] => None
  | _ => Some fs
  end.

(** ** Duplicate patterns *)

Definition has_code (c : IssueCode) (i : Issue) : bool :=
  match c, issue_code i with
  | DUPLICATE_PATTERN, DUPLICATE_PATTERN
  | UNKNOWN_SERVICE, UNKNOWN_SERVICE
  | SERVICE_HAS_NO_CONTACT, SERVICE_HAS_NO_CONTACT
  | GIT_REQUIRED, GIT_REQUIRED
  | GIT_ERROR, GIT_ERROR
  | PATTERN_MATCHES_NOTHING, PATTERN_MATCHES_NOTHING
  | OVERLAPPING_RULES, OVERLAPPING_RULES => true
  | _, _ => false
  end.

(** The first rule of [pre] with the raw pattern [p] *)
Definition first_with (p : str) (pre : list Rule) : option Rule :=
  find (fun x => str_eqb (pattern x) p) pre.

(** The latest rule of [pre] that has the raw pattern [p] and the service
    of the first rule with that pattern *)
Definition held_for (p : str) (pre : list Rule) : option Rule :=
  match first_with p pre with
  | None => None
  | Some f =>
      last_opt
        (filter (fun x => str_eqb (pattern x) p
                          && str_eqb (service x) (service f)) pre)
  end.

(** A rule conflicts with the rules before it when its raw pattern
    occurred there and the first rule with that pattern names another
    service. *)
Definition conflicts (pre : list Rule) (r : Rule) : bool :=
  match first_with (pattern r) pre with
  | Some f => negb (str_eqb (service f) (service r))
  | None => false
  end.

(** One issue for each rule of [rest] that conflicts with the rules
    before it, [pre] being the rules before [rest]. *)
Fixpoint conflict_issues (strict : bool) (pre rest : list Rule) : list Issue :=
  match rest with
  | [] => []
  | r :: rest' =>
      (if conflicts pre r then
         match held_for (pattern r) pre with
         | Some prev => [duplicate_issue strict prev r]
         | None => []
         end
       else [])
      ++ conflict_issues strict (pre ++ [r]) rest'
  end.

(** The rules of [rest] that conflict with the rules before them *)
Fixpoint conflicting (pre rest : list Rule) : list Rule :=
  match rest with
  | [] => []
  | r :: rest' =>
      (if conflicts pre r then [r] else []) ++ conflicting (pre ++ [r]) rest'
  end.

(** What [seen] holds once the rules of [pre] went through the loop. *)
Definition seen_ok (seen : dict Rule) (pre : list Rule) : Prop :=
  forall p, dict_get seen p = held_for p pre.

Definition no_git (root : str) : git_result := GitFiles [].

(* ------------------------------------------------------------------ *)
(** * More of the code: methods and helpers beside the ones above *)
(* ------------------------------------------------------------------ *)

(** ** impact.py: the methods of [ImpactReport] *)

(** [ImpactReport.impacted_services]:
    [sorted(self.services_to_files.keys())] *)
Definition impacted_services (r : ImpactReport) : list str :=
  sorted (map fst (services_to_files r)).

(** [ImpactReport.file_count_for]:
    [len(self.services_to_files.get(service, []))] *)
Definition file_count_for (r : ImpactReport) (svc : str) : nat :=
  match dict_get (services_to_files r) svc with
  | Some fs => length fs
  | None => 0
  end.

(** [ImpactReport.total_files] *)
Definition total_files (r : ImpactReport) : nat :=
  list_sum (map (fun kv => length (snd kv)) (services_to_files r))
  + length (unmapped_files r).

(** [p in paths] for a list of strings *)
Definition str_in (p : str) (paths : list str) : bool :=
  existsb (str_eqb p) paths.

(** The candidates of a path: the rules that match it, in rule order *)
Definition candidates (rules : list Rule) (path : str) : list Rule :=
  match_matches (OwnershipIndex_match rules path).

(** ** lint.py: words for the checks *)

(** The severity [lint_rules] gives an issue of each code *)
Definition severity_of (strict : bool) (c : IssueCode) : Severity :=
  match c with
  | DUPLICATE_PATTERN | UNKNOWN_SERVICE | PATTERN_MATCHES_NOTHING =>
      if strict then ERROR else WARN
  | GIT_REQUIRED | GIT_ERROR => ERROR
  | SERVICE_HAS_NO_CONTACT | OVERLAPPING_RULES => WARN
  end.

Definition is_git_code (i : Issue) : bool :=
  has_code GIT_REQUIRED i || has_code GIT_ERROR i.

(** The files the checks see: none when listing them failed *)
Definition tracked_of (g : git_result) : list str :=
  match g with
  | GitFiles files => files
  | _ => []
  end.

(** No tracked file matches the rule *)
Definition matches_nothing (tracked : list str) (r : Rule) : bool :=
  negb (existsb (matches (compiled r)) tracked).

(** The rules that match a file name more than one distinct service *)
Definition overlapping (rules : list Rule) (f : str) : bool :=
  (1 <? length (candidates rules f))
  && (1 <? length (py_set (map service (candidates rules f)))).

Definition overlap_example (rules : list Rule) (f : str) : str :=
  f ++ L " -> " ++ join (L ", ") (map service (candidates rules f)).

(** Rules that agree: the same raw pattern always names the same
    service *)
Definition patterns_agree (rules : list Rule) : Prop :=
  forall r1 r2,
    In r1 rules -> In r2 rules -> pattern r1 = pattern r2 ->
    service r1 = service r2.

(** ** cli.py and action_runner.py: the exit codes *)

(** The truth value of a list: false when it is empty *)
Definition truth {A} (l : list A) : bool :=
  match l with
  | [] => false
  | _ :: _ => true
  end.

(** The exit code of [cmd_lint], from the call of [lint_rules] on:
    [lint_rules] is called with [strict=False] whatever [--strict] says,
    and with the dict of [load_services].  [None] stands for an exception
    that leaves [lint_rules]. *)
Definition cmd_lint (git : str -> git_result) (rules : list Rule)
    (services : dict Service) (strict check_matches check_overlaps : bool)
    (repo_root : str) : option nat :=
  match lint_rules git rules (Some services) false check_matches
          check_overlaps (Some repo_root) with
  | None => None
  | Some res =>
      Some (if has_errors res then 2
            else if strict && has_warnings res then 2
            else 0)
  end.




(** ** serviceowners_file.py: words for the parsed rules *)

Definition no_space (w : str) : bool :=
  forallb (fun c => negb (isspace c)) w.

(** A line of the rule file that is left with content *)
Definition has_content (raw_line : str) : bool :=
  match line_content raw_line with
  | Some _ => true
  | None => false
  end.

(** The columns of line [n] of the file, lines being counted from 1 *)
Definition columns_at (lines : list str) (n : nat) : option (list str) :=
  match n with
  | 0 => None
  | S k =>
      match nth_error lines k with
      | Some raw_line => option_map split (line_content raw_line)
      | None => None
      end
  end.

(** ** Words of the proofs below *)

Definition well_coded (strict : bool) (codes : list IssueCode) (i : Issue)
    : Prop :=
  issue_severity i = severity_of strict (issue_code i)
  /\ In (issue_code i) codes.

Definition git_down (root : str) : git_result := GitFailed (L "fatal").

Definition git_one_file (root : str) : git_result := GitFiles [L "src/a"].

(** What holds of a rule read at or after line [idx] of [lines] *)
Definition read_from (src : str) (lines : list str) (idx : nat) (r : Rule)
    : Prop :=
  source r = src
  /\ idx <= line r
  /\ (exists raw_line,
        nth_error lines (line r - idx) = Some raw_line
        /\ option_map split (line_content raw_line)
           = Some [pattern r; service r])
  /\ compile_pattern (pattern r) = Returns (compiled r).

(** ** patterns.py: words about normalisation *)

(** A backslash read as a separator *)
Definition to_slash (c : ascii) : ascii :=
  if chr_eqb c "\" then "/"%char else c.

(** The pattern starts with a character of its own: no whitespace, no
    separator and no [./] comes first. *)
Definition starts_plain (p : str) : bool :=
  match p with
  | [] => true
  | c :: t =>
      negb (isspace c) && negb (chr_eqb c "/") && negb (chr_eqb c "\")
      && negb (chr_eqb c "."
               && match t with
                  | d :: _ => chr_eqb d "/" || chr_eqb d "\"
                  | [] => false
                  end)
  end.

(** ** patterns.py: words about what a glob matches *)

(** The number of [c] in [s] *)
Definition count_chr (c : ascii) (s : str) : nat :=
  length (filter (chr_eqb c) s).

(** A run of two stars somewhere in the glob *)
Fixpoint has_double_star (s : str) : bool :=
  match s with
  | c :: t =>
      match t with
      | d :: _ => (chr_eqb c "*" && chr_eqb d "*") || has_double_star t
      | [] => false
      end
  | [] => false
  end.

(** The token of a character of a glob without brackets and without
    runs of stars *)
Definition simple_token (c : ascii) : gtoken :=
  if chr_eqb c "*" then TStar
  else if chr_eqb c "?" then TQuestion
  else TLit c.

(** [s] without its prefix [a], when it starts with [a] *)
Fixpoint drop_prefix (a s : str) : option str :=
  match a, s with
  | [], _ => Some s
  | x :: a', y :: s' => if chr_eqb y x then drop_prefix a' s' else None
  | _ :: _, [] => None
  end.

(** The compiled pattern [src/*.py] *)
Definition src_py_pattern : CompiledPattern :=
  match compile_pattern (L "src/*.py") with
  | Returns cp => cp
  | _ => {| raw := []; normalized := []; regex := Re.REps |}
  end.

(** The compiled pattern [docs/README.md] *)
Definition readme_pattern : CompiledPattern :=
  match compile_pattern (L "docs/README.md") with
  | Returns cp => cp
  | _ => {| raw := []; normalized := []; regex := Re.REps |}
  end.

(** ** services_file.py and markdown.py: owners given as strings *)

Record OwnerRef := {
  team : option str;
  user : option str;
  email : option str
}.

(** [OwnerRef.from_obj] on a string *)
Definition OwnerRef_from_obj (obj : str) : OwnerRef :=
  if contains "@" obj && contains "." obj && negb (contains " " obj)
     && negb (startswith (L "@") obj)
  then {| team := None; user := None; email := Some obj |}
  else if startswith (L "@") obj
  then {| team := Some obj; user := None; email := None |}
  else {| team := None; user := Some obj; email := None |}.

(** [a or b] on optional strings, and with a string last *)
Definition or_else (a b : option str) : option str :=
  if truthy a then a else b.

Definition or_str (a : option str) (b : str) : str :=
  match a with
  | Some (c :: s) => c :: s
  | _ => b
  end.

(** [OwnerRef.display]: [self.team or self.user or self.email or ""] *)
Definition display (o : OwnerRef) : str :=
  or_str (or_else (or_else (team o) (user o)) (email o)) [].

(** [_owners_line] of [markdown.py], on the owners of the service *)
Definition _owners_line (svc_owners : list OwnerRef) : str :=
  match svc_owners with
  | [] => []
  | _ =>
      let shown :=
        map display (filter (fun o => negb (is_empty (display o))) svc_owners) in
      match shown with
      | [] => []
      | _ => join (L ", ") shown
      end
  end.

(** ** gitutils.py: reading the output of git *)

Definition NUL : ascii := ascii_of_nat 0.

(** [s.split(sep)] for a one-character separator *)
Fixpoint split_chr_from (sep : ascii) (acc s : str) : list str :=
  match s with
  | [] => [acc]
  | c :: t =>
      if chr_eqb c sep then acc :: split_chr_from sep [] t
      else split_chr_from sep (acc ++ [c]) t
  end.

Definition split_chr (sep : ascii) (s : str) : list str :=
  split_chr_from sep [] s.

(** [git_ls_files], from the output [out] of [git ls-files -z] on *)
Definition git_ls_files (out : str) : list str :=
  if is_empty out then []
  else filter (fun p => negb (is_empty p)) (split_chr NUL out).

(** [git_diff_name_only], from the output of [git diff --name-only] on *)
Definition git_diff_name_only (out : str) : list str :=
  map strip
    (filter (fun ln => negb (is_empty (strip ln))) (splitlines out)).

(** A file name [git ls-files -z] can print: not empty, without NUL *)
Definition z_name (n : str) : bool :=
  negb (is_empty n) && negb (contains NUL n).

(** A file name that survives the reading of [git diff --name-only]: not
    empty, on one line, without whitespace around it *)
Definition line_name (n : str) : bool :=
  negb (is_empty n) && forallb (fun c => negb (is_linebreak c)) n
  && str_eqb (strip n) n.

(** ** cli.py: bootstrapping from CODEOWNERS *)

(** [str.lower] on one character below code point 256 *)
Definition lower_chr (c : ascii) : ascii :=
  let n := ord c in
  if ((65 <=? n) && (n <=? 90))
     || ((192 <=? n) && (n <=? 222) && negb (n =? 215))
  then ascii_of_nat (n + 32)
  else c.

Definition lower (s : str) : str := map lower_chr s.

(** [is_literal] of [_infer_service_from_pattern] *)
Definition is_literal (seg : str) : bool :=
  negb (contains "*" seg || contains "?" seg || contains "[" seg
        || contains "]" seg).

Definition _infer_service_from_pattern (pattern : str) : option str :=
  let p := lstrip_by is_slash (strip pattern) in
  let p := if endswith_chr "/" p then rstrip_slash p else p in
  let p := replace_chr "\" (L "/") p in
  let parts := filter (fun seg => negb (is_empty seg)) (split_chr "/" p) in
  match parts with
  | [] => None
  | _ =>
      match last_opt (filter is_literal parts) with
      | None => None
      | Some seg =>
          let candidate := lower (strip seg) in
          if is_empty candidate then None else Some candidate
      end
  end.

Definition _infer_service_from_owner (owner : str) : option str :=
  let o := strip owner in
  if is_empty o then None
  else
    let o := match o with
             | c :: t => if chr_eqb c "@" then t else o
             | [] => o
             end in
    let o := match split_at_chr "/" o with
             | Some (_, rest) => rest
             | None => o
             end in
    let o := lower (replace_chr "-" (L "_") o) in
    if is_empty o then None else Some o.

Definition tab : ascii := ascii_of_nat 9.

(** The body of the loop of [cmd_init]: the line written for a line of
    CODEOWNERS, [None] when the line is skipped *)
Definition init_line (raw_line : str) : option str :=
  let ln := strip raw_line in
  if is_empty ln || startswith (L "#") ln then None
  else
    match split ln with
    | pat :: owner :: _ =>
        let svc :=
          match _infer_service_from_pattern pat with
          | Some s => s
          | None =>
              match _infer_service_from_owner owner with
              | Some s => s
              | None => L "service"
              end
          end in
        Some (pat ++ [tab] ++ svc)
    | _ => None
    end.

Definition init_lines (txt : str) : list str :=
  flat_map (fun raw_line =>
              match init_line raw_line with
              | Some ln => [ln]
              | None => []
              end)
    (splitlines txt).

(** [out_text] of [cmd_init] *)
Definition init_text (txt : str) : str :=
  join [Re.newline]
    ([L "# Generated from CODEOWNERS"; L "# pattern    service"]
     ++ init_lines txt)
  ++ [Re.newline].

(** A line [cmd_init] writes for a rule: the pattern, a tab and a
    service name, neither empty nor with whitespace inside *)
Definition two_columns (pat ln : str) : Prop :=
  exists svc,
    ln = pat ++ [tab] ++ svc
    /\ svc <> [] /\ no_space svc = true
    /\ split ln = [pat; svc].

(** The pattern compiles *)
Definition compiles (p : str) : bool :=
  match compile_pattern p with
  | Returns _ => true
  | _ => false
  end.

(** A line written by [cmd_init] that reads back as a rule: it holds no
    [#] and its pattern compiles *)
Definition reads_back (ln : str) : bool :=
  negb (contains "#" ln) && compiles (hd [] (split ln)).

(** The line a rule stands for in the output of [cmd_init] *)
Definition rule_line (r : Rule) : str :=
  pattern r ++ [tab] ++ service r.

(** ** paths.py, on a POSIX system

    [Path] is [PosixPath] there, and [PurePosixPath] and [Path] read a
    path the same way. *)

Definition to_posix (path : str) : str := replace_chr "\" (L "/") path.

(** [posixpath.splitroot]: the root ([/], [//] or none) and the rest *)
Definition splitroot (p : str) : str * str :=
  match p with
  | c1 :: t1 =>
      if chr_eqb c1 "/" then
        match t1 with
        | c2 :: t2 =>
            if chr_eqb c2 "/" then
              match t2 with
              | c3 :: _ => if chr_eqb c3 "/" then (L "/", t1) else (L "//", t2)
              | [] => (L "//", t2)
              end
            else (L "/", t1)
        | [] => (L "/", t1)
        end
      else ([], p)
  | [] => ([], [])
  end.

(** A component a path keeps: not empty and not a single dot *)
Definition is_component (x : str) : bool :=
  negb (is_empty x) && negb (str_eqb x (L ".")).

(** The root and the components of a path *)
Definition path_parse (p : str) : str * list str :=
  let (root, rel) := splitroot p in
  (root, filter is_component (split_chr "/" rel)).

(** [str] of a path with this root and these components *)
Definition path_str (root : str) (comps : list str) : str :=
  match root ++ join (L "/") comps with
  | [] => L "."
  | s => s
  end.

(** [str(PurePosixPath(p))] *)
Definition PurePosixPath_str (p : str) : str :=
  let (root, comps) := path_parse p in path_str root comps.

(** [Path(p).is_absolute()] *)
Definition is_absolute (p : str) : bool := negb (is_empty (fst (path_parse p))).

(** [l] without its prefix [pre] *)
Fixpoint drop_parts (pre l : list str) : option (list str) :=
  match pre, l with
  | [], _ => Some l
  | x :: pre', y :: l' => if str_eqb x y then drop_parts pre' l' else None
  | _ :: _, [] => None
  end.

(** [str(Path(p).relative_to(root))], [None] for the [ValueError] *)
Definition relative_to (p root : str) : option str :=
  let (r1, c1) := path_parse p in
  let (r2, c2) := path_parse root in
  if str_eqb r1 r2 then option_map (path_str []) (drop_parts c2 c1) else None.

Definition dquote : ascii := ascii_of_nat 34.

(** The quotes around a path are trimmed: [p[1:-1]] *)
Definition unquote (p : str) : str :=
  if (startswith [dquote] p && endswith_chr dquote p)
     || (startswith (L "'") p && endswith_chr "'" p)
  then removelast (tl p)
  else p.

Definition normalize_repo_path (path : str) (repo_root : option str) : str :=
  let p := strip (to_posix path) in
  let p := unquote p in
  let p :=
    match repo_root with
    | Some root =>
        if is_absolute p then
          match relative_to p root with
          | Some q => q
          | None => p
          end
        else p
    | None => p
    end in
  let p := strip_dot_slash p in
  let p := strip_leading_slash p in
  PurePosixPath_str p.

Definition normalize_paths (paths : list str) (repo_root : option str)
    : list str :=
  map (fun p => normalize_repo_path p repo_root)
    (filter (fun p => negb (is_empty p) && negb (is_empty (strip p))) paths).

(** A path relative to the repository as git prints it: components
    separated by single slashes, none empty or a single dot, no
    whitespace around it and no quote in front *)
Definition repo_path (p : str) : bool :=
  forallb is_component (split_chr "/" p)
  && str_eqb (strip p) p
  && negb (startswith [dquote] p) && negb (startswith (L "'") p).

(** An absolute directory, written as a slash and components *)
Definition abs_dir (root : str) : bool :=
  match root with
  | c :: r0 =>
      chr_eqb c "/" && forallb is_component (split_chr "/" r0)
      && no_backslash r0
  | [] => false
  end.

(** ** Words about a [**] token *)

(** The continuation that holds when what is left of the path is
    [rest] *)
Definition leaves (rest : str) : str -> bool -> bool :=
  fun s' _ => str_eqb s' rest.

(** What comes before a token of the glob [norm] matches all of [s1]:
    the anchor and then the tokens [pre] *)
Definition before_token (norm : str) (pre : list gtoken) (s1 : str) : bool :=
  Re.mtch (Re.seq_of (anchor_of norm :: map item_of pre)) s1 true (leaves []).

(** What comes after a token matches all of [s2]: the tokens [post] and
    then the end [$] *)
Definition after_token (post : list gtoken) (s2 : str) : bool :=
  Re.mtch (Re.seq_of (map item_of post ++ [Re.REol])) s2 false accept.

(** [r] matches exactly [s1] when [rest] follows; [bos] tells whether
    [s1] starts the path. *)
Fixpoint takes (r : Re.regex) (bos : bool) (s1 rest : str) : Prop :=
  match r with
  | Re.REps => s1 = []
  | Re.RAtom a => exists c, s1 = [c] /\ Re.accepts a c = true
  | Re.RStar a => forallb (Re.accepts a) s1 = true
  | Re.RBol => s1 = [] /\ bos = true
  | Re.REol => s1 = [] /\ Re.at_end rest = true
  | Re.RSeq r1 r2 =>
      exists u v,
        s1 = u ++ v
        /\ takes r1 bos u (v ++ rest)
        /\ takes r2 (bos && is_empty u) v rest
  | Re.RAlt r1 r2 => takes r1 bos s1 rest \/ takes r2 bos s1 rest
  end.

Fixpoint eol_free (r : Re.regex) : bool :=
  match r with
  | Re.REol => false
  | Re.RSeq r1 r2 | Re.RAlt r1 r2 => eol_free r1 && eol_free r2
  | _ => true
  end.

(** The compiled pattern [src/**/*.py] *)
Definition deep_py_pattern : CompiledPattern :=
  match compile_pattern (L "src/**/*.py") with
  | Returns cp => cp
  | _ => {| raw := []; normalized := []; regex := Re.REps |}
  end.

(* ================================================================== *)
(** * Properties *)
(* ================================================================== *)

(** ** Characters and strings *)

Lemma chr_eqb_eq (a b : ascii) : chr_eqb a b = true <-> a = b.
Proof. apply Ascii.eqb_eq. Qed.

Lemma chr_eqb_refl (a : ascii) : chr_eqb a a = true.
Proof. apply Ascii.eqb_refl. Qed.

Lemma chr_eqb_neq (a b : ascii) : chr_eqb a b = false <-> a <> b.
Proof. apply Ascii.eqb_neq. Qed.

Lemma chr_eqb_sym (a b : ascii) : chr_eqb a b = chr_eqb b a.
Proof. apply Ascii.eqb_sym. Qed.

Lemma str_eqb_eq (a b : str) : str_eqb a b = true <-> a = b.
Proof.
  unfold str_eqb. destruct (list_eq_dec ascii_dec a b); split; congruence.
Qed.

Lemma str_eqb_refl (a : str) : str_eqb a a = true.
Proof. now apply str_eqb_eq. Qed.

Lemma str_eqb_neq (a b : str) : str_eqb a b = false <-> a <> b.
Proof.
  unfold str_eqb. destruct (list_eq_dec ascii_dec a b); split; congruence.
Qed.

Lemma ord_inj (a b : ascii) : ord a = ord b -> a = b.
Proof.
  unfold ord. intros H.
  rewrite <- (ascii_nat_embedding a), <- (ascii_nat_embedding b).
  now rewrite H.
Qed.

(** ** ownership.py: resolution *)

Section Resolution.

Variable rules : list Rule.
Variable path : str.

Let hit (r : Rule) : bool := matches (compiled r) path.

Lemma match_loop_from (acc : list Rule) (rs : list Rule) :
  fold_left (fun acc r => if matches (compiled r) path then acc ++ [r] else acc)
    rs acc
  = acc ++ filter hit rs.
Proof.
  revert acc. induction rs as [|r rs IH]; intros acc; simpl.
  - now rewrite app_nil_r.
  - rewrite IH. unfold hit at 2. destruct (matches (compiled r) path).
    + now rewrite <- app_assoc.
    + reflexivity.
Qed.

Lemma match_loop_filter : match_loop rules path = filter hit rules.
Proof. unfold match_loop. now rewrite match_loop_from. Qed.

Lemma last_opt_nth {A} (xs : list A) :
  last_opt xs = nth_error xs (length xs - 1).
Proof.
  unfold last_opt. destruct xs as [|x xs] using rev_ind.
  - reflexivity.
  - rewrite rev_app_distr. simpl. rewrite length_app. simpl.
    replace (length xs + 1 - 1) with (length xs) by lia.
    rewrite nth_error_app2 by lia. now rewrite Nat.sub_diag.
Qed.

End Resolution.

(** C1. Last-match-wins: [OwnershipIndex.match] collects in [matches]
    every rule whose matcher matches the path, in rule order, and
    [chosen] is the last of them ([None] when there is none).  With the
    rules [*.py -> core], [src/** -> platform], the path [src/main.py]
    has two candidates and the service [platform]. *)
Theorem C1_last_match_wins :
  (forall rules path,
     let m := OwnershipIndex_match rules path in
     match_matches m = filter (fun r => matches (compiled r) path) rules
     /\ match_chosen m
        = nth_error (match_matches m) (length (match_matches m) - 1))
  /\ exists rules,
       parse_serviceowners_text last_match_text (L "SERVICEOWNERS")
       = Returns rules
       /\ map pattern rules = [L "*.py"; L "src/**"]
       /\ map service rules = [L "core"; L "platform"]
       /\ let m := OwnershipIndex_match rules (L "src/main.py") in
          Match_service m = Some (L "platform")
          /\ length (match_matches m) = 2.
Proof.
  split.
  - intros rules path m. split.
    + apply match_loop_filter.
    + apply last_opt_nth.
  - destruct (parse_serviceowners_text last_match_text (L "SERVICEOWNERS"))
      as [rules| |] eqn:E; try (vm_compute in E; discriminate).
    exists rules. split; [reflexivity|].
    vm_compute in E. injection E as <-.
    vm_compute. repeat split; reflexivity.
Qed.

(** ** ownership.py: the index owns its list *)

Lemma length_assign (h : store) (l : loc) (v : list Rule) :
  length (assign h l v) = length h.
Proof.
  revert l. induction h as [|x h IH]; intros [|l]; simpl; auto.
Qed.

Lemma deref_assign_other (h : store) (l l' : loc) (v : list Rule) :
  l <> l' -> deref (assign h l v) l' = deref h l'.
Proof.
  unfold deref. revert l l'.
  induction h as [|x h IH]; intros [|l] [|l'] Hne; simpl;
    try congruence; auto.
Qed.

Lemma deref_alloc_new (h : store) (v : list Rule) :
  deref (fst (alloc h v)) (snd (alloc h v)) = v.
Proof.
  unfold deref, alloc. simpl. rewrite app_nth2 by lia.
  now rewrite Nat.sub_diag.
Qed.

Lemma deref_alloc_old (h : store) (v : list Rule) (l : loc) :
  l < length h -> deref (fst (alloc h v)) l = deref h l.
Proof. intros Hl. unfold deref, alloc. simpl. now apply app_nth1. Qed.

Lemma holds_In (known : list loc) (l : loc) :
  holds known l = true <-> In l known.
Proof.
  unfold holds. rewrite existsb_exists. split.
  - intros [x [Hx E]]. apply Nat.eqb_eq in E. now subst.
  - intros Hl. exists l. split; [assumption | apply Nat.eqb_refl].
Qed.

(** While the caller only uses references it holds, and the private list
    is not among them, the private list keeps its contents. *)
Lemma caller_run_private (self : OwnershipIndex) (acts : list action) :
  forall (h h' : store) (known : list loc),
    _rules self < length h ->
    (forall l, In l known -> l <> _rules self) ->
    caller_run self h known acts = Some h' ->
    deref h' (_rules self) = deref h (_rules self).
Proof.
  induction acts as [|a acts IH]; intros h h' known Hp Hk Hrun; simpl in Hrun.
  - now injection Hrun as <-.
  - destruct a as [l v|].
    + destruct (holds known l) eqn:Hh; [|discriminate].
      apply holds_In in Hh.
      assert (Hp' : _rules self < length (assign h l v))
        by now rewrite length_assign.
      rewrite (IH _ _ _ Hp' Hk Hrun).
      apply deref_assign_other. now apply Hk.
    + unfold OwnershipIndex_rules, alloc in Hrun.
      assert (Hp' : _rules self < length (h ++ [deref h (_rules self)]))
        by (rewrite length_app; simpl; lia).
      assert (Hk' : forall l, In l (length h :: known) -> l <> _rules self)
        by (intros l [<-|Hl]; [lia | now apply Hk]).
      rewrite (IH _ _ _ Hp' Hk' Hrun).
      apply (deref_alloc_old h (deref h (_rules self))). assumption.
Qed.

(** C10. The index is insulated from its caller: the constructor copies
    the list it is given into a list of its own, and each read of
    [rules] hands out a new copy.  Whatever the caller then does to the
    lists it holds (those that existed before the index was built, the
    constructor's argument among them, and those it got from [rules]),
    [match] answers as it did when the index was built. *)
Theorem C10_index_insulated :
  forall (h : store) (src : loc) (acts : list action) (h' : store) (path : str),
    caller_run (snd (OwnershipIndex_init h src))
      (fst (OwnershipIndex_init h src)) (seq 0 (length h)) acts = Some h' ->
    OwnershipIndex_match_obj h' (snd (OwnershipIndex_init h src)) path
    = OwnershipIndex_match (deref h src) path.
Proof.
  intros h src acts h' path Hrun.
  unfold OwnershipIndex_match_obj. f_equal.
  pose proof (@caller_run_private (snd (OwnershipIndex_init h src)) acts
                (fst (OwnershipIndex_init h src)) h' (seq 0 (length h))) as P.
  unfold OwnershipIndex_init, alloc in *. simpl in *.
  rewrite P.
  - apply (deref_alloc_new h (deref h src)).
  - rewrite length_app. simpl. lia.
  - intros l Hl. apply in_seq in Hl. lia.
  - exact Hrun.
Qed.

(** The theorem for a caller that empties the list it passed, reads
    [rules], and overwrites both lists it holds. *)
Lemma C10_index_insulated_witness :
  OwnershipIndex_match_obj caller_store_after
    (snd (OwnershipIndex_init caller_store 0)) (L "src/main.py")
  = OwnershipIndex_match (deref caller_store 0) (L "src/main.py").
Proof.
  apply (C10_index_insulated caller_store 0 caller_acts caller_store_after).
  reflexivity.
Defined.

(** ** lint.py: what propagates and what becomes an issue *)

Lemma opt_in_None git requested flag repo_root check :
  opt_in git requested flag repo_root check = None
  <-> requested = true
      /\ exists root, repo_root = Some root /\ git root = GitCrashed.
Proof.
  unfold opt_in, tracked_files. split.
  - destruct requested; [|discriminate].
    destruct repo_root as [root|]; [|discriminate].
    destruct (git root) eqn:G; try discriminate.
    intros _. split; [reflexivity|]. now exists root.
  - intros [-> [root [-> G]]]. now rewrite G.
Qed.

(** C6, the claim at a concrete input: an opt-in check asked for without
    [repo_root] does not make [lint_rules] raise; it returns a result
    with one GIT_REQUIRED issue. *)
Lemma C6_missing_root_returns :
  lint_rules no_git [] None false true false None
  = Some {| issues := [git_required_issue "--check-matches"] |}
  /\ lint_rules no_git [] None false true false None <> None.
Proof. split; [reflexivity | discriminate]. Qed.

(** C6, as the code has it. [lint_rules] never raises for what it finds
    in the rules or the services, and not either for an opt-in check
    asked for without [repo_root]: it then returns all the issues of the
    other checks and one GIT_REQUIRED issue of severity ERROR for each
    opt-in check asked for, so that [has_errors] holds.  An exception
    leaves [lint_rules] exactly when an opt-in check is asked for, with a
    [repo_root], and the file listing raises something else than
    [GitError]. *)
Theorem C6_lint_failure_semantics :
  (forall git rules services strict check_matches check_overlaps,
     exists res,
       lint_rules git rules services strict check_matches check_overlaps None
       = Some res
       /\ issues res
          = duplicate_check strict rules
            ++ services_check strict rules
                 (match services with Some d => d | None => [] end)
            ++ (if check_matches
                then [git_required_issue "--check-matches"] else [])
            ++ (if check_overlaps
                then [git_required_issue "--check-overlaps"] else [])
       /\ has_errors res
          = existsb is_error
              (duplicate_check strict rules
               ++ services_check strict rules
                    (match services with Some d => d | None => [] end))
            || check_matches || check_overlaps)
  /\ (forall git rules services strict check_matches check_overlaps repo_root,
        lint_rules git rules services strict check_matches check_overlaps
          repo_root = None
        <-> (check_matches = true \/ check_overlaps = true)
            /\ exists root, repo_root = Some root /\ git root = GitCrashed).
Proof.
  split.
  - intros git rules services strict cm co.
    unfold lint_rules, opt_in, has_errors.
    destruct cm, co; (eexists; split; [reflexivity|]); simpl;
      rewrite <- ?app_assoc, ?existsb_app; simpl;
      rewrite ?orb_false_r, ?orb_true_r, ?app_nil_r; split; reflexivity.
  - intros git rules services strict cm co repo_root. unfold lint_rules.
    destruct (opt_in git cm "--check-matches" repo_root _) as [i1|] eqn:E1.
    + destruct (opt_in git co "--check-overlaps" repo_root _) as [i2|] eqn:E2.
      * split; [discriminate|]. intros [[->| ->] Hroot].
        -- assert (E : opt_in git true "--check-matches" repo_root
                         (matches_check strict rules) = None)
             by now apply opt_in_None.
           congruence.
        -- assert (E : opt_in git true "--check-overlaps" repo_root
                         (overlaps_check rules) = None)
             by now apply opt_in_None.
           congruence.
      * apply opt_in_None in E2. destruct E2 as [-> Hroot].
        split; [intros _|reflexivity]. split; [now right | assumption].
    + apply opt_in_None in E1. destruct E1 as [-> Hroot].
      split; [intros _|reflexivity]. split; [now left | assumption].
Qed.

(** ** Dicts *)

Lemma dict_get_set_same {V} (d : dict V) (k : str) (v : V) :
  dict_get (dict_set d k v) k = Some v.
Proof.
  induction d as [|[k' v'] d IH]; simpl.
  - now rewrite str_eqb_refl.
  - destruct (str_eqb k' k) eqn:E; simpl; rewrite E; auto.
Qed.

Lemma dict_get_set_other {V} (d : dict V) (k k' : str) (v : V) :
  k <> k' -> dict_get (dict_set d k v) k' = dict_get d k'.
Proof.
  intros Hne. induction d as [|[k0 v0] d IH]; simpl.
  - apply str_eqb_neq in Hne. now rewrite Hne.
  - destruct (str_eqb k0 k) eqn:E; simpl.
    + apply str_eqb_eq in E. subst k0.
      apply str_eqb_neq in Hne. now rewrite Hne.
    + now rewrite IH.
Qed.

Lemma dict_get_map_values {V W} (f : V -> W) (d : dict V) (k : str) :
  dict_get (map (fun kv => (fst kv, f (snd kv))) d) k
  = option_map f (dict_get d k).
Proof.
  induction d as [|[k' v'] d IH]; simpl; [reflexivity|].
  now destruct (str_eqb k' k).
Qed.

Lemma last_opt_snoc {A} (xs : list A) (x : A) : last_opt (xs ++ [x]) = Some x.
Proof. unfold last_opt. now rewrite rev_app_distr. Qed.

Lemma last_opt_In {A} (xs : list A) (x : A) :
  In x xs -> exists y, last_opt xs = Some y /\ In y xs.
Proof.
  destruct xs as [|z xs] using rev_ind; [contradiction|].
  intros _. exists z. split; [apply last_opt_snoc|].
  apply in_app_iff. simpl. auto.
Qed.

(** ** lint.py: the duplicate-pattern check *)

Section Duplicates.

Variable strict : bool.

Lemma first_with_snoc (p : str) (pre : list Rule) (r : Rule) :
  first_with p (pre ++ [r])
  = match first_with p pre with
    | Some f => Some f
    | None => if str_eqb (pattern r) p then Some r else None
    end.
Proof.
  unfold first_with. induction pre as [|x pre IH]; simpl.
  - reflexivity.
  - now destruct (str_eqb (pattern x) p).
Qed.

Lemma first_with_pattern (p : str) (pre : list Rule) (f : Rule) :
  first_with p pre = Some f -> pattern f = p /\ In f pre.
Proof.
  unfold first_with. intros H. apply find_some in H.
  destruct H as [Hin E]. apply str_eqb_eq in E. now split.
Qed.

Lemma first_with_None (p : str) (pre : list Rule) (q : Rule -> bool) :
  first_with p pre = None ->
  filter (fun x => str_eqb (pattern x) p && q x) pre = [].
Proof.
  unfold first_with. induction pre as [|x pre IH]; simpl; [reflexivity|].
  destruct (str_eqb (pattern x) p); [discriminate|]. simpl. exact IH.
Qed.

Lemma held_for_is_Some (p : str) (pre : list Rule) (f : Rule) :
  first_with p pre = Some f ->
  exists prev, held_for p pre = Some prev /\ service prev = service f.
Proof.
  intros Hf. unfold held_for. rewrite Hf.
  set (keep := fun x => str_eqb (pattern x) p && str_eqb (service x) (service f)).
  destruct (first_with_pattern _ _ _ Hf) as [Hp Hin].
  assert (Hkf : In f (filter keep pre)).
  { apply filter_In. split; [assumption|]. unfold keep.
    now rewrite Hp, !str_eqb_refl. }
  destruct (last_opt_In _ _ Hkf) as [y [Hl Hy]].
  exists y. split; [assumption|].
  apply filter_In in Hy. destruct Hy as [_ Hy]. unfold keep in Hy.
  apply andb_true_iff in Hy. destruct Hy as [_ Hy]. now apply str_eqb_eq in Hy.
Qed.

Lemma seen_ok_keep (seen : dict Rule) (pre : list Rule) (r : Rule) :
  seen_ok seen pre -> conflicts pre r = true -> seen_ok seen (pre ++ [r]).
Proof.
  intros Hs Hc p. rewrite Hs. unfold held_for, conflicts in *.
  rewrite first_with_snoc.
  destruct (str_eqb (pattern r) p) eqn:Ep.
  - apply str_eqb_eq in Ep. subst p.
    destruct (first_with (pattern r) pre) as [f|]; [|discriminate].
    rewrite filter_app. simpl. rewrite str_eqb_refl. simpl.
    apply negb_true_iff in Hc.
    assert (E : str_eqb (service r) (service f) = false).
    { apply str_eqb_neq. apply str_eqb_neq in Hc. congruence. }
    rewrite E. now rewrite app_nil_r.
  - destruct (first_with p pre) as [f|]; [|reflexivity].
    rewrite filter_app. simpl. rewrite Ep. simpl. now rewrite app_nil_r.
Qed.

Lemma seen_ok_set (seen : dict Rule) (pre : list Rule) (r : Rule) :
  seen_ok seen pre -> conflicts pre r = false ->
  seen_ok (dict_set seen (pattern r) r) (pre ++ [r]).
Proof.
  intros Hs Hc p. unfold held_for, conflicts in *.
  rewrite first_with_snoc.
  destruct (str_eqb (pattern r) p) eqn:Ep.
  - apply str_eqb_eq in Ep. subst p. rewrite dict_get_set_same.
    destruct (first_with (pattern r) pre) as [f|] eqn:Ef.
    + apply negb_false_iff, str_eqb_eq in Hc.
      rewrite filter_app. simpl. rewrite str_eqb_refl, <- Hc, str_eqb_refl.
      simpl. now rewrite last_opt_snoc.
    + rewrite filter_app, (first_with_None _ _ _ Ef). simpl.
      now rewrite !str_eqb_refl.
  - apply str_eqb_neq in Ep. rewrite dict_get_set_other by assumption. rewrite Hs.
    unfold held_for. apply str_eqb_neq in Ep.
    destruct (first_with p pre) as [f|]; [|reflexivity].
    rewrite filter_app. simpl. rewrite Ep. simpl. now rewrite app_nil_r.
Qed.

Lemma duplicate_loop (rest : list Rule) :
  forall (iss : list Issue) (seen : dict Rule) (pre : list Rule),
    seen_ok seen pre ->
    fst (fold_left (duplicate_step strict) rest (iss, seen))
    = iss ++ conflict_issues strict pre rest.
Proof.
  induction rest as [|r rest IH]; intros iss seen pre Hs; simpl.
  - now rewrite app_nil_r.
  - rewrite (Hs (pattern r)). unfold conflicts.
    destruct (first_with (pattern r) pre) as [f|] eqn:Ef.
    + destruct (held_for_is_Some _ _ _ Ef) as [prev [Hh Hsvc]].
      rewrite Hh, Hsvc.
      destruct (str_eqb (service f) (service r)) eqn:Es; simpl.
      * apply IH. apply seen_ok_set; [assumption|].
        unfold conflicts. now rewrite Ef, Es.
      * rewrite (IH _ _ (pre ++ [r])).
        -- now rewrite <- app_assoc.
        -- apply seen_ok_keep; [assumption|].
           unfold conflicts. now rewrite Ef, Es.
    + assert (Hh : held_for (pattern r) pre = None)
        by (unfold held_for; now rewrite Ef).
      rewrite Hh. simpl. apply IH. apply seen_ok_set; [assumption|].
      unfold conflicts. now rewrite Ef.
Qed.

Lemma duplicate_check_spec (rules : list Rule) :
  duplicate_check strict rules = conflict_issues strict [] rules.
Proof.
  unfold duplicate_check.
  apply (duplicate_loop rules [] [] []). intros p. reflexivity.
Qed.

End Duplicates.

Lemma filter_none {A} (f : A -> bool) (l : list A) :
  Forall (fun x => f x = false) l -> filter f l = [].
Proof.
  induction 1 as [|x l Hx _ IH]; simpl; [reflexivity|]. now rewrite Hx.
Qed.

Lemma filter_all {A} (f : A -> bool) (l : list A) :
  Forall (fun x => f x = true) l -> filter f l = l.
Proof.
  induction 1 as [|x l Hx _ IH]; simpl; [reflexivity|]. now rewrite Hx, IH.
Qed.

Lemma conflict_issues_code (strict : bool) (rest pre : list Rule) :
  Forall (fun i => has_code DUPLICATE_PATTERN i = true
                   /\ issue_severity i = warn_or_error strict)
    (conflict_issues strict pre rest).
Proof.
  revert pre. induction rest as [|r rest IH]; intros pre; simpl.
  - constructor.
  - apply Forall_app. split; [|apply IH].
    destruct (conflicts pre r); [|constructor].
    destruct (held_for (pattern r) pre); repeat constructor.
Qed.

Lemma conflict_issues_where (strict : bool) (rest pre : list Rule) :
  map (fun i => (issue_file i, issue_line i)) (conflict_issues strict pre rest)
  = map (fun r => (Some (source r), Some (line r))) (conflicting pre rest).
Proof.
  revert pre. induction rest as [|r rest IH]; intros pre; simpl.
  - reflexivity.
  - rewrite !map_app, IH. f_equal. unfold conflicts.
    destruct (first_with (pattern r) pre) as [f|] eqn:Ef; [|reflexivity].
    destruct (held_for_is_Some _ _ _ Ef) as [prev [-> _]].
    now destruct (negb _).
Qed.

Lemma services_check_codes strict rules services :
  Forall (fun i => has_code DUPLICATE_PATTERN i = false)
    (services_check strict rules services).
Proof.
  unfold services_check. destruct services as [|kv services]; [constructor|].
  apply Forall_app. split; apply Forall_forall; intros i Hi;
    apply in_map_iff in Hi; destruct Hi as [x [<- _]]; reflexivity.
Qed.

Lemma opt_in_codes git requested flag repo_root check iss :
  (forall tracked,
      Forall (fun i => has_code DUPLICATE_PATTERN i = false) (check tracked)) ->
  opt_in git requested flag repo_root check = Some iss ->
  Forall (fun i => has_code DUPLICATE_PATTERN i = false) iss.
Proof.
  intros Hc. unfold opt_in, tracked_files.
  destruct requested; [|intros [= <-]; constructor].
  destruct repo_root as [root|]; [|intros [= <-]; repeat constructor].
  destruct (git root); intros [= <-]; simpl; try apply Hc.
  constructor; [reflexivity | apply Hc].
Qed.

Lemma matches_check_codes strict rules tracked :
  Forall (fun i => has_code DUPLICATE_PATTERN i = false)
    (matches_check strict rules tracked).
Proof.
  apply Forall_forall. intros i Hi. apply in_map_iff in Hi.
  now destruct Hi as [x [<- _]].
Qed.

Lemma overlaps_check_codes rules tracked :
  Forall (fun i => has_code DUPLICATE_PATTERN i = false)
    (overlaps_check rules tracked).
Proof.
  unfold overlaps_check. destruct (overlap_scan rules 25 [] tracked);
    repeat constructor.
Qed.

(** C4, the claim at a concrete input: one raw pattern given to three
    services yields two DUPLICATE_PATTERN issues, not one. *)
Lemma C4_three_services_two_issues :
  let rules :=
    rules_of_text (lines_text ["src/** api"; "src/** web"; "src/** db"]%string) in
  map pattern rules = [L "src/**"; L "src/**"; L "src/**"]
  /\ map service rules = [L "api"; L "web"; L "db"]
  /\ option_map
       (fun res => length (filter (has_code DUPLICATE_PATTERN) (issues res)))
       (lint_rules no_git rules None false false false None)
     = Some 2.
Proof. vm_compute. repeat split; reflexivity. Qed.

(** C4, as the code has it. The DUPLICATE_PATTERN issues of [lint_rules]
    are, in rule order, one for each rule whose raw pattern occurred
    earlier in the rule set and whose service differs from the service of
    the first rule with that pattern; the issue is located at that rule
    and names the rule held for the pattern.  A rule with the service of
    the first occurrence is never flagged.  The severity is WARN, or
    ERROR when [strict] is set.  The rules [src/** -> api] and
    [src/** -> web] yield exactly one such issue. *)
Theorem C4_duplicate_pattern_check :
  (forall git rules services strict check_matches check_overlaps repo_root res,
     lint_rules git rules services strict check_matches check_overlaps
       repo_root = Some res ->
     let dups := filter (has_code DUPLICATE_PATTERN) (issues res) in
     dups = conflict_issues strict [] rules
     /\ map (fun i => (issue_file i, issue_line i)) dups
        = map (fun r => (Some (source r), Some (line r)))
            (conflicting [] rules)
     /\ Forall (fun i => issue_severity i = if strict then ERROR else WARN)
          dups)
  /\ (map pattern two_services_rules = [L "src/**"; L "src/**"]
      /\ map service two_services_rules = [L "api"; L "web"]
      /\ option_map
           (fun res =>
              length (filter (has_code DUPLICATE_PATTERN) (issues res)))
           (lint_rules no_git two_services_rules None false false false None)
         = Some 1).
Proof.
  split; [|vm_compute; repeat split; reflexivity].
  intros git rules services strict cm co repo_root res Hres dups.
  assert (E : dups = conflict_issues strict [] rules).
  { subst dups. unfold lint_rules in Hres.
    destruct (opt_in git cm _ repo_root _) as [i1|] eqn:E1; [|discriminate].
    destruct (opt_in git co _ repo_root _) as [i2|] eqn:E2; [|discriminate].
    injection Hres as <-. simpl. rewrite !filter_app.
    rewrite (filter_none _ _ (services_check_codes strict rules _)).
    rewrite (filter_none _ _
               (opt_in_codes _ _ _ _ _ _ (matches_check_codes strict rules) E1)).
    rewrite (filter_none _ _
               (opt_in_codes _ _ _ _ _ _ (overlaps_check_codes rules) E2)).
    rewrite !app_nil_r, duplicate_check_spec.
    apply filter_all.
    eapply Forall_impl; [|apply conflict_issues_code]. now intros i [H _]. }
  rewrite E. split; [reflexivity|]. split.
  - apply conflict_issues_where.
  - eapply Forall_impl; [|apply conflict_issues_code]. now intros i [_ H].
Qed.

(** The theorem for the rules [src/** -> api], [src/** -> web]. *)
Lemma C4_duplicate_pattern_check_witness :
  let dups :=
    filter (has_code DUPLICATE_PATTERN)
      (duplicate_check false two_services_rules) in
  dups = conflict_issues false [] two_services_rules
  /\ map (fun i => (issue_file i, issue_line i)) dups
     = map (fun r => (Some (source r), Some (line r)))
         (conflicting [] two_services_rules)
  /\ Forall (fun i => issue_severity i = WARN) dups.
Proof.
  apply (proj1 C4_duplicate_pattern_check no_git two_services_rules None
           false false false None
           {| issues := duplicate_check false two_services_rules |}).
  vm_compute. reflexivity.
Defined.

(** ** Order on strings and [sorted] *)

Lemma str_leb_refl (a : str) : str_leb a a = true.
Proof.
  induction a as [|x a IH]; simpl; [reflexivity|].
  now rewrite Nat.ltb_irrefl.
Qed.

Lemma str_leb_total (a b : str) : str_leb a b = false -> str_leb b a = true.
Proof.
  revert b. induction a as [|x a IH]; intros [|y b]; simpl; try discriminate;
    try reflexivity.
  destruct (Nat.ltb_spec (ord x) (ord y)); [discriminate|].
  destruct (Nat.ltb_spec (ord y) (ord x)); [reflexivity|]. apply IH.
Qed.

Lemma str_leb_antisym (a b : str) :
  str_leb a b = true -> str_leb b a = true -> a = b.
Proof.
  revert b. induction a as [|x a IH]; intros [|y b]; simpl; try discriminate;
    try reflexivity.
  destruct (Nat.ltb_spec (ord x) (ord y)), (Nat.ltb_spec (ord y) (ord x));
    try discriminate; try lia.
  intros H1 H2. f_equal; [apply ord_inj; lia | now apply IH].
Qed.

Lemma str_leb_trans (a b c : str) :
  str_leb a b = true -> str_leb b c = true -> str_leb a c = true.
Proof.
  revert b c. induction a as [|x a IH]; intros [|y b] [|z c]; simpl;
    try discriminate; try reflexivity.
  destruct (Nat.ltb_spec (ord x) (ord y)), (Nat.ltb_spec (ord y) (ord x)),
    (Nat.ltb_spec (ord y) (ord z)), (Nat.ltb_spec (ord z) (ord y)),
    (Nat.ltb_spec (ord x) (ord z)), (Nat.ltb_spec (ord z) (ord x));
    try discriminate; try reflexivity; try lia.
  apply IH.
Qed.

Lemma insert_sorted_In (x y : str) (l : list str) :
  In x (insert_sorted y l) <-> x = y \/ In x l.
Proof.
  induction l as [|z l IH]; simpl.
  - intuition congruence.
  - destruct (str_leb y z); simpl; rewrite ?IH; intuition congruence.
Qed.

Lemma sorted_In (x : str) (l : list str) : In x (sorted l) <-> In x l.
Proof.
  induction l as [|y l IH]; simpl; [reflexivity|].
  rewrite insert_sorted_In, IH. intuition congruence.
Qed.

Lemma insert_sorted_NoDup (y : str) (l : list str) :
  ~ In y l -> NoDup l -> NoDup (insert_sorted y l).
Proof.
  induction l as [|z l IH]; simpl; intros Hy Hl.
  - constructor; [auto | constructor].
  - destruct (str_leb y z).
    + constructor; [simpl; tauto | assumption].
    + inversion_clear Hl as [|? ? Hz Hl']. constructor.
      * rewrite insert_sorted_In. intros [->|H]; tauto.
      * apply IH; tauto.
Qed.

Lemma sorted_NoDup (l : list str) : NoDup l -> NoDup (sorted l).
Proof.
  induction 1 as [|x l Hx _ IH]; simpl; [constructor|].
  apply insert_sorted_NoDup; [now rewrite sorted_In | assumption].
Qed.

Lemma insert_sorted_HdRel (a y : str) (l : list str) :
  str_le a y -> HdRel str_le a l -> HdRel str_le a (insert_sorted y l).
Proof.
  intros Hay Hl. destruct l as [|z l]; simpl; [now constructor|].
  destruct (str_leb y z); constructor; [assumption|].
  now inversion Hl.
Qed.

Lemma insert_sorted_Sorted (y : str) (l : list str) :
  Sorted str_le l -> Sorted str_le (insert_sorted y l).
Proof.
  induction 1 as [|z l Hl IH Hz]; simpl.
  - repeat constructor.
  - destruct (str_leb y z) eqn:E.
    + constructor; [now constructor | now constructor].
    + constructor; [assumption|].
      apply insert_sorted_HdRel; [now apply str_leb_total | assumption].
Qed.

Lemma sorted_Sorted (l : list str) : Sorted str_le (sorted l).
Proof.
  induction l as [|x l IH]; simpl; [constructor|].
  now apply insert_sorted_Sorted.
Qed.

Lemma sorted_StronglySorted (l : list str) : StronglySorted str_le (sorted l).
Proof.
  apply Sorted_StronglySorted; [|apply sorted_Sorted].
  intros a b c. apply str_leb_trans.
Qed.

(** A strictly increasing list is determined by its elements. *)
Lemma sorted_unique (l1 : list str) :
  forall l2,
    StronglySorted str_le l1 -> StronglySorted str_le l2 ->
    NoDup l1 -> NoDup l2 ->
    (forall x, In x l1 <-> In x l2) -> l1 = l2.
Proof.
  induction l1 as [|x l1 IH]; intros [|y l2] S1 S2 N1 N2 Hin.
  - reflexivity.
  - destruct (proj2 (Hin y)); simpl; auto.
  - destruct (proj1 (Hin x)); simpl; auto.
  - inversion_clear S1 as [|? ? S1' F1]. inversion_clear S2 as [|? ? S2' F2].
    inversion_clear N1 as [|? ? X1 N1']. inversion_clear N2 as [|? ? X2 N2'].
    rewrite Forall_forall in F1, F2.
    assert (x = y) as <-.
    { assert (Hxy : str_le x y).
      { destruct (proj2 (Hin y) (or_introl eq_refl)) as [->|H];
          [apply str_leb_refl | now apply F1]. }
      assert (Hyx : str_le y x).
      { destruct (proj1 (Hin x) (or_introl eq_refl)) as [->|H];
          [apply str_leb_refl | now apply F2]. }
      now apply str_leb_antisym. }
    f_equal. apply IH; try assumption.
    intros z. split; intros Hz.
    + destruct (proj1 (Hin z) (or_intror Hz)) as [<-|H]; [contradiction|exact H].
    + destruct (proj2 (Hin z) (or_intror Hz)) as [<-|H]; [contradiction|exact H].
Qed.

Lemma py_set_In (x : str) (l : list str) : In x (py_set l) <-> In x l.
Proof. apply nodup_In. Qed.

Lemma sorted_set_ext (l1 l2 : list str) :
  (forall x, In x l1 <-> In x l2) -> sorted (py_set l1) = sorted (py_set l2).
Proof.
  intros Hin. apply sorted_unique.
  - apply sorted_StronglySorted.
  - apply sorted_StronglySorted.
  - apply sorted_NoDup, NoDup_nodup.
  - apply sorted_NoDup, NoDup_nodup.
  - intros x. now rewrite !sorted_In, !py_set_In.
Qed.

Lemma strictly_sorted_intro (l : list str) :
  StronglySorted str_le l -> NoDup l -> strictly_sorted l = true.
Proof.
  induction 1 as [|x l Hl IH Hx]; intros Hn; [reflexivity|].
  inversion_clear Hn as [|? ? Hnx Hn']. simpl.
  destruct l as [|y l]; [reflexivity|].
  rewrite (IH Hn'), andb_true_r. unfold str_ltb.
  inversion_clear Hx as [|? ? Hxy _]. rewrite Hxy. simpl.
  apply negb_true_iff, str_eqb_neq. intros ->. apply Hnx. now left.
Qed.

Lemma sorted_set_strictly (l : list str) :
  strictly_sorted (sorted (py_set l)) = true.
Proof.
  apply strictly_sorted_intro.
  - apply sorted_StronglySorted.
  - apply sorted_NoDup, NoDup_nodup.
Qed.

(** ** impact.py *)

Section Impact.

Variable rules : list Rule.

Lemma as_bucket_snoc (fs : list str) (x : str) :
  as_bucket (fs ++ [x])
  = Some (match as_bucket fs with Some fs' => fs' | None => [] end ++ [x]).
Proof. destruct fs; reflexivity. Qed.

(** The buckets after the loop: the paths of each owner, in input order. *)
Lemma impact_loop (paths : list str) :
  let acc := fold_left (impact_step rules) paths empty_report in
  (forall svc,
      dict_get (services_to_files acc) svc
      = as_bucket (filter (owned_by rules (Some svc)) paths))
  /\ unmapped_files acc = filter (owned_by rules None) paths.
Proof.
  induction paths as [|p paths [IHs IHu]] using rev_ind; simpl.
  - split; reflexivity.
  - rewrite fold_left_app. simpl.
    set (acc := fold_left (impact_step rules) paths empty_report) in *.
    unfold impact_step. fold (owner_of rules p).
    destruct (owner_of rules p) as [s|] eqn:Eo; simpl; split.
    + intros svc. rewrite filter_app. simpl. unfold owned_by at 2. rewrite Eo.
      destruct (str_eqb s svc) eqn:Es.
      * apply str_eqb_eq in Es. subst svc.
        now rewrite dict_get_set_same, as_bucket_snoc, IHs.
      * apply str_eqb_neq in Es.
        rewrite dict_get_set_other by assumption.
        now rewrite app_nil_r.
    + rewrite filter_app. simpl. unfold owned_by at 2. rewrite Eo.
      now rewrite app_nil_r.
    + intros svc. rewrite filter_app. simpl. unfold owned_by at 2. rewrite Eo.
      now rewrite app_nil_r.
    + rewrite filter_app. simpl. unfold owned_by at 2. rewrite Eo.
      now rewrite IHu.
Qed.

(** The report: each service with a path has its paths, sorted and
    without duplicates. *)
Lemma compute_impact_buckets (paths : list str) :
  (forall svc,
      dict_get (services_to_files (compute_impact rules paths)) svc
      = option_map (fun fs => sorted (py_set fs))
          (as_bucket (filter (owned_by rules (Some svc)) paths)))
  /\ unmapped_files (compute_impact rules paths)
     = sorted (py_set (filter (owned_by rules None) paths)).
Proof.
  destruct (impact_loop paths) as [Hs Hu]. unfold compute_impact.
  cbn [services_to_files unmapped_files]. split.
  - intros svc.
    now rewrite (dict_get_map_values (fun fs => sorted (py_set fs))), Hs.
  - now rewrite Hu.
Qed.

Lemma filter_same_elements (f : str -> bool) (l1 l2 : list str) :
  (forall x, In x l1 <-> In x l2) ->
  forall x, In x (filter f l1) <-> In x (filter f l2).
Proof. intros H x. rewrite !filter_In, H. reflexivity. Qed.

Lemma as_bucket_sorted_ext (l1 l2 : list str) :
  (forall x, In x l1 <-> In x l2) ->
  option_map (fun fs => sorted (py_set fs)) (as_bucket l1)
  = option_map (fun fs => sorted (py_set fs)) (as_bucket l2).
Proof.
  intros H. destruct l1 as [|a l1], l2 as [|b l2]; cbn [as_bucket option_map].
  - reflexivity.
  - destruct (proj2 (H b)); simpl; auto.
  - destruct (proj1 (H a)); simpl; auto.
  - f_equal. now apply sorted_set_ext.
Qed.

Lemma compute_impact_sorted (paths : list str) :
  forallb (fun kv => strictly_sorted (snd kv))
    (services_to_files (compute_impact rules paths)) = true.
Proof.
  unfold compute_impact. simpl. apply forallb_forall. intros kv Hkv.
  apply in_map_iff in Hkv. destruct Hkv as [kv' [<- _]]. simpl.
  apply sorted_set_strictly.
Qed.

End Impact.

(** C5. [compute_impact] does not depend on the order of its input: for
    two path lists that are permutations of each other, repeated paths
    included, the reports have the same file list for every service (and
    the same services) and the same unmapped files; every bucket and the
    unmapped list are sorted lexicographically and free of duplicates. *)
Theorem C5_impact_order_independent :
  forall (rules : list Rule) (paths1 paths2 : list str),
    Permutation paths1 paths2 ->
    let r1 := compute_impact rules paths1 in
    let r2 := compute_impact rules paths2 in
    (forall svc,
        dict_get (services_to_files r1) svc = dict_get (services_to_files r2) svc)
    /\ unmapped_files r1 = unmapped_files r2
    /\ forallb (fun kv => strictly_sorted (snd kv)) (services_to_files r1) = true
    /\ strictly_sorted (unmapped_files r1) = true.
Proof.
  intros rules paths1 paths2 Hp r1 r2.
  assert (Hin : forall x, In x paths1 <-> In x paths2).
  { intros x. split; apply Permutation_in; [assumption | now symmetry]. }
  destruct (compute_impact_buckets rules paths1) as [Hs1 Hu1].
  destruct (compute_impact_buckets rules paths2) as [Hs2 Hu2].
  subst r1 r2. repeat split.
  - intros svc. rewrite Hs1, Hs2.
    apply as_bucket_sorted_ext. now apply filter_same_elements.
  - rewrite Hu1, Hu2. apply sorted_set_ext. now apply filter_same_elements.
  - apply compute_impact_sorted.
  - rewrite Hu1. apply sorted_set_strictly.
Qed.

(** The theorem for two orders of four paths, one of them repeated. *)
Lemma C5_impact_order_independent_witness :
  let r1 :=
    compute_impact two_services_rules
      [L "src/b.py"; L "README.md"; L "src/a.py"; L "src/b.py"] in
  let r2 :=
    compute_impact two_services_rules
      [L "src/a.py"; L "src/b.py"; L "src/b.py"; L "README.md"] in
  (forall svc,
      dict_get (services_to_files r1) svc = dict_get (services_to_files r2) svc)
  /\ unmapped_files r1 = unmapped_files r2
  /\ forallb (fun kv => strictly_sorted (snd kv)) (services_to_files r1) = true
  /\ strictly_sorted (unmapped_files r1) = true.
Proof.
  apply (C5_impact_order_independent two_services_rules
           [L "src/b.py"; L "README.md"; L "src/a.py"; L "src/b.py"]
           [L "src/a.py"; L "src/b.py"; L "src/b.py"; L "README.md"]).
  apply perm_trans with
    [L "src/b.py"; L "src/a.py"; L "README.md"; L "src/b.py"].
  - apply perm_skip, perm_swap.
  - apply perm_trans with
      [L "src/a.py"; L "src/b.py"; L "README.md"; L "src/b.py"].
    + apply perm_swap.
    + apply perm_skip, perm_skip, perm_swap.
Defined.

(** ** patterns.py: from glob to regular expression *)

Lemma glob_loop_tokens (fuel : nat) (pat : str) :
  glob_loop fuel pat = map render (glob_tokens_loop fuel pat).
Proof.
  revert pat. induction fuel as [|fuel IH]; intros pat; simpl; [reflexivity|].
  destruct pat as [|c rest]; [reflexivity|].
  destruct (chr_eqb c "*").
  { destruct rest as [|d rest']; simpl; [now rewrite IH|].
    destruct (chr_eqb d "*"); simpl; now rewrite IH. }
  destruct (chr_eqb c "?"); [simpl; now rewrite IH|].
  destruct (chr_eqb c "[").
  - destruct (class_head rest) as [k r'].
    destruct (split_at_chr "]" r') as [[a b]|]; simpl; now rewrite IH.
  - simpl. now rewrite IH.
Qed.

Lemma glob_to_regex_tokens (pat : str) :
  _glob_to_regex pat = concat (map render (glob_tokens pat)).
Proof. unfold _glob_to_regex, glob_out. now rewrite glob_loop_tokens. Qed.

Lemma run_app (st : Re.pstate) (a b : str) :
  Re.run st (a ++ b) = Re.run (Re.run st a) b.
Proof. apply fold_left_app. Qed.

Lemma special_not_alnum (c : ascii) :
  is_re_special c = true -> Re.is_alnum c = false.
Proof.
  destruct c as [[] [] [] [] [] [] [] []]; intros H;
    try reflexivity; discriminate H.
Qed.

Lemma step_top_plain (stack : list Re.frame) (f : Re.frame) (c : ascii) :
  is_re_special c = false ->
  Re.step_top stack f c = Re.PTop stack (Re.push (Re.RAtom (Re.ALit c)) f).
Proof.
  destruct c as [[] [] [] [] [] [] [] []]; intros H;
    try reflexivity; discriminate H.
Qed.

Lemma run_escape_top (stack : list Re.frame) (f : Re.frame) (c : ascii) :
  Re.run (Re.PTop stack f) (re_escape c)
  = Re.PTop stack (Re.push (Re.RAtom (Re.ALit c)) f).
Proof.
  unfold re_escape. destruct (is_re_special c) eqn:E; simpl.
  - now rewrite (special_not_alnum _ E).
  - now apply step_top_plain.
Qed.

(** Outside a set, a token other than a bracket expression adds one item. *)
Lemma run_token_top (stack : list Re.frame) (f : Re.frame) (t : gtoken) :
  is_class t = false ->
  Re.run (Re.PTop stack f) (render t) = Re.PTop stack (Re.push (item_of t) f).
Proof.
  destruct t; intros H; try discriminate H; try reflexivity.
  apply run_escape_top.
Qed.

Lemma run_tokens_top (ts : list gtoken) :
  forall (stack : list Re.frame) (f : Re.frame),
    existsb is_class ts = false ->
    Re.run (Re.PTop stack f) (concat (map render ts))
    = Re.PTop stack (push_all ts f).
Proof.
  induction ts as [|t ts IH]; intros stack f H; simpl in *.
  - now destruct f.
  - apply orb_false_elim in H. destruct H as [Ht Hts].
    rewrite run_app, run_token_top, IH by assumption.
    unfold push_all, Re.push. simpl. now rewrite <- app_assoc.
Qed.

Lemma run_anchor (norm : str) :
  Re.run Re.start (if contains "/" norm then L "^" else L "(^|.*/)")
  = Re.PTop [] {| Re.alts := None; Re.cur := [anchor_of norm] |}.
Proof. unfold anchor_of. now destruct (contains "/" norm). Qed.

Lemma anchored_split (norm : str) :
  anchored norm
  = (if contains "/" norm then L "^" else L "(^|.*/)")
    ++ _glob_to_regex norm ++ L "$".
Proof. unfold anchored. now destruct (contains "/" norm). Qed.

(** A glob without bracket expression always compiles, item by item. *)
Lemma compile_classfree (norm : str) :
  has_class norm = false ->
  Re.compile (anchored norm)
  = Re.ReOk (Re.seq_of (anchor_of norm
                        :: map item_of (glob_tokens norm) ++ [Re.REol])).
Proof.
  intros H. unfold Re.compile.
  rewrite anchored_split, run_app, run_anchor, run_app, glob_to_regex_tokens.
  rewrite run_tokens_top by assumption.
  simpl. unfold Re.close. simpl.
  now rewrite rev_app_distr, rev_involutive.
Qed.

(** ** The translated glob stays inside the modelled syntax *)

Lemma in_set_star_ready (st : Re.pstate) : in_set st = true -> star_ready st = true.
Proof. now destruct st. Qed.

Lemma star_ready_settled (st : Re.pstate) :
  star_ready st = true -> settled st = true.
Proof. now destruct st. Qed.

Lemma in_set_settled (st : Re.pstate) : in_set st = true -> settled st = true.
Proof. now destruct st. Qed.

Lemma mk_range_in_set stack f neg items lo hi :
  in_set (Re.mk_range stack f neg items lo hi) = true.
Proof. unfold Re.mk_range. now destruct (ord hi <? ord lo). Qed.

Lemma step_item_inner stack f neg items c :
  inner_chr c = true -> in_set (Re.step_item stack f neg items c) = true.
Proof.
  unfold inner_chr, Re.step_item. intros H.
  apply andb_true_iff in H. destruct H as [H1 H2].
  apply negb_true_iff in H1, H2. now rewrite H1, H2.
Qed.

Lemma step_inner (st : Re.pstate) (c : ascii) :
  in_set st = true -> inner_chr c = true -> in_set (Re.step st c) = true.
Proof.
  intros Hs Hc. pose proof Hc as Hc'. unfold inner_chr in Hc'.
  apply andb_true_iff in Hc'. destruct Hc' as [H1 H2].
  apply negb_true_iff in H1, H2.
  destruct st; try discriminate Hs; simpl.
  - destruct (chr_eqb c "^"); [reflexivity | now apply step_item_inner].
  - now apply step_item_inner.
  - destruct (chr_eqb c "-"); [reflexivity | now apply step_item_inner].
  - rewrite H1, H2. apply mk_range_in_set.
  - reflexivity.
Qed.

Lemma step_open (st : Re.pstate) :
  settled st = true -> in_set (Re.step st "[") = true.
Proof.
  intros Hs. destruct st; try discriminate Hs;
    try (apply step_inner; reflexivity). reflexivity.
Qed.

Lemma step_close (st : Re.pstate) :
  in_set st = true -> star_ready (Re.step st "]") = true.
Proof.
  intros Hs. destruct st; try discriminate Hs; simpl; try reflexivity.
  - unfold Re.step_item. simpl. now destruct items.
  - unfold Re.step_item. simpl. now destruct items.
Qed.

Lemma step_star (st : Re.pstate) :
  star_ready st = true -> settled (Re.step st "*") = true.
Proof.
  intros Hs. destruct st; try discriminate Hs;
    try (apply in_set_settled, step_inner; reflexivity).
  simpl in *. unfold Re.step_top, Re.repeat_last. simpl.
  destruct (Re.cur f) as [|[] rest]; try discriminate Hs. reflexivity.
Qed.

Lemma run_escape (st : Re.pstate) (c : ascii) :
  settled st = true -> Re.is_alnum c = false ->
  star_ready (Re.run st ["\"%char; c]) = true.
Proof.
  intros Hs Hc. destruct st; try discriminate Hs; simpl; rewrite ?Hc;
    try reflexivity.
  apply in_set_star_ready, mk_range_in_set.
Qed.

Lemma special_or_inner (c : ascii) :
  is_re_special c = false -> inner_chr c = true.
Proof.
  destruct c as [[] [] [] [] [] [] [] []]; intros H;
    try reflexivity; discriminate H.
Qed.

Lemma step_plain (st : Re.pstate) (c : ascii) :
  settled st = true -> is_re_special c = false ->
  star_ready (Re.step st c) = true.
Proof.
  intros Hs Hc.
  destruct (in_set st) eqn:Ei.
  - now apply in_set_star_ready, step_inner, special_or_inner.
  - destruct st; try discriminate Hs; try discriminate Ei.
    simpl. now rewrite step_top_plain.
Qed.

Lemma run_re_escape (st : Re.pstate) (c : ascii) :
  settled st = true -> star_ready (Re.run st (re_escape c)) = true.
Proof.
  intros Hs. unfold re_escape. destruct (is_re_special c) eqn:E.
  - apply run_escape; [assumption | now apply special_not_alnum].
  - now apply step_plain.
Qed.

Lemma step_dot (st : Re.pstate) :
  settled st = true -> star_ready (Re.step st ".") = true.
Proof.
  intros Hs. destruct (in_set st) eqn:Ei.
  - now apply in_set_star_ready, step_inner.
  - now destruct st.
Qed.

Lemma step_dollar (st : Re.pstate) :
  settled st = true -> settled (Re.step st "$") = true.
Proof.
  intros Hs. destruct (in_set st) eqn:Ei.
  - now apply in_set_settled, step_inner.
  - now destruct st.
Qed.

Lemma run_inner (s : str) :
  forall st, in_set st = true -> forallb inner_chr s = true ->
             in_set (Re.run st s) = true.
Proof.
  induction s as [|c s IH]; intros st Hs Hc; simpl in *; [assumption|].
  apply andb_true_iff in Hc. destruct Hc as [Hc Hcs].
  apply IH; [now apply step_inner | assumption].
Qed.

Lemma replace_backslash_inner (s : str) :
  forallb inner_chr s = true -> replace_chr "\" (L "\\") s = s.
Proof.
  induction s as [|c s IH]; simpl; [reflexivity|]. intros H.
  apply andb_true_iff in H. destruct H as [Hc Hs].
  unfold inner_chr in Hc. apply andb_true_iff in Hc. destruct Hc as [Hc _].
  apply negb_true_iff in Hc. rewrite Hc. simpl. f_equal. now apply IH.
Qed.

Lemma class_inner_inner (s : str) :
  forallb inner_chr s = true -> forallb inner_chr (class_inner s) = true.
Proof.
  intros H. unfold class_inner. destruct s as [|c s]; [reflexivity|].
  simpl in H. apply andb_true_iff in H. destruct H as [Hc Hs].
  destruct (chr_eqb c "!").
  - rewrite replace_backslash_inner; simpl; now rewrite ?Hs.
  - rewrite replace_backslash_inner; simpl; now rewrite ?Hc, ?Hs.
Qed.

(** Every piece takes the parser from a settled state to a settled
    state. *)
Lemma run_token (st : Re.pstate) (t : gtoken) :
  settled st = true -> token_ok t = true ->
  settled (Re.run st (render t)) = true.
Proof.
  intros Hs Ht. destruct t; simpl render.
  - (* .* *)
    change (settled (Re.step (Re.step st ".") "*") = true).
    now apply step_star, step_dot.
  - (* [^/]* *)
    change (settled (Re.step (Re.step (Re.run (Re.step st "[") (L "^/")) "]")
                       "*") = true).
    apply step_star, step_close, run_inner; [now apply step_open | reflexivity].
  - (* [^/] *)
    change (settled (Re.step (Re.run (Re.step st "[") (L "^/")) "]") = true).
    apply star_ready_settled, step_close, run_inner;
      [now apply step_open | reflexivity].
  - (* [inner] *)
    change (settled (Re.run (Re.step st "[")
                       (class_inner inner ++ ["]"%char])) = true).
    rewrite run_app. apply star_ready_settled.
    change (star_ready
              (Re.step (Re.run (Re.step st "[") (class_inner inner)) "]")
            = true).
    apply step_close, run_inner; [now apply step_open|].
    now apply class_inner_inner.
  - now apply star_ready_settled, run_re_escape.
Qed.

Lemma run_tokens (ts : list gtoken) :
  forall st, settled st = true -> forallb token_ok ts = true ->
             settled (Re.run st (concat (map render ts))) = true.
Proof.
  induction ts as [|t ts IH]; intros st Hs Ht; simpl in *; [assumption|].
  apply andb_true_iff in Ht. destruct Ht as [Ht Hts].
  rewrite run_app. apply IH; [now apply run_token | assumption].
Qed.

Lemma list_ind2 {A} (P : list A -> Prop) :
  P [] -> (forall x, P [x]) -> (forall x y l, P l -> P (x :: y :: l)) ->
  forall l, P l.
Proof.
  intros H0 H1 H2.
  assert (H : forall l, P l /\ forall x, P (x :: l)).
  { induction l as [|y l [IH1 IH2]]; split; auto. }
  intros l. apply H.
Qed.

Lemma lstrip_by_suffix (p : ascii -> bool) (s : str) :
  exists pre, s = pre ++ lstrip_by p s.
Proof.
  induction s as [|c s [pre IH]]; simpl.
  - now exists [].
  - destruct (p c).
    + exists (c :: pre). simpl. now f_equal.
    + now exists [].
Qed.

Lemma rstrip_by_prefix (p : ascii -> bool) (s : str) :
  exists suf, s = rstrip_by p s ++ suf.
Proof.
  induction s as [|c s [suf IH]]; simpl.
  - now exists [].
  - destruct (rstrip_by p s) as [|d t] eqn:E.
    + destruct (p c).
      * now exists (c :: s).
      * exists s. reflexivity.
    + exists suf. simpl. now rewrite IH at 1.
Qed.

Lemma strip_dot_slash_suffix (s : str) :
  exists pre, s = pre ++ strip_dot_slash s.
Proof.
  induction s as [| x | x y l [pre IH]] using list_ind2; simpl.
  - now exists [].
  - now exists [].
  - destruct (chr_eqb x "." && chr_eqb y "/").
    + exists (x :: y :: pre). simpl. now do 2 f_equal.
    + now exists [].
Qed.

Lemma strip_leading_slash_suffix (s : str) :
  exists pre, s = pre ++ strip_leading_slash s.
Proof.
  destruct s as [|c s]; simpl; [now exists []|].
  destruct (chr_eqb c "/"); [now exists [c] | now exists []].
Qed.

Lemma replace_no_backslash (s : str) :
  no_backslash (replace_chr "\" (L "/") s) = true.
Proof.
  induction s as [|c s IH]; simpl; [reflexivity|].
  destruct (chr_eqb c "\") eqn:E; simpl; [assumption|].
  unfold no_backslash in *. simpl. now rewrite E.
Qed.

Lemma no_backslash_app (a b : str) :
  no_backslash (a ++ b) = no_backslash a && no_backslash b.
Proof. apply forallb_app. Qed.

Lemma normalize_no_backslash (p n : str) :
  _normalize_pattern p = Returns n -> no_backslash n = true.
Proof.
  unfold _normalize_pattern.
  destruct (strip p) as [|c0 s0]; [discriminate|].
  set (r := replace_chr "\" (L "/") (c0 :: s0)).
  pose proof (replace_no_backslash (c0 :: s0)) as Hr. fold r in Hr.
  destruct (strip_dot_slash_suffix r) as [pre1 E1].
  destruct (strip_leading_slash_suffix (strip_dot_slash r)) as [pre2 E2].
  set (t := strip_leading_slash (strip_dot_slash r)) in *.
  assert (Ht : no_backslash t = true).
  { rewrite E1, E2, !no_backslash_app in Hr.
    apply andb_true_iff in Hr. destruct Hr as [_ Hr].
    apply andb_true_iff in Hr. now destruct Hr. }
  destruct t as [|c1 t1] eqn:Et; [discriminate|].
  destruct (endswith_chr "/" (c1 :: t1)); intros [= <-]; [|assumption].
  destruct (rstrip_by_prefix is_slash (c1 :: t1)) as [suf E3].
  unfold rstrip_slash. rewrite E3, no_backslash_app in Ht.
  apply andb_true_iff in Ht. destruct Ht as [Ht _].
  now rewrite no_backslash_app, Ht.
Qed.

Lemma split_at_chr_spec (c : ascii) (s a b : str) :
  split_at_chr c s = Some (a, b) ->
  s = a ++ c :: b /\ forallb (fun d => negb (chr_eqb d c)) a = true.
Proof.
  revert a b. induction s as [|d s IH]; intros a b; simpl; [discriminate|].
  destruct (chr_eqb d c) eqn:E.
  - intros [= <- <-]. apply chr_eqb_eq in E. now subst.
  - destruct (split_at_chr c s) as [[a' b']|]; [|discriminate].
    intros [= <- <-]. destruct (IH a' b' eq_refl) as [-> H].
    simpl. now rewrite E, H.
Qed.

Lemma skip_stars_no_backslash (s : str) :
  no_backslash s = true -> no_backslash (skip_stars s) = true.
Proof.
  induction s as [|c s IH]; simpl; [reflexivity|]. intros H.
  destruct (chr_eqb c "*"); [|assumption].
  apply andb_true_iff in H. now apply IH.
Qed.

Lemma class_head_spec (rest k r' : str) :
  class_head rest = (k, r') ->
  rest = k ++ r' /\ forallb (fun d => negb (chr_eqb d "]")) k = true.
Proof.
  unfold class_head. destruct rest as [|c t].
  - now intros [= <- <-].
  - destruct (chr_eqb c "!") eqn:E1; simpl.
    + intros [= <- <-]. apply chr_eqb_eq in E1. now subst.
    + destruct (chr_eqb c "^") eqn:E2; intros [= <- <-]; [|now split].
      apply chr_eqb_eq in E2. now subst.
Qed.

Lemma inner_chr_both (s : str) :
  no_backslash s = true ->
  forallb (fun d => negb (chr_eqb d "]")) s = true ->
  forallb inner_chr s = true.
Proof.
  induction s as [|c s IH]; simpl; [reflexivity|]. intros H1 H2.
  apply andb_true_iff in H1, H2. destruct H1 as [H1 H1'], H2 as [H2 H2'].
  unfold inner_chr at 1. now rewrite H1, H2, IH.
Qed.

(** The bracket expressions of a glob without backslash have neither a
    backslash nor a closing bracket inside. *)
Lemma glob_tokens_ok (fuel : nat) :
  forall pat, no_backslash pat = true ->
              forallb token_ok (glob_tokens_loop fuel pat) = true.
Proof.
  induction fuel as [|fuel IH]; intros pat Hp; simpl; [reflexivity|].
  destruct pat as [|c rest]; [reflexivity|].
  pose proof Hp as Hp'. simpl in Hp'.
  apply andb_true_iff in Hp'. destruct Hp' as [_ Hrest].
  destruct (chr_eqb c "*").
  { destruct rest as [|d rest']; simpl; [now apply IH|].
    destruct (chr_eqb d "*"); simpl; apply IH; [|assumption].
    apply skip_stars_no_backslash. simpl in Hrest.
    apply andb_true_iff in Hrest. now destruct Hrest. }
  destruct (chr_eqb c "?"); [simpl; now apply IH|].
  destruct (chr_eqb c "["); [|simpl; now apply IH].
  destruct (class_head rest) as [k r'] eqn:Ek.
  destruct (class_head_spec _ _ _ Ek) as [-> Hk].
  rewrite no_backslash_app in Hrest.
  apply andb_true_iff in Hrest. destruct Hrest as [Hk' Hr'].
  destruct (split_at_chr "]" r') as [[a b]|] eqn:Es; simpl.
  - destruct (split_at_chr_spec _ _ _ _ Es) as [-> Ha].
    rewrite no_backslash_app in Hr'.
    apply andb_true_iff in Hr'. destruct Hr' as [Ha' Hb].
    simpl in Hb. rewrite IH by assumption. rewrite andb_true_r.
    apply inner_chr_both.
    + now rewrite no_backslash_app, Hk', Ha'.
    + now rewrite forallb_app, Hk, Ha.
  - apply IH. now rewrite no_backslash_app, Hk', Hr'.
Qed.

(** The expression [compile_pattern] hands to [re.compile] is always in
    the modelled part of the syntax. *)
Lemma compile_modelled (norm : str) :
  no_backslash norm = true -> Re.compile (anchored norm) <> Re.ReUnsupported.
Proof.
  intros Hn. unfold Re.compile.
  rewrite anchored_split, run_app, run_anchor, run_app, glob_to_regex_tokens.
  set (st := Re.run _ (concat _)).
  assert (Hs : settled st = true).
  { apply run_tokens; [reflexivity | now apply glob_tokens_ok]. }
  pose proof (step_dollar _ Hs) as Hd.
  change (Re.run st (L "$")) with (Re.step st "$").
  now destruct (Re.step st "$") as [[|] ?| | | | | | | | |].
Qed.

Lemma compile_pattern_modelled (p : str) : compile_pattern p <> Unmodelled.
Proof.
  unfold compile_pattern.
  destruct (_normalize_pattern p) as [n| |] eqn:En; try discriminate.
  - pose proof (compile_modelled _ (normalize_no_backslash _ _ En)) as H.
    destruct (Re.compile (anchored n)); try discriminate. contradiction.
  - unfold _normalize_pattern in En.
    destruct (strip p); [discriminate|].
    destruct (strip_leading_slash _); [discriminate|].
    destruct (endswith_chr _ _); discriminate.
Qed.

(** ** patterns.py: when compiling fails *)

Lemma normalize_cases (p : str) :
  match _normalize_pattern p with
  | Returns n => empty_pattern p = false /\ root_pattern p = false
  | Raises e =>
      (e = PatternSyntaxError_empty /\ empty_pattern p = true)
      \/ (e = PatternSyntaxError_root
          /\ empty_pattern p = false /\ root_pattern p = true)
  | Unmodelled => False
  end.
Proof.
  unfold _normalize_pattern, empty_pattern, root_pattern.
  destruct (strip p) as [|c s]; simpl; [now left|].
  destruct (strip_leading_slash _) as [|d t]; simpl; [now right|].
  now destruct (endswith_chr "/" (d :: t)).
Qed.

(** C7. [compile_pattern] raises [PatternSyntaxError] exactly when the
    raw pattern is empty after trimming, names the repository root alone,
    or has a bracket expression whose rendering [re.compile] rejects; in
    every other case it returns a [CompiledPattern] for the raw pattern.
    A lone [[] without closing bracket is a literal character: the
    patterns [[] and [x[y] compile and match the paths [[] and [x[y]. *)
Theorem C7_compile_errors :
  (forall p,
     raised (compile_pattern p)
     = empty_pattern p || root_pattern p || unrenderable_class p)
  /\ (forall p,
        match compile_pattern p with
        | Returns cp => raw cp = p
        | Raises e => is_PatternSyntaxError e = true
        | Unmodelled => False
        end)
  /\ glob_tokens (L "[") = [TLit "["]
  /\ pattern_matches (L "[") (L "[") = Some true
  /\ pattern_matches (L "x[y") (L "x[y") = Some true
  /\ pattern_matches (L "x[y") (L "xy") = Some false.
Proof.
  split; [|split; [|vm_compute; repeat split; reflexivity]].
  - intros p. pose proof (normalize_cases p) as Hn.
    unfold compile_pattern, unrenderable_class.
    destruct (_normalize_pattern p) as [n|e|] eqn:En.
    + destruct Hn as [-> ->]. simpl.
      destruct (Re.compile (anchored n)) as [r|e|] eqn:Ec; simpl.
      * now rewrite andb_false_r.
      * destruct (has_class n) eqn:Eh; [reflexivity|].
        rewrite (compile_classfree _ Eh) in Ec. discriminate.
      * now rewrite andb_false_r.
    + destruct Hn as [[_ ->]|[_ [-> ->]]]; reflexivity.
    + contradiction.
  - intros p. pose proof (compile_pattern_modelled p) as Hm.
    pose proof (normalize_cases p) as Hn.
    unfold compile_pattern in *.
    destruct (_normalize_pattern p) as [n|e|] eqn:En.
    + destruct (Re.compile (anchored n)); [reflexivity | reflexivity |].
      now apply Hm.
    + now destruct Hn as [[-> _]|[-> _]].
    + contradiction.
Qed.

(** ** serviceowners_file.py: comments and columns *)

Lemma preceded_by_space_spec (seen : str) (rest : str) :
  preceded_by_space seen
  = ((length seen =? 0)
     || match chr_at (seen ++ rest) (length seen - 1) with
        | Some p => isspace p
        | None => false
        end).
Proof.
  unfold preceded_by_space, chr_at.
  destruct seen as [|c seen] using rev_ind; [reflexivity|].
  rewrite rev_app_distr, length_app. simpl.
  replace (length seen + 1 =? 0) with false
    by (symmetry; apply Nat.eqb_neq; lia).
  replace (length seen + 1 - 1) with (length seen) by lia.
  rewrite <- app_assoc. simpl.
  rewrite nth_error_app2, Nat.sub_diag by lia. reflexivity.
Qed.

Lemma firstn_len_app {A} (a b : list A) : firstn (length a) (a ++ b) = a.
Proof. induction a as [|x a IH]; simpl; [reflexivity | now rewrite IH]. Qed.

Lemma firstn_S_len_app {A} (a b : list A) (c : A) :
  firstn (S (length a)) (a ++ c :: b) = a ++ [c].
Proof.
  induction a as [|x a IH]; [reflexivity|].
  cbn [length app firstn] in *. now rewrite IH.
Qed.

Lemma quotes_before_snoc (seen rest : str) (ch : ascii) :
  quotes_before (seen ++ ch :: rest) (S (length seen))
  = quotes_before (seen ++ ch :: rest) (length seen)
    + (if is_quote ch then 1 else 0).
Proof.
  unfold quotes_before.
  rewrite firstn_S_len_app, firstn_len_app, filter_app, length_app.
  simpl. now destruct (is_quote ch).
Qed.

(** The loop, started in the middle of a line: what is left to scan. *)
Lemma comment_loop_spec (rest : str) :
  forall (seen : str) (in_quote : bool),
    in_quote = negb (Nat.even (quotes_before (seen ++ rest) (length seen))) ->
    comment_loop in_quote seen rest
    = match find (starts_comment (seen ++ rest))
              (seq (length seen) (length rest)) with
      | Some i => rstrip (firstn i (seen ++ rest))
      | None => rstrip (seen ++ rest)
      end.
Proof.
  induction rest as [|ch rest IH]; intros seen q Hq.
  - simpl. now rewrite app_nil_r.
  - assert (Hrec :
      comment_loop (if is_quote ch then negb q else q) (seen ++ [ch]) rest
      = match find (starts_comment (seen ++ ch :: rest))
                (seq (S (length seen)) (length rest)) with
        | Some i => rstrip (firstn i (seen ++ ch :: rest))
        | None => rstrip (seen ++ ch :: rest)
        end).
    { rewrite (IH (seen ++ [ch])).
      - rewrite <- app_assoc, length_app. simpl.
        now replace (length seen + 1) with (S (length seen)) by lia.
      - rewrite <- app_assoc, length_app. simpl.
        replace (length seen + 1) with (S (length seen)) by lia.
        rewrite quotes_before_snoc, Hq.
        destruct (is_quote ch).
        + now rewrite Nat.add_1_r, Nat.even_succ, <- Nat.negb_even.
        + now rewrite Nat.add_0_r. }
    simpl. unfold starts_comment at 1, hash_after_space, chr_at.
    rewrite nth_error_app2, Nat.sub_diag by lia. simpl.
    fold (chr_at (seen ++ ch :: rest) (length seen - 1)).
    rewrite <- (preceded_by_space_spec seen (ch :: rest)).
    destruct (chr_eqb ch "#") eqn:Eh; simpl; [|exact Hrec].
    assert (Hnq : is_quote ch = false).
    { apply chr_eqb_eq in Eh. now subst ch. }
    rewrite Hnq in *.
    replace (negb q)
      with (Nat.even (quotes_before (seen ++ ch :: rest) (length seen)))
      by (now rewrite Hq, negb_involutive).
    rewrite (andb_comm (preceded_by_space seen)).
    destruct (Nat.even (quotes_before _ _) && preceded_by_space seen).
    + now rewrite firstn_len_app.
    + exact Hrec.
Qed.

Lemma strip_inline_comment_spec (ln : str) :
  _strip_inline_comment ln = cut_comment starts_comment ln.
Proof.
  unfold _strip_inline_comment, cut_comment.
  now rewrite (comment_loop_spec ln [] false).
Qed.

Lemma parse_loop_bad_columns (src : str) (lines : list str) :
  forall (rules : list Rule) (idx : nat),
    existsb bad_columns lines = true ->
    exists e, parse_loop src rules idx lines = Raises e
              /\ is_ParseError e = true.
Proof.
  induction lines as [|raw_line lines IH]; intros rules idx Hbad; simpl in *.
  - discriminate.
  - unfold bad_columns in Hbad at 1.
    destruct (line_content raw_line) as [ln|]; [|now apply IH].
    destruct (split ln) as [|p [|s [|x cols]]]; simpl in Hbad;
      try (eexists; split; reflexivity).
    destruct (is_empty (strip s)); [eexists; split; reflexivity|].
    pose proof (compile_pattern_modelled (strip p)) as Hm.
    destruct (compile_pattern (strip p)) as [c|e|];
      [now apply IH | eexists; split; reflexivity | contradiction].
Qed.

(** C9, the claim at a concrete input: in the line [a' #b] the [#]
    comes after whitespace, yet it starts no comment, because a quote is
    open; the line gives the rule [a' -> #b]. *)
Lemma C9_hash_inside_quotes :
  let ln := L "a' #b" in
  hash_after_space ln 3 = true
  /\ _strip_inline_comment ln = ln
  /\ cut_comment hash_after_space ln = L "a'"
  /\ _strip_inline_comment ln <> cut_comment hash_after_space ln
  /\ map (fun r => (pattern r, service r)) (rules_of_text ln)
     = [(L "a'", L "#b")].
Proof. vm_compute. repeat split; try reflexivity. discriminate. Qed.

(** C9, as the code has it. In a line of the rule file a [#] starts a
    comment, and the rest of the line is ignored, exactly when it is at
    the start of the line or comes after whitespace, and is outside
    quotes (an even number of quote characters comes before it); the
    first such [#] counts.  When a line that is left with content does
    not split into exactly two whitespace-separated columns, parsing
    fails with a [ParseError]. *)
Theorem C9_comments_and_columns :
  (forall ln, _strip_inline_comment ln = cut_comment starts_comment ln)
  /\ (forall text src,
        existsb bad_columns (splitlines text) = true ->
        exists e, parse_serviceowners_text text src = Raises e
                  /\ is_ParseError e = true).
Proof.
  split.
  - apply strip_inline_comment_spec.
  - intros text src Hbad. now apply parse_loop_bad_columns.
Qed.

(** The theorem for a rule file whose second line has three columns. *)
Lemma C9_comments_and_columns_witness :
  exists e,
    parse_serviceowners_text (L "src/** api  # one" ++ [Re.newline]
                              ++ L "docs/** web team") (L "SERVICEOWNERS")
    = Raises e
    /\ is_ParseError e = true.
Proof.
  apply (proj2 C9_comments_and_columns
           (L "src/** api  # one" ++ [Re.newline] ++ L "docs/** web team")
           (L "SERVICEOWNERS")).
  vm_compute. reflexivity.
Defined.

(** ** patterns.py: the trailing slash *)

Lemma rstrip_by_app_nonempty (p : ascii -> bool) (a b : str) :
  rstrip_by p b <> [] -> rstrip_by p (a ++ b) = a ++ rstrip_by p b.
Proof.
  intros Hb. induction a as [|c a IH]; simpl; [reflexivity|].
  rewrite IH. destruct (a ++ rstrip_by p b) eqn:E; [|reflexivity].
  apply app_eq_nil in E. now destruct E.
Qed.

Lemma rstrip_by_snoc (p : ascii -> bool) (a : str) (c : ascii) :
  p c = false -> rstrip_by p (a ++ [c]) = a ++ [c].
Proof.
  intros Hc. rewrite rstrip_by_app_nonempty; simpl; now rewrite Hc.
Qed.

Lemma endswith_chr_snoc (c d : ascii) (a : str) :
  endswith_chr c (a ++ [d]) = chr_eqb c d.
Proof. unfold endswith_chr. now rewrite rev_app_distr. Qed.

Lemma replace_chr_app (c : ascii) (r a b : str) :
  replace_chr c r (a ++ b) = replace_chr c r a ++ replace_chr c r b.
Proof. apply flat_map_app. Qed.

Lemma replace_chr_id (r s : str) :
  no_backslash s = true -> replace_chr "\" r s = s.
Proof.
  induction s as [|c s IH]; simpl; [reflexivity|]. intros H.
  apply andb_true_iff in H. destruct H as [Hc Hs].
  apply negb_true_iff in Hc. rewrite Hc. simpl. now rewrite IH.
Qed.

Section TrailingSlash.

Variable name : str.
Hypothesis Hname : bare_dir_name name = true.

Lemma name_cons : exists c n, name = c :: n /\ name_chr c = true.
Proof.
  unfold bare_dir_name in Hname.
  destruct name as [|c n]; [discriminate|]. simpl in Hname.
  exists c, n. split; [reflexivity|].
  now destruct (name_chr c).
Qed.

Lemma name_chars : forallb name_chr name = true.
Proof.
  unfold bare_dir_name in Hname.
  apply andb_true_iff in Hname. destruct Hname as [H _].
  apply andb_true_iff in H. now destruct H.
Qed.

Lemma name_no_backslash : no_backslash name = true.
Proof.
  pose proof name_chars as H. clear Hname.
  induction name as [|c n IH]; simpl in *; [reflexivity|].
  apply andb_true_iff in H. destruct H as [Hc Hn].
  rewrite (IH Hn), andb_true_r. unfold name_chr in Hc.
  apply andb_true_iff in Hc. destruct Hc as [Hc _].
  apply andb_true_iff in Hc. now destruct Hc.
Qed.

Lemma name_rstrip_slash (s : str) :
  rstrip_by is_slash (name ++ s) = name ++ rstrip_by is_slash s.
Proof.
  pose proof name_chars as H. clear Hname.
  induction name as [|c n IH]; simpl in *; [reflexivity|].
  apply andb_true_iff in H. destruct H as [Hc Hn].
  rewrite (IH Hn). unfold name_chr in Hc.
  apply andb_true_iff in Hc. destruct Hc as [Hc _].
  apply andb_true_iff in Hc. destruct Hc as [Hc _].
  apply negb_true_iff in Hc. rewrite Hc.
  now destruct (n ++ rstrip_by is_slash s).
Qed.

Lemma name_lstrip (q : str) :
  exists t, forall s, lstrip_by isspace (q ++ name ++ s) = t ++ name ++ s.
Proof.
  destruct name_cons as [c [n [-> Hc]]].
  unfold name_chr in Hc. apply andb_true_iff in Hc. destruct Hc as [_ Hc].
  apply negb_true_iff in Hc.
  induction q as [|d q [t IH]].
  - exists []. intros s. simpl. now rewrite Hc.
  - simpl. destruct (isspace d).
    + exists t. exact IH.
    + exists (d :: q). reflexivity.
Qed.

Lemma name_not_dot_slash (s : str) : strip_dot_slash (name ++ s) = name ++ s.
Proof.
  destruct name_cons as [c [n [E Hc]]].
  pose proof name_chars as Hn. unfold bare_dir_name in Hname.
  apply andb_true_iff in Hname. destruct Hname as [_ Hdot].
  apply negb_true_iff, str_eqb_neq in Hdot.
  rewrite E in *. simpl.
  destruct n as [|d n]; simpl.
  - destruct s as [|e s]; [reflexivity|].
    destruct (chr_eqb c ".") eqn:Ec; [|reflexivity].
    apply chr_eqb_eq in Ec. now subst c.
  - simpl in Hn. apply andb_true_iff in Hn. destruct Hn as [_ Hn].
    apply andb_true_iff in Hn. destruct Hn as [Hd _].
    unfold name_chr in Hd. apply andb_true_iff in Hd. destruct Hd as [Hd _].
    apply andb_true_iff in Hd. destruct Hd as [Hd _].
    apply negb_true_iff in Hd. unfold is_slash in Hd. rewrite Hd.
    now rewrite andb_false_r.
Qed.

Lemma name_first_not_slash (s : str) :
  strip_leading_slash (name ++ s) = name ++ s.
Proof.
  destruct name_cons as [c [n [E Hc]]]. rewrite E. simpl.
  unfold name_chr in Hc. apply andb_true_iff in Hc. destruct Hc as [Hc _].
  apply andb_true_iff in Hc. destruct Hc as [Hc _].
  apply negb_true_iff in Hc. unfold is_slash in Hc. now rewrite Hc.
Qed.

Lemma name_strip_dot_slash (q : str) :
  exists t, forall s, strip_dot_slash (q ++ name ++ s) = t ++ name ++ s.
Proof.
  induction q as [| x | x y q [t IH]] using list_ind2.
  - exists []. intros s. apply name_not_dot_slash.
  - exists [x]. intros s. destruct name_cons as [c [n [E Hc]]].
    rewrite E. simpl.
    unfold name_chr in Hc. apply andb_true_iff in Hc. destruct Hc as [Hc _].
    apply andb_true_iff in Hc. destruct Hc as [Hc _].
    apply negb_true_iff in Hc. unfold is_slash in Hc.
    now rewrite Hc, andb_false_r.
  - simpl. destruct (chr_eqb x "." && chr_eqb y "/").
    + exists t. exact IH.
    + exists (x :: y :: q). reflexivity.
Qed.

Lemma name_strip_leading_slash (q : str) :
  exists t, forall s, strip_leading_slash (q ++ name ++ s) = t ++ name ++ s.
Proof.
  destruct q as [|x q].
  - exists []. intros s. apply name_first_not_slash.
  - simpl. destruct (chr_eqb x "/"); [now exists q | now exists (x :: q)].
Qed.

(** Up to the last step, normalization treats [q name /] and
    [q name /**] alike. *)
Lemma name_normalize (q : str) :
  exists t,
    _normalize_pattern (q ++ name ++ L "/") = Returns (t ++ name ++ L "/**")
    /\ _normalize_pattern (q ++ name ++ L "/**")
       = Returns (t ++ name ++ L "/**").
Proof.
  destruct (name_lstrip q) as [t0 H0].
  destruct (name_strip_dot_slash (replace_chr "\" (L "/") t0)) as [t1 H1].
  destruct (name_strip_leading_slash t1) as [t2 H2].
  destruct name_cons as [c [n [E _]]].
  exists t2. unfold _normalize_pattern, strip. rewrite !H0.
  assert (S1 : rstrip_by isspace (t0 ++ name ++ L "/") = t0 ++ name ++ L "/").
  { rewrite !app_assoc. now apply rstrip_by_snoc. }
  assert (S2 : rstrip_by isspace (t0 ++ name ++ L "/**")
               = t0 ++ name ++ L "/**").
  { change (L "/**") with (L "/*" ++ L "*"). rewrite !app_assoc.
    now apply rstrip_by_snoc. }
  rewrite S1, S2.
  assert (N : forall s, t0 ++ name ++ s <> []).
  { intros s. rewrite E. now destruct t0. }
  assert (R : forall s, no_backslash s = true ->
                        replace_chr "\" (L "/") (t0 ++ name ++ s)
                        = replace_chr "\" (L "/") t0 ++ name ++ s).
  { intros s Hs. rewrite !replace_chr_app.
    now rewrite (replace_chr_id _ name name_no_backslash),
      (replace_chr_id _ s Hs). }
  assert (M : forall s, t2 ++ name ++ s <> []).
  { intros s. rewrite E. now destruct t2. }
  split.
  - destruct (t0 ++ name ++ L "/") eqn:E0; [now apply N in E0|].
    rewrite <- E0, R, H1, H2 by reflexivity.
    destruct (t2 ++ name ++ L "/") eqn:E2; [now apply M in E2|].
    rewrite <- E2. change (L "/") with ["/"%char].
    rewrite !app_assoc, endswith_chr_snoc. simpl.
    unfold rstrip_slash. rewrite <- !app_assoc.
    rewrite rstrip_by_app_nonempty, name_rstrip_slash; simpl.
    + now rewrite app_nil_r, <- app_assoc.
    + rewrite name_rstrip_slash. simpl. rewrite app_nil_r, E. discriminate.
  - destruct (t0 ++ name ++ L "/**") eqn:E0; [now apply N in E0|].
    rewrite <- E0, R, H1, H2 by reflexivity.
    destruct (t2 ++ name ++ L "/**") eqn:E2; [now apply M in E2|].
    rewrite <- E2. change (L "/**") with (L "/*" ++ ["*"%char]).
    rewrite !app_assoc, endswith_chr_snoc. reflexivity.
Qed.

End TrailingSlash.

(** C8. Trailing-slash shorthand: for a pattern [p] that ends in a bare
    directory name and [/], [compile_pattern(p)] and
    [compile_pattern(p.rstrip('/') + "/**")] have the same normalized
    pattern and the same expression: both fail or both succeed, and they
    accept the same paths. *)
Theorem C8_trailing_slash_shorthand :
  forall (q name : str),
    bare_dir_name name = true ->
    let p := q ++ name ++ L "/" in
    let p' := rstrip_slash p ++ L "/**" in
    _normalize_pattern p = _normalize_pattern p'
    /\ forall path, pattern_matches p path = pattern_matches p' path.
Proof.
  intros q name Hn p p'.
  assert (Ep' : p' = q ++ name ++ L "/**").
  { subst p p'. unfold rstrip_slash.
    rewrite rstrip_by_app_nonempty, (name_rstrip_slash _ Hn); simpl.
    - now rewrite app_nil_r, <- app_assoc.
    - rewrite (name_rstrip_slash _ Hn). simpl. rewrite app_nil_r.
      destruct (name_cons _ Hn) as [c [n [-> _]]]. discriminate. }
  destruct (name_normalize _ Hn q) as [t [E1 E2]].
  rewrite Ep'. subst p. split.
  - now rewrite E1, E2.
  - intros path. unfold pattern_matches, compile_pattern.
    rewrite E1, E2.
    now destruct (Re.compile (anchored (t ++ name ++ L "/**"))).
Qed.

(** The theorem for the pattern [./src/docs/]. *)
Lemma C8_trailing_slash_shorthand_witness :
  let p := L "./src/" ++ L "docs" ++ L "/" in
  let p' := rstrip_slash p ++ L "/**" in
  _normalize_pattern p = _normalize_pattern p'
  /\ forall path, pattern_matches p path = pattern_matches p' path.
Proof.
  apply (C8_trailing_slash_shorthand (L "./src/") (L "docs")).
  reflexivity.
Defined.

(** ** The matcher *)

Lemma star_k_ext (a : Re.atom) (s : str) :
  forall (b : bool) (k1 k2 : str -> bool -> bool),
    (forall s' b', k1 s' b' = k2 s' b') ->
    Re.star_k a s b k1 = Re.star_k a s b k2.
Proof.
  induction s as [|c s IH]; intros b k1 k2 H; simpl.
  - now rewrite H.
  - now rewrite H, (IH false k1 k2 H).
Qed.

Lemma mtch_ext (r : Re.regex) :
  forall (s : str) (b : bool) (k1 k2 : str -> bool -> bool),
    (forall s' b', k1 s' b' = k2 s' b') ->
    Re.mtch r s b k1 = Re.mtch r s b k2.
Proof.
  induction r as [| a | a | | | r1 IH1 r2 IH2 | r1 IH1 r2 IH2];
    intros s b k1 k2 H; simpl.
  - apply H.
  - destruct s; [reflexivity | now rewrite H].
  - now apply star_k_ext.
  - now rewrite H.
  - now rewrite H.
  - apply IH1. intros s' b'. now apply IH2.
  - now rewrite (IH1 s b k1 k2 H), (IH2 s b k1 k2 H).
Qed.

Lemma mtch_seq_app (l1 l2 : list Re.regex) :
  forall (s : str) (b : bool) (k : str -> bool -> bool),
    Re.mtch (Re.seq_of (l1 ++ l2)) s b k
    = Re.mtch (Re.seq_of l1) s b
        (fun s' b' => Re.mtch (Re.seq_of l2) s' b' k).
Proof.
  induction l1 as [|r l1 IH]; intros s b k; simpl; [reflexivity|].
  apply mtch_ext. intros s' b'. apply IH.
Qed.

(** The flag for the start of the subject only matters to [^]. *)
Lemma star_k_flag (a : Re.atom) (s : str) :
  forall (b b' : bool) (k : str -> bool -> bool),
    (forall s1 b1 b2, k s1 b1 = k s1 b2) ->
    Re.star_k a s b k = Re.star_k a s b' k.
Proof.
  destruct s as [|c s]; intros b b' k H; simpl; now rewrite (H _ b b').
Qed.

Lemma mtch_flag (r : Re.regex) :
  bol_free r = true ->
  forall (s : str) (b b' : bool) (k : str -> bool -> bool),
    (forall s1 b1 b2, k s1 b1 = k s1 b2) ->
    Re.mtch r s b k = Re.mtch r s b' k.
Proof.
  induction r as [| a | a | | | r1 IH1 r2 IH2 | r1 IH1 r2 IH2];
    intros Hr s b b' k H; simpl in *; try discriminate.
  - apply H.
  - reflexivity.
  - now apply star_k_flag.
  - now rewrite (H s b b').
  - apply andb_true_iff in Hr. destruct Hr as [H1 H2].
    apply IH1; [assumption|]. intros s1 b1 b2. now apply IH2.
  - apply andb_true_iff in Hr. destruct Hr as [H1 H2].
    now rewrite (IH1 H1 s b b' k H), (IH2 H2 s b b' k H).
Qed.

(** Literal items consume their own text. *)
Lemma mtch_literals (a : str) :
  forall (rest : list Re.regex) (s : str) (b : bool) (k : str -> bool -> bool),
    Re.mtch (Re.seq_of (map (fun c => Re.RAtom (Re.ALit c)) a ++ rest))
      (a ++ s) b k
    = Re.mtch (Re.seq_of rest) s (b && is_empty a) k.
Proof.
  induction a as [|c a IH]; intros rest s b k; simpl.
  - now rewrite andb_true_r.
  - rewrite chr_eqb_refl. simpl. rewrite IH. simpl. now rewrite andb_false_r.
Qed.

(** A starred atom can consume any run of characters it accepts. *)
Lemma star_k_run (a : Re.atom) (m : str) :
  forall (s : str) (b : bool) (k : str -> bool -> bool),
    forallb (Re.accepts a) m = true ->
    k s (b && is_empty m) = true ->
    Re.star_k a (m ++ s) b k = true.
Proof.
  induction m as [|c m IH]; intros s b k Hm Hk; simpl in *.
  - rewrite andb_true_r in Hk. destruct s; simpl; now rewrite Hk.
  - apply andb_true_iff in Hm. destruct Hm as [Hc Hm].
    rewrite Hc. simpl. rewrite (IH s false k Hm).
    + apply orb_true_r.
    + rewrite andb_false_r in Hk. now destruct (is_empty m).
Qed.

(** ** The double star *)

Lemma skip_stars_length (s : str) : length (skip_stars s) <= length s.
Proof.
  induction s as [|c s IH]; simpl; [lia|].
  destruct (chr_eqb c "*"); simpl; lia.
Qed.

Lemma split_at_chr_length (c : ascii) (s a b : str) :
  split_at_chr c s = Some (a, b) -> length b < length s.
Proof.
  intros H. destruct (split_at_chr_spec _ _ _ _ H) as [-> _].
  rewrite length_app. simpl. lia.
Qed.

Lemma class_head_length (rest k r' : str) :
  class_head rest = (k, r') -> length r' <= length rest.
Proof.
  intros H. destruct (class_head_spec _ _ _ H) as [-> _].
  rewrite length_app. lia.
Qed.

(** [length pat] rounds are enough for the loop. *)
Lemma glob_tokens_fuel (fuel1 : nat) :
  forall (fuel2 : nat) (pat : str),
    length pat <= fuel1 -> length pat <= fuel2 ->
    glob_tokens_loop fuel1 pat = glob_tokens_loop fuel2 pat.
Proof.
  induction fuel1 as [|fuel1 IH]; intros fuel2 pat H1 H2.
  - destruct pat; [|simpl in H1; lia]. now destruct fuel2.
  - destruct pat as [|c rest]; [now destruct fuel2|].
    destruct fuel2 as [|fuel2]; [simpl in H2; lia|].
    simpl in H1, H2. simpl.
    destruct (chr_eqb c "*").
    { destruct rest as [|d rest']; [f_equal; apply IH; simpl; lia|].
      destruct (chr_eqb d "*"); f_equal; apply IH; try lia.
      - pose proof (skip_stars_length (d :: rest')). lia.
      - pose proof (skip_stars_length (d :: rest')). lia. }
    destruct (chr_eqb c "?"); [f_equal; apply IH; lia|].
    destruct (chr_eqb c "["); [|f_equal; apply IH; lia].
    destruct (class_head rest) as [k r'] eqn:Ek.
    pose proof (class_head_length _ _ _ Ek) as Hk.
    destruct (split_at_chr "]" r') as [[a b]|] eqn:Es.
    + pose proof (split_at_chr_length _ _ _ _ Es) as Hb.
      f_equal; apply IH; lia.
    + f_equal; apply IH; lia.
Qed.

Lemma glob_tokens_literals (a : str) :
  forall (fuel : nat) (rest : str),
    forallb glob_plain a = true ->
    length (a ++ rest) <= fuel ->
    glob_tokens_loop fuel (a ++ rest)
    = map TLit a ++ glob_tokens_loop (fuel - length a) rest.
Proof.
  induction a as [|c a IH]; intros fuel rest Ha Hf; simpl in *.
  - now rewrite Nat.sub_0_r.
  - destruct fuel as [|fuel]; [lia|]. simpl.
    apply andb_true_iff in Ha. destruct Ha as [Hc Ha].
    unfold glob_plain in Hc. apply negb_true_iff in Hc.
    apply orb_false_elim in Hc. destruct Hc as [Hc H3].
    apply orb_false_elim in Hc. destruct Hc as [H1 H2].
    rewrite H1, H2, H3. f_equal. apply IH; [assumption | lia].
Qed.

Lemma skip_stars_run (n : nat) (b : str) :
  match b with c :: _ => chr_eqb c "*" = false | [] => True end ->
  skip_stars (repeat "*"%char n ++ b) = b.
Proof.
  intros Hb. induction n as [|n IH]; simpl; [|exact IH].
  destruct b as [|c b]; [reflexivity|]. simpl. now rewrite Hb.
Qed.

Lemma plain_head (b : str) :
  forallb glob_plain b = true ->
  match b with c :: _ => chr_eqb c "*" = false | [] => True end.
Proof.
  destruct b as [|c b]; [trivial|]. simpl. intros H.
  apply andb_true_iff in H. destruct H as [H _].
  unfold glob_plain in H. apply negb_true_iff in H.
  apply orb_false_elim in H. destruct H as [H _].
  apply orb_false_elim in H. now destruct H.
Qed.

(** A run of two or more [*] between literal text is one token. *)
Lemma glob_tokens_double_star (a b : str) (n : nat) :
  forallb glob_plain a = true -> forallb glob_plain b = true ->
  glob_tokens (a ++ repeat "*"%char (2 + n) ++ b)
  = map TLit a ++ [TStarStar] ++ map TLit b.
Proof.
  intros Ha Hb. unfold glob_tokens.
  rewrite glob_tokens_literals by (assumption || lia). f_equal.
  rewrite !length_app, repeat_length.
  replace (length a + (2 + n + length b) - length a)
    with (S (S (n + length b))) by lia.
  change (glob_tokens_loop (S (S (n + length b)))
            (repeat "*"%char (2 + n) ++ b))
    with (TStarStar
          :: glob_tokens_loop (S (n + length b))
               (skip_stars (repeat "*"%char (S n) ++ b))).
  rewrite (skip_stars_run (S n) b (plain_head b Hb)).
  cbn [app]. f_equal.
  replace (glob_tokens_loop (S (n + length b)) b)
    with (glob_tokens_loop (S (n + length b)) (b ++ []))
    by (now rewrite app_nil_r).
  rewrite glob_tokens_literals by (rewrite ?app_nil_r; assumption || lia).
  destruct (S (n + length b) - length b); simpl; now rewrite app_nil_r.
Qed.

Lemma literals_not_class (a : str) : existsb is_class (map TLit a) = false.
Proof. induction a as [|c a IH]; simpl; [reflexivity | exact IH]. Qed.

Lemma item_of_literals (a : str) :
  map item_of (map TLit a) = map (fun c => Re.RAtom (Re.ALit c)) a.
Proof. now rewrite map_map. Qed.

(** Both anchors let the rest of the expression start at the start of
    the path. *)
Lemma anchor_at_start (norm s : str) (k : str -> bool -> bool) :
  k s true = true -> Re.mtch (anchor_of norm) s true k = true.
Proof.
  intros Hk. unfold anchor_of. destruct (contains "/" norm); simpl.
  - exact Hk.
  - now rewrite Hk.
Qed.

Lemma no_newline_dot (m : str) :
  no_newline m = true -> forallb (Re.accepts Re.ADot) m = true.
Proof. trivial. Qed.

Lemma double_star_matches (a b m : str) (n : nat) :
  forallb glob_plain a = true -> forallb glob_plain b = true ->
  no_newline m = true ->
  exists r,
    Re.compile (anchored (a ++ repeat "*"%char (2 + n) ++ b)) = Re.ReOk r
    /\ Re.match_ r (a ++ m ++ b) = true.
Proof.
  intros Ha Hb Hm.
  pose proof (glob_tokens_double_star a b n Ha Hb) as Ht.
  eexists. split.
  - apply compile_classfree. unfold has_class. rewrite Ht.
    rewrite !existsb_app, !literals_not_class. reflexivity.
  - rewrite Ht. unfold Re.match_.
    change (Re.seq_of (?x :: ?l)) with (Re.RSeq x (Re.seq_of l)).
    cbn [Re.mtch]. apply anchor_at_start.
    rewrite !map_app, !item_of_literals, <- !app_assoc.
    rewrite mtch_literals. cbn [map app item_of Re.seq_of Re.mtch].
    apply star_k_run; [now apply no_newline_dot|].
    rewrite <- (app_nil_r b) at 2.
    rewrite mtch_literals. reflexivity.
Qed.

(** ** Bracket expressions that are sets of their own *)

Lemma reframe_step (stack : list Re.frame) (f : Re.frame) (st : Re.pstate)
    (c : ascii) :
  set_state st = true ->
  Re.step (reframe stack f st) c = reframe stack f (Re.step st c).
Proof.
  intros Hs. destruct st; try discriminate Hs; simpl;
    unfold Re.step_item, Re.mk_range, Re.close_set;
    repeat match goal with
           | |- context [if ?b then _ else _] => destruct b; simpl
           end;
    reflexivity.
Qed.

Lemma set_state_step (st : Re.pstate) (c : ascii) :
  set_state st = true -> chr_eqb c "]" = false ->
  set_state (Re.step st c) = true.
Proof.
  intros Hs Hc. destruct st; try discriminate Hs; simpl;
    unfold Re.step_item, Re.mk_range; rewrite ?Hc; simpl;
    repeat match goal with
           | |- context [if ?b then _ else _] => destruct b; simpl
           end;
    reflexivity.
Qed.

Lemma reframe_run (stack : list Re.frame) (f : Re.frame) (s : str) :
  forall st,
    set_state st = true ->
    forallb (fun c => negb (chr_eqb c "]")) s = true ->
    Re.run (reframe stack f st) s = reframe stack f (Re.run st s)
    /\ set_state (Re.run st s) = true.
Proof.
  induction s as [|c s IH]; intros st Hs Hc; simpl in *; [now split|].
  apply andb_true_iff in Hc. destruct Hc as [Hc Hcs].
  apply negb_true_iff in Hc.
  rewrite reframe_step by assumption.
  apply IH; [now apply set_state_step | assumption].
Qed.

Lemma inner_chr_no_close (s : str) :
  forallb inner_chr s = true ->
  forallb (fun c => negb (chr_eqb c "]")) s = true.
Proof.
  induction s as [|c s IH]; simpl; [reflexivity|]. intros H.
  apply andb_true_iff in H. destruct H as [Hc Hs].
  unfold inner_chr in Hc. apply andb_true_iff in Hc. destruct Hc as [_ Hc].
  now rewrite Hc, IH.
Qed.

(** Wherever it stands outside a set, a bracket expression that is a set
    of its own adds that set as one item. *)
Lemma run_class_top (stack : list Re.frame) (f : Re.frame) (inner : str)
    (a : Re.atom) :
  forallb inner_chr inner = true ->
  class_atom inner = Some a ->
  Re.run (Re.PTop stack f) (render (TClass inner))
  = Re.PTop stack (Re.push (Re.RAtom a) f).
Proof.
  intros Hi Ha. unfold class_atom in Ha.
  change (render (TClass inner))
    with ("["%char :: class_inner inner ++ ["]"%char]) in *.
  change (Re.run Re.start ("["%char :: class_inner inner ++ ["]"%char]))
    with (Re.run (Re.PSetOpen [] Re.empty_frame)
            (class_inner inner ++ ["]"%char])) in Ha.
  change (Re.run (Re.PTop stack f)
            ("["%char :: class_inner inner ++ ["]"%char]))
    with (Re.run (reframe stack f (Re.PSetOpen [] Re.empty_frame))
            (class_inner inner ++ ["]"%char])).
  rewrite run_app in *.
  destruct (reframe_run stack f (class_inner inner)
              (Re.PSetOpen [] Re.empty_frame) eq_refl
              (inner_chr_no_close _ (class_inner_inner _ Hi))) as [-> Hs].
  change (Re.run ?st ["]"%char]) with (Re.step st "]") in *.
  rewrite reframe_step by assumption.
  destruct (Re.step _ "]") as [[|] f0| | | | | | | | |]; try discriminate Ha.
  simpl. destruct (Re.alts f0); [discriminate|].
  destruct (Re.cur f0) as [|[] [|]]; try discriminate Ha.
  now injection Ha as ->.
Qed.

Lemma run_token_framed (stack : list Re.frame) (f : Re.frame) (t : gtoken) :
  token_ok t = true -> standalone t = true ->
  Re.run (Re.PTop stack f) (render t) = Re.PTop stack (Re.push (item_of t) f).
Proof.
  intros Hk Hs. destruct t; try (now apply run_token_top).
  simpl in Hs. destruct (class_atom inner) as [a|] eqn:Ea; [|discriminate].
  rewrite (run_class_top stack f inner a Hk Ea). simpl. now rewrite Ea.
Qed.

Lemma run_tokens_framed (ts : list gtoken) :
  forall (stack : list Re.frame) (f : Re.frame),
    forallb token_ok ts = true -> forallb standalone ts = true ->
    Re.run (Re.PTop stack f) (concat (map render ts))
    = Re.PTop stack (push_all ts f).
Proof.
  induction ts as [|t ts IH]; intros stack f Hk Hs; simpl in *.
  - now destruct f.
  - apply andb_true_iff in Hk, Hs. destruct Hk as [Hk Hks], Hs as [Hs Hss].
    rewrite run_app, run_token_framed, IH by assumption.
    unfold push_all, Re.push. simpl. now rewrite <- app_assoc.
Qed.

(** A glob whose bracket expressions are sets of their own compiles
    token by token. *)
Lemma compile_standalone (norm : str) :
  no_backslash norm = true ->
  forallb standalone (glob_tokens norm) = true ->
  Re.compile (anchored norm)
  = Re.ReOk (Re.seq_of (anchor_of norm
                        :: map item_of (glob_tokens norm) ++ [Re.REol])).
Proof.
  intros Hn Hs. unfold Re.compile.
  rewrite anchored_split, run_app, run_anchor, run_app, glob_to_regex_tokens.
  rewrite run_tokens_framed; [| now apply glob_tokens_ok | assumption].
  simpl. unfold Re.close. simpl.
  now rewrite rev_app_distr, rev_involutive.
Qed.
(** ** Basename globs *)

Lemma skip_stars_In (c : ascii) (s : str) : In c (skip_stars s) -> In c s.
Proof.
  induction s as [|d s IH]; simpl; [trivial|].
  destruct (chr_eqb d "*"); simpl; auto.
Qed.

(** The literal tokens of a glob are characters of the glob. *)
Lemma glob_tokens_literal_In (c : ascii) (fuel : nat) :
  forall pat, In (TLit c) (glob_tokens_loop fuel pat) -> In c pat.
Proof.
  induction fuel as [|fuel IH]; intros pat H; simpl in H; [contradiction|].
  destruct pat as [|x rest]; [contradiction|].
  destruct (chr_eqb x "*").
  { destruct rest as [|d rest'].
    - destruct H as [H|H]; [discriminate | right; now apply IH].
    - destruct (chr_eqb d "*");
        (destruct H as [H|H]; [discriminate|]); right; apply IH in H;
        [now apply skip_stars_In | assumption]. }
  destruct (chr_eqb x "?").
  { destruct H as [H|H]; [discriminate | right; now apply IH]. }
  destruct (chr_eqb x "[").
  - destruct (class_head rest) as [k r'] eqn:Ek.
    destruct (class_head_spec _ _ _ Ek) as [-> _].
    destruct (split_at_chr "]" r') as [[a b]|] eqn:Es.
    + destruct (split_at_chr_spec _ _ _ _ Es) as [-> _].
      destruct H as [H|H]; [discriminate|]. apply IH in H.
      right. rewrite !in_app_iff. simpl. auto.
    + destruct H as [[= ->]|H]; [now left | right; now apply IH].
  - destruct H as [[= ->]|H]; [now left | right; now apply IH].
Qed.

Lemma contains_In (c : ascii) (s : str) : contains c s = true <-> In c s.
Proof.
  unfold contains. rewrite existsb_exists. split.
  - intros [x [Hx E]]. apply chr_eqb_eq in E. now subst.
  - intros H. exists c. split; [assumption | apply chr_eqb_refl].
Qed.

Lemma segment_items (norm : str) :
  contains "/" norm = false ->
  forallb segment_token (glob_tokens norm) = true ->
  forallb slash_free_item (map item_of (glob_tokens norm)) = true.
Proof.
  intros Hs Ht. apply forallb_forall. intros r Hr.
  apply in_map_iff in Hr. destruct Hr as [t [<- Hin]].
  rewrite forallb_forall in Ht. specialize (Ht t Hin).
  destruct t; try discriminate Ht; try reflexivity.
  - simpl in *. now destruct (class_atom inner).
  - cbn [slash_free_item item_of Re.accepts].
    apply negb_true_iff, chr_eqb_neq. intros <-.
    apply glob_tokens_literal_In, contains_In in Hin. congruence.
Qed.

Lemma segment_items_bol_free (items : list Re.regex) :
  forallb slash_free_item items = true ->
  bol_free (Re.seq_of (items ++ [Re.REol])) = true.
Proof.
  induction items as [|r items IH]; simpl; [reflexivity|]. intros H.
  apply andb_true_iff in H. destruct H as [Hr Hi].
  rewrite (IH Hi), andb_true_r. now destruct r.
Qed.

Lemma segment_standalone (ts : list gtoken) :
  forallb segment_token ts = true -> forallb standalone ts = true.
Proof.
  induction ts as [|t ts IH]; simpl; [reflexivity|]. intros H.
  apply andb_true_iff in H. destruct H as [Ht Hts].
  rewrite (IH Hts), andb_true_r.
  destruct t; try reflexivity. simpl in *. now destruct (class_atom inner).
Qed.

Lemma contains_cons (c d : ascii) (s : str) :
  contains c (d :: s) = chr_eqb c d || contains c s.
Proof. reflexivity. Qed.

Lemma accepted_not_slash (a : Re.atom) (c : ascii) :
  Re.accepts a "/" = false -> Re.accepts a c = true -> chr_eqb "/" c = false.
Proof.
  intros Hs Hc. destruct (chr_eqb "/" c) eqn:E; [|reflexivity].
  apply chr_eqb_eq in E. subst c. congruence.
Qed.

(** Items that never accept [/] match no text with a [/] in it. *)
Lemma segment_items_no_slash (items : list Re.regex) :
  forallb slash_free_item items = true ->
  forall (s : str) (b : bool),
    Re.mtch (Re.seq_of (items ++ [Re.REol])) s b accept = true ->
    contains "/" s = false.
Proof.
  induction items as [|r items IH]; intros Hi s b Hm.
  - simpl in Hm. apply andb_true_iff in Hm. destruct Hm as [Hm _].
    destruct s as [|c [|d s]]; try discriminate; [reflexivity|].
    simpl in *. apply chr_eqb_eq in Hm. now subst c.
  - simpl in Hi. apply andb_true_iff in Hi. destruct Hi as [Hr Hi].
    specialize (IH Hi).
    destruct r as [| a | a | | | |]; try discriminate Hr;
      simpl in Hr; apply negb_true_iff in Hr.
    + cbn [app Re.seq_of Re.mtch] in Hm.
      destruct s as [|c s]; [discriminate|].
      apply andb_true_iff in Hm. destruct Hm as [Hc Hm].
      rewrite contains_cons, (accepted_not_slash _ _ Hr Hc).
      now apply (IH s false).
    + cbn [app Re.seq_of Re.mtch] in Hm. revert b Hm.
      induction s as [|c s IHs]; intros b Hm; [reflexivity|].
      cbn [Re.star_k] in Hm. apply orb_true_iff in Hm.
      destruct Hm as [Hm|Hm]; [now apply (IH _ b)|].
      apply andb_true_iff in Hm. destruct Hm as [Hc Hm].
      rewrite contains_cons, (accepted_not_slash _ _ Hr Hc).
      now apply (IHs false).
Qed.

Lemma after_slash_none (k : str -> bool -> bool) (s : str) :
  contains "/" s = false ->
  forall b, Re.star_k Re.ADot s b (after_slash k) = false.
Proof.
  induction s as [|c s IH]; intros Hs b; [reflexivity|].
  rewrite contains_cons in Hs.
  apply orb_false_elim in Hs. destruct Hs as [Hc Hs].
  cbn [Re.star_k after_slash]. rewrite (IH Hs false), andb_false_r.
  rewrite chr_eqb_sym, Hc. reflexivity.
Qed.

(** In a path with a directory part, the alternative [.*/] of the prefix
    has to end at the last [/]. *)
Lemma after_last_slash (k : str -> bool -> bool) (seg : str) (d : str) :
  contains "/" seg = false ->
  (forall s b, contains "/" s = true -> k s b = false) ->
  no_newline d = true ->
  forall b,
    Re.star_k Re.ADot (d ++ "/"%char :: seg) b (after_slash k) = k seg false.
Proof.
  intros Hseg Hk. induction d as [|c d IH]; intros Hd b.
  - cbn [app Re.star_k after_slash Re.accepts].
    rewrite (after_slash_none k seg Hseg false).
    simpl. now rewrite !orb_false_r.
  - simpl in Hd. apply andb_true_iff in Hd. destruct Hd as [Hc Hd].
    cbn [app Re.star_k after_slash Re.accepts]. rewrite Hc, (IH Hd false).
    rewrite (Hk (d ++ "/"%char :: seg) false).
    + now rewrite andb_false_r.
    + apply contains_In, in_app_iff. right. now left.
Qed.

Lemma any_dir_mtch (s : str) (k : str -> bool -> bool) :
  Re.mtch any_dir s true k
  = k s true || Re.star_k Re.ADot s true (after_slash k).
Proof.
  unfold any_dir. cbn [Re.seq_of Re.mtch andb].
  rewrite (star_k_ext Re.ADot s true _ (after_slash k)); [reflexivity|].
  intros s' b'. now destruct s'.
Qed.

Lemma last_segment_id (s : str) :
  contains "/" s = false -> last_segment s = s.
Proof.
  destruct s as [|c t]; [reflexivity|]. rewrite contains_cons. intros H.
  apply orb_false_elim in H. destruct H as [Hc Ht].
  cbn [last_segment]. unfold is_slash. now rewrite Ht, chr_eqb_sym, Hc.
Qed.

Lemma last_segment_split (s : str) :
  contains "/" s = true ->
  exists d, s = d ++ "/"%char :: last_segment s
            /\ contains "/" (last_segment s) = false.
Proof.
  induction s as [|c t IH]; [discriminate|]. intros H. cbn [last_segment].
  destruct (contains "/" t) eqn:Et.
  - destruct (IH eq_refl) as [d [Ed Hd]]. exists (c :: d). simpl.
    split; [now f_equal | assumption].
  - rewrite contains_cons, Et, orb_false_r in H.
    apply chr_eqb_eq in H. subst c. exists []. now split.
Qed.

Lemma no_newline_app (a b : str) :
  no_newline (a ++ b) = no_newline a && no_newline b.
Proof. apply forallb_app. Qed.

Lemma dir_part_split (d seg : str) :
  last_segment (d ++ "/"%char :: seg) = seg ->
  dir_part (d ++ "/"%char :: seg) = d ++ ["/"%char].
Proof.
  intros E. unfold dir_part. rewrite E, length_app. simpl.
  replace (length d + S (length seg) - length seg) with (S (length d)) by lia.
  apply firstn_S_len_app.
Qed.

(** The verdict of a basename glob whose tokens stay inside one segment
    is its verdict on the final segment. *)
Lemma basename_glob_matches (norm path : str) (r : Re.regex) :
  no_backslash norm = true ->
  contains "/" norm = false ->
  forallb segment_token (glob_tokens norm) = true ->
  Re.compile (anchored norm) = Re.ReOk r ->
  no_newline (dir_part path) = true ->
  Re.match_ r path = Re.match_ r (last_segment path).
Proof.
  intros Hn Hs Ht Hc Hp.
  rewrite (compile_standalone _ Hn (segment_standalone _ Ht)) in Hc.
  injection Hc as <-. unfold anchor_of. rewrite Hs.
  destruct (contains "/" path) eqn:Ep;
    [|now rewrite (last_segment_id _ Ep)].
  destruct (last_segment_split _ Ep) as [d [Ed Hseg]].
  set (seg := last_segment path) in *.
  pose proof (segment_items _ Hs Ht) as Hi.
  set (items := map item_of (glob_tokens norm)) in *.
  set (k := fun s b => Re.mtch (Re.seq_of (items ++ [Re.REol])) s b accept).
  assert (Hk : forall s b, contains "/" s = true -> k s b = false).
  { intros s b Hc. destruct (k s b) eqn:E; [|reflexivity].
    apply (segment_items_no_slash _ Hi) in E. congruence. }
  assert (Hd : no_newline d = true).
  { assert (E : dir_part path = d ++ ["/"%char]).
    { rewrite Ed. apply dir_part_split. now rewrite <- Ed. }
    rewrite E, no_newline_app in Hp. apply andb_true_iff in Hp.
    now destruct Hp. }
  unfold Re.match_.
  change (Re.seq_of (any_dir :: items ++ [Re.REol]))
    with (Re.RSeq any_dir (Re.seq_of (items ++ [Re.REol]))).
  cbn [Re.mtch]. rewrite !any_dir_mtch.
  change (k path true || Re.star_k Re.ADot path true (after_slash k)
          = k seg true || Re.star_k Re.ADot seg true (after_slash k)).
  rewrite (after_slash_none k seg Hseg true), orb_false_r.
  rewrite (Hk path true Ep). rewrite Ed at 1.
  rewrite (after_last_slash k seg d Hseg Hk Hd true). simpl.
  unfold k. apply mtch_flag; [now apply segment_items_bol_free | reflexivity].
Qed.

Lemma compile_pattern_Returns (p : str) (cp : CompiledPattern) :
  compile_pattern p = Returns cp ->
  _normalize_pattern p = Returns (normalized cp)
  /\ Re.compile (anchored (normalized cp)) = Re.ReOk (regex cp).
Proof.
  unfold compile_pattern.
  destruct (_normalize_pattern p) as [n| |]; try discriminate.
  destruct (Re.compile (anchored n)) as [r| |] eqn:Er; try discriminate.
  intros [= <-]. now split.
Qed.

(** C2, the claim at concrete inputs. The basename glob [a**] accepts
    the path [a/b], whose final segment [b] it rejects; so does [x[!a]y]
    with [x/y] and [y].  And [*.md] accepts the final segment [a.md] of a
    path it rejects, because a line break stands in the directory part. *)
Lemma C2_basename_crossed :
  map (fun p => option_map (contains "/")
                  (match compile_pattern p with
                   | Returns cp => Some (normalized cp)
                   | _ => None
                   end))
    [L "a**"; L "x[!a]y"; L "*.md"]
  = [Some false; Some false; Some false]
  /\ last_segment (L "a/b") = L "b"
  /\ pattern_matches (L "a**") (L "a/b") = Some true
  /\ pattern_matches (L "a**") (L "b") = Some false
  /\ last_segment (L "x/y") = L "y"
  /\ pattern_matches (L "x[!a]y") (L "x/y") = Some true
  /\ pattern_matches (L "x[!a]y") (L "y") = Some false
  /\ last_segment (L "x" ++ [Re.newline] ++ L "y/a.md") = L "a.md"
  /\ pattern_matches (L "*.md") (L "x" ++ [Re.newline] ++ L "y/a.md")
     = Some false
  /\ pattern_matches (L "*.md") (L "a.md") = Some true.
Proof. vm_compute. repeat split; reflexivity. Qed.

(** C2, as the code has it. Basename anchoring: for every pattern whose
    normalized form has no [/], no [**] and no bracket expression other
    than sets that leave [/] out, and for every path without line break
    in its directory part, the matcher accepts the path if and only if it
    accepts the final [/]-delimited segment of the path, whatever the
    directory depth; [*.md] matches [README.md] and [docs/README.md] but
    not [docs/README.mdx]. *)
Theorem C2_basename_anchoring :
  (forall (p path : str) (cp : CompiledPattern),
     compile_pattern p = Returns cp ->
     contains "/" (normalized cp) = false ->
     forallb segment_token (glob_tokens (normalized cp)) = true ->
     no_newline (dir_part path) = true ->
     matches cp path = matches cp (last_segment path))
  /\ map (pattern_matches (L "*.md"))
       [L "README.md"; L "docs/README.md"; L "docs/README.mdx"]
     = [Some true; Some true; Some false].
Proof.
  split; [|reflexivity].
  intros p path cp Hc Hs Ht Hp.
  destruct (compile_pattern_Returns _ _ Hc) as [Hn Hr].
  unfold matches.
  now apply (basename_glob_matches (normalized cp) path (regex cp)
               (normalize_no_backslash _ _ Hn)).
Qed.

(** The theorem for the pattern [*.[ch]] and the path
    [src/lib/parse.c]. *)
Lemma C2_basename_anchoring_witness :
  matches c_or_h_pattern (L "src/lib/parse.c")
  = matches c_or_h_pattern (last_segment (L "src/lib/parse.c")).
Proof.
  apply (proj1 C2_basename_anchoring (L "*.[ch]") (L "src/lib/parse.c")
           c_or_h_pattern); reflexivity.
Defined.

(** ** The double star among other tokens *)

Lemma drop_prefix_spec (a : str) :
  forall s s', drop_prefix a s = Some s' <-> s = a ++ s'.
Proof.
  induction a as [|x a IH]; intros s s'; cbn [drop_prefix app].
  - split; [now intros [= ->] | now intros ->].
  - destruct s as [|y s0]; [split; discriminate|].
    destruct (chr_eqb y x) eqn:E.
    + apply chr_eqb_eq in E. subst y. rewrite IH. split; congruence.
    + split; [discriminate|]. intros [= -> _].
      now rewrite chr_eqb_refl in E.
Qed.

Lemma mtch_literals_prefix (a : str) :
  forall (rest : list Re.regex) (s : str) (b : bool) (k : str -> bool -> bool),
    Re.mtch (Re.seq_of (map (fun c => Re.RAtom (Re.ALit c)) a ++ rest)) s b k
    = match drop_prefix a s with
      | Some s' => Re.mtch (Re.seq_of rest) s' (b && is_empty a) k
      | None => false
      end.
Proof.
  induction a as [|x a IH]; intros rest s b k.
  - cbn [map app drop_prefix is_empty]. now rewrite andb_true_r.
  - cbn [map app Re.seq_of Re.mtch drop_prefix].
    destruct s as [|y s0]; [reflexivity|].
    cbn [Re.accepts]. destruct (chr_eqb y x); [|reflexivity].
    cbn [andb]. rewrite IH. cbn [is_empty]. rewrite andb_false_r.
    destruct (drop_prefix a s0); [|reflexivity].
    destruct rest as [|r rest']; [reflexivity|]. reflexivity.
Qed.

Lemma star_k_split (a : Re.atom) (s : str) :
  forall (b : bool) (k : str -> bool -> bool),
    Re.star_k a s b k = true ->
    exists s1 s2 b',
      s = s1 ++ s2 /\ forallb (Re.accepts a) s1 = true /\ k s2 b' = true.
Proof.
  induction s as [|c s IH]; intros b k H; cbn [Re.star_k] in H.
  - rewrite orb_false_r in H. now exists [], [], b.
  - apply orb_true_iff in H. destruct H as [H|H].
    + now exists [], (c :: s), b.
    + apply andb_true_iff in H. destruct H as [Hc H].
      destruct (IH _ _ H) as [s1 [s2 [b' [-> [Hs1 Hk]]]]].
      exists (c :: s1), s2, b'. repeat split; [|assumption].
      cbn [forallb]. now rewrite Hc.
Qed.

Lemma is_empty_app (u v : str) :
  is_empty (u ++ v) = is_empty u && is_empty v.
Proof. now destruct u. Qed.

Lemma star_k_cut (a : Re.atom) (s : str) :
  forall (b : bool) (k : str -> bool -> bool),
    Re.star_k a s b k = true ->
    exists s1 s2,
      s = s1 ++ s2 /\ forallb (Re.accepts a) s1 = true
      /\ k s2 (b && is_empty s1) = true.
Proof.
  induction s as [|c s IH]; intros b k H; cbn [Re.star_k] in H.
  - rewrite orb_false_r in H. exists [], []. cbn [is_empty].
    now rewrite andb_true_r.
  - apply orb_true_iff in H. destruct H as [H|H].
    + exists [], (c :: s). cbn [is_empty]. now rewrite andb_true_r.
    + apply andb_true_iff in H. destruct H as [Hc H].
      destruct (IH _ _ H) as [s1 [s2 [-> [Hs1 Hk]]]].
      exists (c :: s1), s2. split; [reflexivity|]. split.
      * cbn [forallb]. now rewrite Hc.
      * cbn [is_empty]. rewrite andb_false_r. exact Hk.
Qed.

(** The matcher and what an expression takes: a match is a prefix the
    expression takes, and then the continuation. *)
Lemma mtch_takes (r : Re.regex) :
  forall (s : str) (b : bool) (k : str -> bool -> bool),
    Re.mtch r s b k = true
    <-> exists s1 s2,
          s = s1 ++ s2 /\ takes r b s1 s2
          /\ k s2 (b && is_empty s1) = true.
Proof.
  induction r as [| a | a | | | r1 IH1 r2 IH2 | r1 IH1 r2 IH2];
    intros s b k; cbn [Re.mtch takes].
  - split.
    + intros H. exists [], s. cbn [is_empty]. now rewrite andb_true_r.
    + intros [s1 [s2 [-> [-> H]]]]. cbn [is_empty app] in *.
      now rewrite andb_true_r in H.
  - destruct s as [|c s].
    + split; [discriminate|].
      intros [s1 [s2 [E [[c [-> _]] _]]]]. discriminate E.
    + split.
      * intros H. apply andb_true_iff in H. destruct H as [Ha Hk].
        exists [c], s. split; [reflexivity|]. split; [now exists c|].
        cbn [is_empty]. now rewrite andb_false_r.
      * intros [s1 [s2 [E [[d [-> Hd]] Hk]]]]. cbn [app] in E.
        injection E as -> ->. rewrite Hd. cbn [is_empty] in Hk.
        now rewrite andb_false_r in Hk.
  - split.
    + apply star_k_cut.
    + intros [s1 [s2 [-> [H Hk]]]]. now apply star_k_run.
  - split.
    + intros H. apply andb_true_iff in H. destruct H as [-> Hk].
      exists [], s. now repeat split.
    + intros [s1 [s2 [-> [[-> ->] Hk]]]]. exact Hk.
  - split.
    + intros H. apply andb_true_iff in H. destruct H as [He Hk].
      exists [], s. cbn [is_empty]. rewrite andb_true_r. now repeat split.
    + intros [s1 [s2 [-> [[-> He] Hk]]]]. cbn [app is_empty] in *.
      rewrite He. now rewrite andb_true_r in Hk.
  - split.
    + intros H. apply IH1 in H. destruct H as [u [s' [-> [T1 H2]]]].
      apply IH2 in H2. destruct H2 as [v [w [-> [T2 Hk]]]].
      exists (u ++ v), w. split; [now rewrite app_assoc|]. split.
      * now exists u, v.
      * now rewrite is_empty_app, andb_assoc.
    + intros [s1 [s2 [-> [[u [v [-> [T1 T2]]]] Hk]]]].
      apply IH1. exists u, (v ++ s2).
      split; [now rewrite app_assoc|]. split; [exact T1|].
      apply IH2. exists v, s2. split; [reflexivity|]. split; [exact T2|].
      now rewrite is_empty_app, andb_assoc in Hk.
  - rewrite orb_true_iff, IH1, IH2. split.
    + intros [[s1 [s2 [E [T Hk]]]]|[s1 [s2 [E [T Hk]]]]];
        exists s1, s2; auto.
    + intros [s1 [s2 [E [[T|T] Hk]]]]; [left|right]; now exists s1, s2.
Qed.

(** What an expression without [$] takes does not depend on what
    follows. *)
Lemma takes_rest (r : Re.regex) :
  eol_free r = true ->
  forall b s1 t t', takes r b s1 t -> takes r b s1 t'.
Proof.
  induction r as [| a | a | | | r1 IH1 r2 IH2 | r1 IH1 r2 IH2];
    intros Hr b s1 t t'; cbn [takes eol_free] in *; try discriminate;
    try (intros H; exact H).
  - apply andb_true_iff in Hr. destruct Hr as [H1 H2].
    intros [u [v [-> [T1 T2]]]]. exists u, v. split; [reflexivity|].
    split; [now apply (IH1 H1 b u (v ++ t)) | now apply (IH2 H2 _ v t)].
  - apply andb_true_iff in Hr. destruct Hr as [H1 H2].
    intros [T|T]; [left; now apply (IH1 H1 b s1 t)
                  | right; now apply (IH2 H2 b s1 t)].
Qed.

Lemma mtch_leaves (r : Re.regex) (s1 : str) (b : bool) :
  Re.mtch r s1 b (leaves []) = true <-> takes r b s1 [].
Proof.
  rewrite mtch_takes. unfold leaves. split.
  - intros [u [w [-> [T H]]]]. apply str_eqb_eq in H. subst w.
    now rewrite app_nil_r.
  - intros T. exists s1, []. rewrite app_nil_r. now repeat split.
Qed.

Lemma item_of_free (t : gtoken) :
  eol_free (item_of t) = true /\ bol_free (item_of t) = true.
Proof. destruct t; cbn [item_of]; try (split; reflexivity).
  now destruct (class_atom inner).
Qed.

Lemma items_eol_free (ts : list gtoken) :
  eol_free (Re.seq_of (map item_of ts)) = true.
Proof.
  induction ts as [|t ts IH]; [reflexivity|].
  cbn [map Re.seq_of eol_free]. now rewrite (proj1 (item_of_free t)), IH.
Qed.

Lemma items_bol_free (ts : list gtoken) :
  bol_free (Re.seq_of (map item_of ts ++ [Re.REol])) = true.
Proof.
  induction ts as [|t ts IH]; [reflexivity|].
  cbn [map app Re.seq_of bol_free]. now rewrite (proj2 (item_of_free t)), IH.
Qed.

Lemma anchor_eol_free (norm : str) : eol_free (anchor_of norm) = true.
Proof. unfold anchor_of. now destruct (contains "/" norm). Qed.

(** The matcher at a [.*] between two lists of tokens: the path is
    what the anchor and the first tokens take, then a run without line
    break, then what the other tokens take up to the end. *)
Lemma double_star_split (norm : str) (pre post : list gtoken) (path : str) :
  Re.match_ (Re.seq_of (anchor_of norm
                        :: map item_of (pre ++ TStarStar :: post)
                           ++ [Re.REol])) path = true
  <-> exists s1 m s2,
        path = s1 ++ m ++ s2
        /\ before_token norm pre s1 = true
        /\ no_newline m = true
        /\ after_token post s2 = true.
Proof.
  set (A := anchor_of norm :: map item_of pre).
  set (B := map item_of post ++ [Re.REol]).
  assert (E : anchor_of norm :: map item_of (pre ++ TStarStar :: post)
                             ++ [Re.REol]
              = A ++ Re.RStar Re.ADot :: B).
  { unfold A, B. rewrite map_app. cbn [map item_of app].
    now rewrite <- app_assoc. }
  rewrite E. unfold Re.match_. rewrite mtch_seq_app.
  assert (HA : eol_free (Re.seq_of A) = true).
  { unfold A. cbn [Re.seq_of eol_free].
    now rewrite anchor_eol_free, items_eol_free. }
  assert (HB : forall s b, Re.mtch (Re.seq_of B) s b accept
                           = after_token post s).
  { intros s b. unfold after_token. apply mtch_flag; [apply items_bol_free|].
    reflexivity. }
  split.
  - intros H. apply mtch_takes in H. destruct H as [s1 [t [-> [T H]]]].
    cbn [Re.seq_of Re.mtch] in H. apply star_k_cut in H.
    destruct H as [m [s2 [-> [Hm H]]]].
    exists s1, m, s2. split; [reflexivity|]. split; [|split].
    + unfold before_token. fold A. apply mtch_leaves.
      now apply (takes_rest _ HA true s1 (m ++ s2)).
    + exact Hm.
    + fold accept in H. now rewrite HB in H.
  - intros [s1 [m [s2 [-> [Hb [Hm Ha]]]]]].
    unfold before_token in Hb. fold A in Hb. apply mtch_leaves in Hb.
    apply mtch_takes. exists s1, (m ++ s2). split; [reflexivity|].
    split; [now apply (takes_rest _ HA true s1 [])|].
    cbn [Re.seq_of Re.mtch]. apply star_k_run; [exact Hm|].
    fold accept. now rewrite HB.
Qed.

Lemma before_literals (norm a s1 : str) :
  contains "/" norm = true ->
  before_token norm (map TLit a) s1 = str_eqb s1 a.
Proof.
  intros Hs. unfold before_token, anchor_of. rewrite Hs, item_of_literals.
  cbn [Re.seq_of Re.mtch andb].
  rewrite <- (app_nil_r (map (fun c => Re.RAtom (Re.ALit c)) a)).
  rewrite mtch_literals_prefix.
  destruct (drop_prefix a s1) as [s'|] eqn:E.
  - apply drop_prefix_spec in E. subst s1. cbn [Re.seq_of Re.mtch].
    unfold leaves. destruct s' as [|c s'].
    + rewrite app_nil_r. now rewrite !str_eqb_refl.
    + transitivity false; [apply str_eqb_neq; discriminate|].
      symmetry. apply str_eqb_neq. intros H.
      rewrite <- (app_nil_r a) in H at 2. apply app_inv_head in H.
      discriminate H.
  - symmetry. apply str_eqb_neq. intros ->.
    assert (E' : drop_prefix a a = Some [])
      by (apply drop_prefix_spec; now rewrite app_nil_r).
    congruence.
Qed.

Lemma after_literals (b s2 : str) :
  after_token (map TLit b) s2 = true
  <-> exists e, s2 = b ++ e /\ Re.at_end e = true.
Proof.
  unfold after_token. rewrite item_of_literals, mtch_literals_prefix.
  destruct (drop_prefix b s2) as [e|] eqn:E.
  - apply drop_prefix_spec in E. subst s2. cbn [Re.seq_of Re.mtch].
    unfold accept. rewrite andb_true_r. split.
    + intros H. now exists e.
    + intros [e' [H He]]. apply app_inv_head in H. now subst e'.
  - split; [discriminate|]. intros [e [-> _]].
    assert (E' : drop_prefix b (b ++ e) = Some e)
      by now apply drop_prefix_spec.
    congruence.
Qed.

(** C3, the claim at concrete inputs: [**] between separators does not
    stand for "no segment at all"; [a/**/b] rejects [a/b] and [**/foo]
    rejects the root-level [foo]. *)
Lemma C3_separators_stay :
  pattern_matches (L "a/**/b") (L "a/b") = Some false
  /\ pattern_matches (L "**/foo") (L "foo") = Some false.
Proof. split; reflexivity. Qed.

(** C3, as the code has it.  A run of two or more [*] is one token,
    and in every glob the token is rendered as [.*].  When the bracket
    expressions of the pattern, if it has any, are sets of their own, the
    token stands for a run of characters without line break, [/] and the
    empty run included, and for nothing else: a path matches exactly
    when it is made of a part that the anchor and the tokens before the
    [**] match, such a run, and a part that the tokens after the [**]
    match up to the end.  So the text around the token, separators
    included, has to be in the path itself: between literal text [a] and
    [b], in a glob with a slash, the paths matched are exactly [a m b]
    for the runs [m] without line break, a final line break apart.
    [a/**/b] matches [a//b], [a/x/b] and [a/x/y/b] but not [a/b];
    [**/foo] matches [x/foo] and [x/y/foo] but not [foo]; [docs/**]
    matches [docs/]; [src/**/*.py] matches [src/a/b.py] and [src//b.py]
    but not [src/b.py].  In [[]**x[a]], where the bracket expression does
    not end where the glob has it end, the rendered [.*] falls inside a
    set and stands for no run. *)
Theorem C3_double_star :
  (forall (a b : str) (n : nat),
     forallb glob_plain a = true -> forallb glob_plain b = true ->
     glob_tokens (a ++ repeat "*"%char (2 + n) ++ b)
     = map TLit a ++ [TStarStar] ++ map TLit b
     /\ forall m,
          no_newline m = true ->
          exists r,
            Re.compile (anchored (a ++ repeat "*"%char (2 + n) ++ b))
            = Re.ReOk r
            /\ Re.match_ r (a ++ m ++ b) = true)
  /\ (forall (norm : str) (pre post : list gtoken),
        glob_tokens norm = pre ++ TStarStar :: post ->
        _glob_to_regex norm
        = concat (map render pre) ++ L ".*" ++ concat (map render post))
  /\ (forall (p : str) (cp : CompiledPattern) (pre post : list gtoken),
        compile_pattern p = Returns cp ->
        glob_tokens (normalized cp) = pre ++ TStarStar :: post ->
        forallb standalone (glob_tokens (normalized cp)) = true ->
        forall path,
          matches cp path = true
          <-> exists s1 m s2,
                path = s1 ++ m ++ s2
                /\ before_token (normalized cp) pre s1 = true
                /\ no_newline m = true
                /\ after_token post s2 = true)
  /\ (forall (a b : str) (n : nat),
        forallb glob_plain a = true -> forallb glob_plain b = true ->
        contains "/" (a ++ repeat "*"%char (2 + n) ++ b) = true ->
        exists r,
          Re.compile (anchored (a ++ repeat "*"%char (2 + n) ++ b))
          = Re.ReOk r
          /\ forall path,
               Re.match_ r path = true
               <-> exists m e,
                     path = a ++ m ++ b ++ e
                     /\ no_newline m = true /\ Re.at_end e = true)
  /\ map (pattern_matches (L "a/**/b"))
       [L "a//b"; L "a/x/b"; L "a/x/y/b"; L "a/b"]
     = [Some true; Some true; Some true; Some false]
  /\ map (pattern_matches (L "a/****/b")) [L "a/x/y/b"; L "a/b"]
     = [Some true; Some false]
  /\ map (pattern_matches (L "**/foo")) [L "x/foo"; L "x/y/foo"; L "foo"]
     = [Some true; Some true; Some false]
  /\ map (pattern_matches (L "docs/**")) [L "docs/"; L "docs/a/b.md"]
     = [Some true; Some true]
  /\ map (pattern_matches (L "src/**/*.py"))
       [L "src/a/b.py"; L "src//b.py"; L "src/b.py"]
     = [Some true; Some true; Some false]
  /\ (forallb standalone (glob_tokens (L "[]**x[a]")) = false
      /\ map (pattern_matches (L "[]**x[a]")) [L "*"; L "]xa"; L "]qqxa"]
         = [Some true; Some false; Some false]).
Proof.
  split; [|split; [|split; [|split]]].
  - intros a b n Ha Hb. split.
    + now apply glob_tokens_double_star.
    + intros m Hm. now apply double_star_matches.
  - intros norm pre post Ht.
    rewrite glob_to_regex_tokens, Ht, map_app, concat_app. reflexivity.
  - intros p cp pre post Hcp Ht Hst path.
    destruct (compile_pattern_Returns _ _ Hcp) as [Hn Hre].
    rewrite (compile_standalone _ (normalize_no_backslash _ _ Hn) Hst) in Hre.
    injection Hre as Hre. unfold matches. rewrite <- Hre, Ht.
    apply double_star_split.
  - intros a b n Ha Hb Hslash.
    pose proof (glob_tokens_double_star a b n Ha Hb) as Ht.
    eexists. split.
    + apply compile_classfree. unfold has_class. rewrite Ht.
      rewrite !existsb_app, !literals_not_class. reflexivity.
    + intros path. rewrite Ht.
      change (map TLit a ++ [TStarStar] ++ map TLit b)
        with (map TLit a ++ TStarStar :: map TLit b).
      rewrite double_star_split. split.
      * intros [s1 [m [s2 [-> [Hb1 [Hm Ha2]]]]]].
        rewrite (before_literals _ _ _ Hslash) in Hb1.
        apply str_eqb_eq in Hb1. subst s1.
        apply after_literals in Ha2. destruct Ha2 as [e [-> He]].
        now exists m, e.
      * intros [m [e [-> [Hm He]]]]. exists a, m, (b ++ e).
        split; [reflexivity|]. split; [|split].
        -- rewrite (before_literals _ _ _ Hslash). apply str_eqb_refl.
        -- exact Hm.
        -- apply after_literals. now exists e.
  - vm_compute. repeat split; reflexivity.
Qed.

(** The theorem for the pattern [src/**/*.py] and the path
    [src/a/b.py]. *)
Lemma C3_double_star_witness :
  matches deep_py_pattern (L "src/a/b.py") = true
  <-> exists s1 m s2,
        L "src/a/b.py" = s1 ++ m ++ s2
        /\ before_token (normalized deep_py_pattern) (map TLit (L "src/")) s1
           = true
        /\ no_newline m = true
        /\ after_token
             (TLit "/" :: TStar :: map TLit (L ".py")) s2 = true.
Proof.
  apply (proj1 (proj2 (proj2 C3_double_star)) (L "src/**/*.py")
           deep_py_pattern (map TLit (L "src/"))
           (TLit "/" :: TStar :: map TLit (L ".py"))
           eq_refl eq_refl eq_refl (L "src/a/b.py")).
Defined.

(* ================================================================== *)
(** * Further properties of the code *)
(* ================================================================== *)

(** ** ownership.py: rule sets put together *)

Lemma last_opt_app {A} (xs ys : list A) :
  last_opt (xs ++ ys)
  = match last_opt ys with
    | Some y => Some y
    | None => last_opt xs
    end.
Proof.
  destruct ys as [|y ys] using rev_ind.
  - now rewrite app_nil_r.
  - now rewrite app_assoc, !last_opt_snoc.
Qed.

(** Matching against two rule sets put one after the other: the
    candidates are those of the first followed by those of the second,
    and the second set decides whenever one of its rules matches. *)
Theorem match_rule_sets_appended :
  forall (rules1 rules2 : list Rule) (path : str),
    let m1 := OwnershipIndex_match rules1 path in
    let m2 := OwnershipIndex_match rules2 path in
    let m := OwnershipIndex_match (rules1 ++ rules2) path in
    match_matches m = match_matches m1 ++ match_matches m2
    /\ match_chosen m
       = match match_chosen m2 with
         | Some r => Some r
         | None => match_chosen m1
         end
    /\ Match_service m
       = match Match_service m2 with
         | Some s => Some s
         | None => Match_service m1
         end.
Proof.
  intros rules1 rules2 path m1 m2 m.
  assert (E : match_matches m = match_matches m1 ++ match_matches m2).
  { subst m m1 m2. simpl. rewrite !match_loop_filter. apply filter_app. }
  assert (C : match_chosen m
              = match match_chosen m2 with
                | Some r => Some r
                | None => match_chosen m1
                end).
  { change (match_chosen m) with (last_opt (match_matches m)).
    rewrite E. apply last_opt_app. }
  repeat split; try assumption.
  unfold Match_service. rewrite C. now destruct (match_chosen m2).
Qed.

Lemma last_opt_None {A} (xs : list A) : last_opt xs = None <-> xs = [].
Proof.
  destruct xs as [|x xs] using rev_ind; [now split|].
  rewrite last_opt_snoc. split; [discriminate|].
  intros E. now destruct xs.
Qed.

Lemma last_opt_split {A} (xs : list A) (x : A) :
  last_opt xs = Some x -> exists pre, xs = pre ++ [x].
Proof.
  destruct xs as [|y xs] using rev_ind; [discriminate|].
  rewrite last_opt_snoc. intros [= ->]. now exists xs.
Qed.

Lemma filter_snoc_split {A} (f : A -> bool) (l pre : list A) (x : A) :
  filter f l = pre ++ [x] ->
  exists l1 l2, l = l1 ++ x :: l2 /\ f x = true
                /\ forallb (fun y => negb (f y)) l2 = true.
Proof.
  revert pre. induction l as [|y l IH]; intros pre E; simpl in E.
  - now destruct pre.
  - destruct (f y) eqn:Ey.
    + destruct pre as [|p pre].
      * simpl in E. injection E as -> E.
        exists [], l. repeat split; [assumption|].
        apply forallb_forall. intros z Hz. apply negb_true_iff.
        destruct (f z) eqn:Ez; [|reflexivity].
        assert (Hin : In z (filter f l)) by (apply filter_In; now split).
        rewrite E in Hin. contradiction.
      * simpl in E. injection E as -> E.
        destruct (IH pre E) as [l1 [l2 [-> [Hx Hl2]]]].
        exists (p :: l1), l2. now repeat split.
    + destruct (IH pre E) as [l1 [l2 [-> [Hx Hl2]]]].
      exists (y :: l1), l2. now repeat split.
Qed.

(** The chosen rule is a rule of the set that matches the path and has no
    matching rule after it; no rule is chosen exactly when no rule
    matches. *)
Theorem chosen_is_last_matching_rule :
  forall (rules : list Rule) (path : str),
    match match_chosen (OwnershipIndex_match rules path) with
    | Some r =>
        exists before after,
          rules = before ++ r :: after
          /\ matches (compiled r) path = true
          /\ forallb (fun x => negb (matches (compiled x) path)) after = true
    | None => forallb (fun x => negb (matches (compiled x) path)) rules = true
    end.
Proof.
  intros rules path. simpl. rewrite match_loop_filter.
  destruct (last_opt _) as [r|] eqn:E.
  - apply last_opt_split in E. destruct E as [pre E].
    now apply filter_snoc_split in E.
  - apply last_opt_None in E. apply forallb_forall. intros x Hx.
    apply negb_true_iff. destruct (matches (compiled x) path) eqn:Ex;
      [|reflexivity].
    assert (Hin : In x (filter (fun r => matches (compiled r) path) rules))
      by (apply filter_In; now split).
    rewrite E in Hin. contradiction.
Qed.

(** ** impact.py: the report as a whole *)

Lemma dict_get_In {V} (d : dict V) (k : str) (v : V) :
  dict_get d k = Some v -> In (k, v) d.
Proof.
  induction d as [|[k' v'] d IH]; simpl; [discriminate|].
  destruct (str_eqb k' k) eqn:E.
  - apply str_eqb_eq in E. intros [= ->]. left. now subst.
  - intros H. right. now apply IH.
Qed.

Lemma dict_get_None_keys {V} (d : dict V) (k : str) :
  dict_get d k = None <-> ~ In k (map fst d).
Proof.
  induction d as [|[k' v'] d IH]; simpl; [tauto|].
  destruct (str_eqb k' k) eqn:E.
  - apply str_eqb_eq in E. split; [discriminate | intros H; tauto].
  - apply str_eqb_neq in E. rewrite IH. tauto.
Qed.

Lemma In_dict_get {V} (d : dict V) (k : str) (v : V) :
  NoDup (map fst d) -> In (k, v) d -> dict_get d k = Some v.
Proof.
  induction d as [|[k' v'] d IH]; simpl; [contradiction|].
  intros Hn Hin. inversion_clear Hn as [|? ? Hk Hd].
  destruct Hin as [[= -> ->]|Hin].
  - now rewrite str_eqb_refl.
  - destruct (str_eqb k' k) eqn:E; [|now apply IH].
    apply str_eqb_eq in E. subst k'. exfalso. apply Hk.
    apply in_map_iff. now exists (k, v).
Qed.

Lemma dict_set_keys {V} (d : dict V) (k : str) (v : V) :
  map fst (dict_set d k v)
  = match dict_get d k with
    | Some _ => map fst d
    | None => map fst d ++ [k]
    end.
Proof.
  induction d as [|[k' v'] d IH]; simpl; [reflexivity|].
  destruct (str_eqb k' k); simpl; [reflexivity|].
  rewrite IH. now destruct (dict_get d k).
Qed.

Lemma dict_set_NoDup {V} (d : dict V) (k : str) (v : V) :
  NoDup (map fst d) -> NoDup (map fst (dict_set d k v)).
Proof.
  intros Hn. rewrite dict_set_keys.
  destruct (dict_get d k) eqn:E; [assumption|].
  apply dict_get_None_keys in E.
  apply NoDup_app; [assumption | repeat constructor; auto |].
  intros x Hx [<-|[]]. contradiction.
Qed.

Section ImpactReport.

Variable rules : list Rule.

Lemma owned_by_Some (svc p : str) :
  owned_by rules (Some svc) p = true <-> owner_of rules p = Some svc.
Proof.
  unfold owned_by. destruct (owner_of rules p) as [a|].
  - rewrite str_eqb_eq. split; congruence.
  - split; discriminate.
Qed.

Lemma owned_by_None (p : str) :
  owned_by rules None p = true <-> owner_of rules p = None.
Proof.
  unfold owned_by. destruct (owner_of rules p); split; congruence.
Qed.

(** No service is twice in the dict of buckets. *)
Lemma impact_loop_keys (paths : list str) :
  NoDup (map fst (services_to_files
                    (fold_left (impact_step rules) paths empty_report))).
Proof.
  induction paths as [|p paths IH] using rev_ind; simpl; [constructor|].
  rewrite fold_left_app. simpl. unfold impact_step at 1.
  destruct (Match_service _); simpl; [now apply dict_set_NoDup | assumption].
Qed.

Lemma compute_impact_keys (paths : list str) :
  NoDup (map fst (services_to_files (compute_impact rules paths))).
Proof.
  unfold compute_impact. simpl. rewrite map_map. simpl.
  apply impact_loop_keys.
Qed.

Lemma as_bucket_Some (l fs : list str) :
  as_bucket l = Some fs -> l = fs /\ fs <> [].
Proof. destruct l; [discriminate|]. intros [= <-]. split; congruence. Qed.

Lemma bucket_lookup (paths : list str) (svc : str) (fs : list str) :
  dict_get (services_to_files (compute_impact rules paths)) svc = Some fs ->
  fs = sorted (py_set (filter (owned_by rules (Some svc)) paths)).
Proof.
  rewrite (proj1 (compute_impact_buckets rules paths)).
  destruct (as_bucket _) as [l|] eqn:E; [|discriminate].
  apply as_bucket_Some in E. destruct E as [<- _]. now intros [= <-].
Qed.

Lemma bucket_member (paths : list str) (svc p : str) :
  (exists fs,
      dict_get (services_to_files (compute_impact rules paths)) svc = Some fs
      /\ In p fs)
  <-> In p paths /\ owner_of rules p = Some svc.
Proof.
  split.
  - intros [fs [Hg Hin]]. rewrite (bucket_lookup _ _ _ Hg) in Hin.
    rewrite sorted_In, py_set_In, filter_In, owned_by_Some in Hin. exact Hin.
  - intros [Hin Ho].
    assert (Hf : In p (filter (owned_by rules (Some svc)) paths))
      by (apply filter_In; split; [assumption | now apply owned_by_Some]).
    rewrite (proj1 (compute_impact_buckets rules paths)).
    destruct (filter (owned_by rules (Some svc)) paths) as [|a l] eqn:E;
      [contradiction|].
    eexists. split; [reflexivity|].
    now rewrite sorted_In, py_set_In.
Qed.

Lemma unmapped_member (paths : list str) (p : str) :
  In p (unmapped_files (compute_impact rules paths))
  <-> In p paths /\ owner_of rules p = None.
Proof.
  rewrite (proj2 (compute_impact_buckets rules paths)).
  now rewrite sorted_In, py_set_In, filter_In, owned_by_None.
Qed.

End ImpactReport.

(** Every changed path is in exactly one place of the report: among the
    unmapped files when no rule matches it, and otherwise in the bucket
    of the service of its last matching rule, and in no other bucket. *)
Theorem impact_partitions_paths :
  forall (rules : list Rule) (paths : list str) (p : str),
    let r := compute_impact rules paths in
    (In p (unmapped_files r) <-> In p paths /\ owner_of rules p = None)
    /\ forall svc,
         (exists fs, dict_get (services_to_files r) svc = Some fs /\ In p fs)
         <-> In p paths /\ owner_of rules p = Some svc.
Proof.
  intros rules paths p r. split.
  - apply unmapped_member.
  - intros svc. apply bucket_member.
Qed.

(** Buckets whose elements all carry the key of their bucket, under
    distinct keys, share no element. *)
Lemma keyed_buckets_NoDup (own : str -> option str) (d : dict (list str)) :
  NoDup (map fst d) ->
  (forall k v, In (k, v) d -> NoDup v /\ forall x, In x v -> own x = Some k) ->
  NoDup (concat (map snd d)).
Proof.
  induction d as [|[k v] d IH]; simpl; intros Hn Hd; [constructor|].
  inversion_clear Hn as [|? ? Hk Hn'].
  destruct (Hd k v (or_introl eq_refl)) as [Hv Hown].
  apply NoDup_app; [assumption | apply IH; auto |].
  intros x Hx Hc. apply in_concat in Hc. destruct Hc as [v' [Hv' Hxv']].
  apply in_map_iff in Hv'. destruct Hv' as [[k' v''] [E Hin]].
  simpl in E. subst v''.
  destruct (Hd k' v' (or_intror Hin)) as [_ Hown'].
  pose proof (Hown' x Hxv') as E'. rewrite (Hown x Hx) in E'.
  injection E' as ->. apply Hk. apply in_map_iff. now exists (k', v').
Qed.

(** [total_files] counts every distinct changed path once. *)
Theorem total_files_counts_distinct_paths :
  forall (rules : list Rule) (paths : list str),
    total_files (compute_impact rules paths) = length (py_set paths).
Proof.
  intros rules paths. unfold total_files.
  set (r := compute_impact rules paths).
  rewrite <- (map_map snd (@length str)), <- length_concat, <- length_app.
  apply Permutation_length, NoDup_Permutation.
  - apply NoDup_app.
    + apply (keyed_buckets_NoDup (owner_of rules));
        [apply compute_impact_keys|].
      intros k v Hin.
      apply In_dict_get in Hin; [|apply compute_impact_keys].
      pose proof (bucket_lookup _ _ _ _ Hin) as E. split.
      * rewrite E. apply sorted_NoDup, NoDup_nodup.
      * intros x Hx. apply (bucket_member rules paths k x). now exists v.
    + unfold r. rewrite (proj2 (compute_impact_buckets rules paths)).
      apply sorted_NoDup, NoDup_nodup.
    + intros x Hx Hu. apply unmapped_member in Hu. destruct Hu as [_ Hu].
      apply in_concat in Hx. destruct Hx as [v [Hv Hxv]].
      apply in_map_iff in Hv. destruct Hv as [[k v'] [E Hin]].
      simpl in E. subst v'.
      apply In_dict_get in Hin; [|apply compute_impact_keys].
      assert (Ho : owner_of rules x = Some k)
        by (apply (bucket_member rules paths k x); now exists v).
      congruence.
  - apply NoDup_nodup.
  - intros x. rewrite in_app_iff, py_set_In. split.
    + intros [Hx|Hx].
      * apply in_concat in Hx. destruct Hx as [v [Hv Hxv]].
        apply in_map_iff in Hv. destruct Hv as [[k v'] [E Hin]].
        simpl in E. subst v'.
        apply In_dict_get in Hin; [|apply compute_impact_keys].
        apply (bucket_member rules paths k x). now exists v.
      * now apply unmapped_member in Hx.
    + intros Hx. destruct (owner_of rules x) as [k|] eqn:Eo.
      * left. destruct (proj2 (bucket_member rules paths k x) (conj Hx Eo))
          as [fs [Hg Hin]].
        apply in_concat. exists fs. split; [|assumption].
        apply in_map_iff. exists (k, fs). split; [reflexivity|].
        now apply dict_get_In.
      * right. apply unmapped_member. now split.
Qed.

(** [impacted_services] lists, in increasing order and once each, the
    services that own a changed path. *)
Theorem impacted_services_are_the_owners :
  forall (rules : list Rule) (paths : list str),
    let r := compute_impact rules paths in
    strictly_sorted (impacted_services r) = true
    /\ forall svc,
         In svc (impacted_services r)
         <-> exists p, In p paths /\ owner_of rules p = Some svc.
Proof.
  intros rules paths r. split.
  - apply strictly_sorted_intro;
      [apply sorted_StronglySorted | apply sorted_NoDup, compute_impact_keys].
  - intros svc. unfold impacted_services. rewrite sorted_In. split.
    + intros Hin. apply in_map_iff in Hin. destruct Hin as [[k fs] [E Hin]].
      simpl in E. subst k.
      apply In_dict_get in Hin; [|apply compute_impact_keys].
      pose proof Hin as Hg.
      unfold r in Hg. rewrite (proj1 (compute_impact_buckets rules paths)) in Hg.
      destruct (filter (owned_by rules (Some svc)) paths) as [|p l] eqn:E;
        [discriminate|].
      exists p.
      assert (Hp : In p (filter (owned_by rules (Some svc)) paths))
        by (rewrite E; now left).
      apply filter_In in Hp. now rewrite owned_by_Some in Hp.
    + intros [p [Hp Ho]].
      destruct (proj2 (bucket_member rules paths svc p) (conj Hp Ho))
        as [fs [Hg _]].
      apply in_map_iff. exists (svc, fs). split; [reflexivity|].
      now apply dict_get_In.
Qed.

Lemma str_in_snoc (p q : str) (l : list str) :
  str_in p (l ++ [q]) = str_in p l || str_eqb p q.
Proof. unfold str_in. rewrite existsb_app. simpl. now rewrite orb_false_r. Qed.

Lemma last_opt_map {A B} (f : A -> B) (l : list A) :
  last_opt (map f l) = option_map f (last_opt l).
Proof.
  destruct l as [|x l] using rev_ind; [reflexivity|].
  rewrite map_app. simpl. now rewrite !last_opt_snoc.
Qed.

Lemma owner_is_last_candidate (rules : list Rule) (p : str) :
  owner_of rules p = last_opt (map service (candidates rules p)).
Proof.
  rewrite last_opt_map. unfold owner_of, Match_service, candidates. simpl.
  now destruct (last_opt (match_loop rules p)).
Qed.

Lemma unowned_no_candidate (rules : list Rule) (p : str) :
  owner_of rules p = None -> candidates rules p = [].
Proof.
  rewrite owner_is_last_candidate, last_opt_map.
  destruct (last_opt (candidates rules p)) eqn:E; [discriminate|].
  intros _. now apply last_opt_None.
Qed.

Lemma overlaps_loop (rules : list Rule) (paths : list str) (p : str) :
  dict_get (overlaps (fold_left (impact_step rules) paths empty_report)) p
  = if str_in p paths && (1 <? length (candidates rules p))
    then Some (map service (candidates rules p))
    else None.
Proof.
  induction paths as [|q paths IH] using rev_ind; [reflexivity|].
  rewrite fold_left_app, str_in_snoc. simpl.
  set (acc := fold_left (impact_step rules) paths empty_report) in *.
  unfold impact_step. fold (owner_of rules q). fold (candidates rules q).
  destruct (str_eqb p q) eqn:Epq.
  - apply str_eqb_eq in Epq. subst q. rewrite orb_true_r. simpl.
    destruct (owner_of rules p) eqn:Eo; simpl.
    + destruct (1 <? length (candidates rules p)) eqn:E1.
      * apply dict_get_set_same.
      * rewrite IH. now rewrite andb_false_r.
    + rewrite IH, (unowned_no_candidate _ _ Eo). simpl.
      now rewrite andb_false_r.
  - rewrite orb_false_r. apply str_eqb_neq in Epq.
    destruct (owner_of rules q); simpl; [|exact IH].
    destruct (1 <? length (candidates rules q)); [|exact IH].
    rewrite dict_get_set_other by congruence. exact IH.
Qed.

(** [overlaps] has an entry for a changed path exactly when more than one
    rule matches it, whether or not the rules name different services;
    the entry lists the services of the matching rules in rule order, and
    its last element is the service that owns the path. *)
Theorem overlaps_lists_all_candidates :
  forall (rules : list Rule) (paths : list str) (p : str),
    dict_get (overlaps (compute_impact rules paths)) p
    = (if str_in p paths && (1 <? length (candidates rules p))
       then Some (map service (candidates rules p))
       else None)
    /\ last_opt (map service (candidates rules p)) = owner_of rules p.
Proof.
  intros rules paths p. split.
  - apply overlaps_loop.
  - symmetry. apply owner_is_last_candidate.
Qed.

Lemma impact_no_rules (paths : list str) :
  fold_left (impact_step []) paths empty_report
  = {| services_to_files := []; unmapped_files := paths; overlaps := [] |}.
Proof.
  induction paths as [|p paths IH] using rev_ind; [reflexivity|].
  now rewrite fold_left_app, IH.
Qed.

(** With no rule at all every changed path is unmapped: the report has
    no service, no overlap, and the distinct paths in increasing order. *)
Theorem impact_without_rules :
  forall paths : list str,
    compute_impact [] paths
    = {| services_to_files := [];
         unmapped_files := sorted (py_set paths);
         overlaps := [] |}
    /\ total_files (compute_impact [] paths) = length (py_set paths)
    /\ impacted_services (compute_impact [] paths) = [].
Proof.
  intros paths. unfold compute_impact. rewrite impact_no_rules. simpl.
  repeat split. unfold total_files. simpl.
  apply Permutation_length, NoDup_Permutation.
  - apply sorted_NoDup, NoDup_nodup.
  - apply NoDup_nodup.
  - intros x. apply sorted_In.
Qed.

(** ** lint.py: the other checks *)

Lemma lint_rules_parts git rules services strict cm co repo_root res :
  lint_rules git rules services strict cm co repo_root = Some res ->
  exists i1 i2,
    opt_in git cm "--check-matches" repo_root (matches_check strict rules)
    = Some i1
    /\ opt_in git co "--check-overlaps" repo_root (overlaps_check rules)
       = Some i2
    /\ issues res
       = duplicate_check strict rules
         ++ services_check strict rules
              (match services with Some d => d | None => [] end)
         ++ i1 ++ i2.
Proof.
  unfold lint_rules.
  destruct (opt_in git cm _ repo_root _) as [i1|]; [|discriminate].
  destruct (opt_in git co _ repo_root _) as [i2|]; [|discriminate].
  intros [= <-]. exists i1, i2. simpl. now rewrite <- app_assoc.
Qed.

Lemma duplicate_check_coded strict rules :
  Forall (well_coded strict [DUPLICATE_PATTERN]) (duplicate_check strict rules).
Proof.
  rewrite duplicate_check_spec.
  eapply Forall_impl; [|apply conflict_issues_code].
  intros i [Hc Hs]. unfold well_coded.
  destruct i as [sev code msg f l h]. simpl in *.
  destruct code; try discriminate Hc. split; [assumption | now left].
Qed.

Lemma services_check_coded strict rules services :
  Forall (well_coded strict [UNKNOWN_SERVICE; SERVICE_HAS_NO_CONTACT])
    (services_check strict rules services).
Proof.
  unfold services_check. destruct services as [|kv services]; [constructor|].
  apply Forall_app. split; apply Forall_forall; intros i Hi;
    apply in_map_iff in Hi; destruct Hi as [x [<- _]];
    split; simpl; auto.
Qed.

Lemma matches_check_coded strict rules tracked :
  Forall (well_coded strict [PATTERN_MATCHES_NOTHING])
    (matches_check strict rules tracked).
Proof.
  apply Forall_forall. intros i Hi. apply in_map_iff in Hi.
  destruct Hi as [x [<- _]]. split; simpl; auto.
Qed.

Lemma overlaps_check_coded strict rules tracked :
  Forall (well_coded strict [OVERLAPPING_RULES]) (overlaps_check rules tracked).
Proof.
  unfold overlaps_check. destruct (overlap_scan rules 25 [] tracked);
    repeat constructor.
Qed.

Lemma well_coded_more strict codes more (l : list Issue) :
  Forall (well_coded strict codes) l ->
  Forall (well_coded strict (more ++ codes)) l.
Proof.
  apply Forall_impl. intros i [Hs Hc]. split; [assumption|].
  apply in_app_iff. now right.
Qed.

Lemma opt_in_coded strict git requested flag repo_root check codes iss :
  (forall tracked, Forall (well_coded strict codes) (check tracked)) ->
  opt_in git requested flag repo_root check = Some iss ->
  Forall (well_coded strict ([GIT_REQUIRED; GIT_ERROR] ++ codes)) iss.
Proof.
  intros Hc. unfold opt_in, tracked_files.
  destruct requested; [|intros [= <-]; constructor].
  destruct repo_root as [root|];
    [|intros [= <-]; repeat constructor; simpl; auto].
  destruct (git root); intros [= <-]; simpl.
  - apply (well_coded_more strict codes [GIT_REQUIRED; GIT_ERROR]), Hc.
  - constructor; [split; simpl; auto|].
    apply (well_coded_more strict codes [GIT_REQUIRED; GIT_ERROR]), Hc.
Qed.

(** The severity of an issue follows from its code: [strict] turns into
    errors the duplicate patterns, the unknown services and the patterns
    that match nothing, and nothing else; a service without contact and
    overlapping rules are always warnings, git problems always errors. *)
Theorem severity_follows_code :
  forall git rules services strict check_matches check_overlaps repo_root res,
    lint_rules git rules services strict check_matches check_overlaps repo_root
    = Some res ->
    Forall (fun i => issue_severity i = severity_of strict (issue_code i))
      (issues res).
Proof.
  intros git rules services strict cm co repo_root res Hres.
  destruct (lint_rules_parts _ _ _ _ _ _ _ _ Hres) as [i1 [i2 [E1 [E2 ->]]]].
  repeat (apply Forall_app; split).
  - eapply Forall_impl; [|apply duplicate_check_coded]. now intros i [H _].
  - eapply Forall_impl; [|apply services_check_coded]. now intros i [H _].
  - eapply Forall_impl;
      [|apply (opt_in_coded strict _ _ _ _ _ _ _
                 (matches_check_coded strict rules) E1)].
    now intros i [H _].
  - eapply Forall_impl;
      [|apply (opt_in_coded strict _ _ _ _ _ _ _
                 (overlaps_check_coded strict rules) E2)].
    now intros i [H _].
Qed.

Lemma severity_follows_code_witness :
  Forall (fun i => issue_severity i = severity_of true (issue_code i))
    (duplicate_check true two_services_rules
     ++ [git_required_issue "--check-overlaps"]).
Proof.
  apply (severity_follows_code no_git two_services_rules None true
           false true None
           {| issues := duplicate_check true two_services_rules
                        ++ [git_required_issue "--check-overlaps"] |}).
  vm_compute. reflexivity.
Defined.

Lemma has_code_eq (c : IssueCode) (i : Issue) :
  has_code c i = true <-> issue_code i = c.
Proof.
  unfold has_code. destruct c, (issue_code i); split; congruence.
Qed.

Lemma coded_filter_in strict c (l : list Issue) :
  Forall (well_coded strict [c]) l -> filter (has_code c) l = l.
Proof.
  intros H. apply filter_all. eapply Forall_impl; [|exact H].
  intros i [_ [Hc|[]]]. now apply has_code_eq.
Qed.

Lemma coded_filter_out strict codes c (l : list Issue) :
  Forall (well_coded strict codes) l -> ~ In c codes ->
  filter (has_code c) l = [].
Proof.
  intros H Hc. apply filter_none. eapply Forall_impl; [|exact H].
  intros i [_ Hi]. destruct (has_code c i) eqn:E; [|reflexivity].
  apply has_code_eq in E. now subst c.
Qed.

Lemma coded_no_error codes (l : list Issue) :
  Forall (well_coded false codes) l ->
  Forall (fun c => severity_of false c = WARN) codes ->
  existsb is_error l = false.
Proof.
  intros H Hw. induction H as [|i l [Hs Hc] _ IH]; simpl; [reflexivity|].
  rewrite IH, orb_false_r. unfold is_error. rewrite Hs.
  rewrite Forall_forall in Hw. now rewrite (Hw _ Hc).
Qed.

Ltac code_out :=
  simpl; intros H;
  repeat (destruct H as [H|H]; [discriminate H|]); exact H.

(** The metadata checks.  With services metadata that is absent or
    empty, [lint_rules] reports no unknown service and no service without
    contact, whatever the rules name.  Otherwise the UNKNOWN_SERVICE
    issues are, in rule order, one for each rule whose service is no key
    of the metadata, and the SERVICE_HAS_NO_CONTACT issues, in metadata
    order, one for each service with no owner, no slack and no email. *)
Theorem metadata_checks :
  forall git rules services strict check_matches check_overlaps repo_root res,
    lint_rules git rules services strict check_matches check_overlaps repo_root
    = Some res ->
    let known := match services with Some d => d | None => [] end in
    filter (has_code UNKNOWN_SERVICE) (issues res)
    = (if truth known
       then map (unknown_service_issue strict)
              (filter (fun r => negb (dict_mem known (service r))) rules)
       else [])
    /\ filter (has_code SERVICE_HAS_NO_CONTACT) (issues res)
       = map (fun kv => no_contact_issue (fst kv))
           (filter (fun kv => has_no_contact (snd kv)) known).
Proof.
  intros git rules services strict cm co repo_root res Hres known.
  destruct (lint_rules_parts _ _ _ _ _ _ _ _ Hres) as [i1 [i2 [E1 [E2 ->]]]].
  fold known.
  pose proof (opt_in_coded strict _ _ _ _ _ _ _
                (matches_check_coded strict rules) E1) as C1.
  pose proof (opt_in_coded strict _ _ _ _ _ _ _
                (overlaps_check_coded strict rules) E2) as C2.
  pose proof (duplicate_check_coded strict rules) as C0.
  rewrite !filter_app.
  rewrite (coded_filter_out _ _ UNKNOWN_SERVICE _ C0) by code_out.
  rewrite (coded_filter_out _ _ UNKNOWN_SERVICE _ C1) by code_out.
  rewrite (coded_filter_out _ _ UNKNOWN_SERVICE _ C2) by code_out.
  rewrite (coded_filter_out _ _ SERVICE_HAS_NO_CONTACT _ C0) by code_out.
  rewrite (coded_filter_out _ _ SERVICE_HAS_NO_CONTACT _ C1) by code_out.
  rewrite (coded_filter_out _ _ SERVICE_HAS_NO_CONTACT _ C2) by code_out.
  rewrite !app_nil_r. simpl.
  unfold services_check. destruct known as [|kv known']; [now split|].
  set (d := kv :: known'). simpl truth. cbv iota.
  rewrite !filter_app. split.
  - rewrite (filter_all (has_code UNKNOWN_SERVICE)
               (map (unknown_service_issue strict) _)).
    + rewrite (filter_none (has_code UNKNOWN_SERVICE)
                 (map (fun kv0 => no_contact_issue (fst kv0)) _));
        [now rewrite app_nil_r|].
      apply Forall_forall. intros i Hi. apply in_map_iff in Hi.
      now destruct Hi as [x [<- _]].
    + apply Forall_forall. intros i Hi. apply in_map_iff in Hi.
      now destruct Hi as [x [<- _]].
  - rewrite (filter_none (has_code SERVICE_HAS_NO_CONTACT)
               (map (unknown_service_issue strict) _)).
    + simpl. apply filter_all.
      apply Forall_forall. intros i Hi. apply in_map_iff in Hi.
      now destruct Hi as [x [<- _]].
    + apply Forall_forall. intros i Hi. apply in_map_iff in Hi.
      now destruct Hi as [x [<- _]].
Qed.

Lemma metadata_checks_witness :
  let known :=
    [(L "api", {| owners := []; contact_slack := Some (L "");
                  contact_email := None |})] in
  let res :=
    {| issues := duplicate_check false two_services_rules
                 ++ services_check false two_services_rules known |} in
  filter (has_code UNKNOWN_SERVICE) (issues res)
  = (if truth known
     then map (unknown_service_issue false)
            (filter (fun r => negb (dict_mem known (service r)))
               two_services_rules)
     else [])
  /\ filter (has_code SERVICE_HAS_NO_CONTACT) (issues res)
     = map (fun kv => no_contact_issue (fst kv))
         (filter (fun kv => has_no_contact (snd kv)) known).
Proof.
  intros known res.
  apply (metadata_checks no_git two_services_rules (Some known) false false
           false None res).
  vm_compute. reflexivity.
Defined.

Lemma opt_in_listed git flag root check files :
  git root = GitFiles files ->
  opt_in git true flag (Some root) check = Some (check files).
Proof. intros G. unfold opt_in, tracked_files. now rewrite G. Qed.

Lemma opt_in_failed git flag root check msg :
  git root = GitFailed msg ->
  opt_in git true flag (Some root) check
  = Some (git_error_issue msg :: check []).
Proof. intros G. unfold opt_in, tracked_files. now rewrite G. Qed.

Lemma opt_in_tracked git flag root check iss :
  opt_in git true flag (Some root) check = Some iss ->
  exists git_iss,
    iss = git_iss ++ check (tracked_of (git root))
    /\ Forall (fun i => has_code GIT_ERROR i = true) git_iss.
Proof.
  unfold opt_in, tracked_files.
  destruct (git root) as [files|msg|]; intros [= <-].
  - now exists [].
  - exists [git_error_issue msg]. split; [reflexivity|]. now repeat constructor.
Qed.

(** The check of [--check-matches] with a repository root.  The
    PATTERN_MATCHES_NOTHING issues are, in rule order, one for each rule
    whose compiled pattern matches none of the tracked files.  When the
    listing of the tracked files fails with a [GitError], the check goes
    on with no file: every rule is reported as matching nothing, next to
    the GIT_ERROR issue that carries the message. *)
Theorem unmatched_patterns :
  forall git rules services strict check_overlaps root res,
    lint_rules git rules services strict true check_overlaps (Some root)
    = Some res ->
    filter (has_code PATTERN_MATCHES_NOTHING) (issues res)
    = map (matches_nothing_issue strict)
        (filter (matches_nothing (tracked_of (git root))) rules)
    /\ (forall msg,
          git root = GitFailed msg ->
          filter (has_code PATTERN_MATCHES_NOTHING) (issues res)
          = map (matches_nothing_issue strict) rules
          /\ In (git_error_issue msg) (issues res)).
Proof.
  intros git rules services strict co root res Hres.
  destruct (lint_rules_parts _ _ _ _ _ _ _ _ Hres) as [i1 [i2 [E1 [E2 ->]]]].
  pose proof (opt_in_coded strict _ _ _ _ _ _ _
                (overlaps_check_coded strict rules) E2) as C2.
  pose proof (duplicate_check_coded strict rules) as C0.
  pose proof (services_check_coded strict rules
                (match services with Some d => d | None => [] end)) as C1.
  destruct (opt_in_tracked _ _ _ _ _ E1) as [gi [-> Hgi]].
  assert (E : filter (has_code PATTERN_MATCHES_NOTHING)
                (duplicate_check strict rules
                 ++ services_check strict rules
                      (match services with Some d => d | None => [] end)
                 ++ (gi ++ matches_check strict rules (tracked_of (git root)))
                 ++ i2)
              = matches_check strict rules (tracked_of (git root))).
  { rewrite !filter_app.
    rewrite (coded_filter_out _ _ PATTERN_MATCHES_NOTHING _ C0) by code_out.
    rewrite (coded_filter_out _ _ PATTERN_MATCHES_NOTHING _ C1) by code_out.
    rewrite (coded_filter_out _ _ PATTERN_MATCHES_NOTHING _ C2) by code_out.
    rewrite (filter_none (has_code PATTERN_MATCHES_NOTHING) gi).
    - rewrite app_nil_r. simpl.
      apply (coded_filter_in strict), matches_check_coded.
    - eapply Forall_impl; [|exact Hgi]. intros i Hi.
      apply has_code_eq in Hi. unfold has_code. now rewrite Hi. }
  split; [exact E|].
  intros msg G. split.
  - rewrite E, G. unfold matches_check. simpl. f_equal.
    apply filter_all. now apply Forall_forall.
  - rewrite (opt_in_failed _ _ _ _ _ G) in E1. injection E1 as E1.
    rewrite <- E1. apply in_or_app. right. apply in_or_app. right.
    apply in_or_app. left. now left.
Qed.

Lemma unmatched_patterns_witness :
  let res :=
    {| issues := duplicate_check true two_services_rules
                 ++ git_error_issue (L "fatal")
                    :: map (matches_nothing_issue true) two_services_rules |} in
  filter (has_code PATTERN_MATCHES_NOTHING) (issues res)
  = map (matches_nothing_issue true) two_services_rules
  /\ In (git_error_issue (L "fatal")) (issues res).
Proof.
  intros res.
  apply (proj2 (unmatched_patterns git_down two_services_rules None true false
                  (L "repo") res eq_refl) (L "fatal")).
  reflexivity.
Defined.

Lemma overlap_scan_spec rules cap tracked :
  forall examples,
    length examples < cap ->
    overlap_scan rules cap examples tracked
    = firstn cap
        (examples
         ++ map (overlap_example rules) (filter (overlapping rules) tracked)).
Proof.
  induction tracked as [|f tracked IH]; intros examples Hlen.
  - simpl. rewrite app_nil_r. symmetry. apply firstn_all2. lia.
  - cbn [overlap_scan filter].
    change ((1 <? length (match_matches (OwnershipIndex_match rules f)))
            && (1 <? length
                       (py_set (map service
                                  (match_matches
                                     (OwnershipIndex_match rules f))))))
      with (overlapping rules f).
    destruct (overlapping rules f); [|now apply IH].
    change (f ++ L " -> "
              ++ join (L ", ")
                   (map service (match_matches (OwnershipIndex_match rules f))))
      with (overlap_example rules f).
    cbn [map]. rewrite (app_assoc examples [overlap_example rules f]
                          (map (overlap_example rules)
                             (filter (overlapping rules) tracked))
                        : examples ++ overlap_example rules f :: _ = _).
    match goal with
    | |- (if ?c then _ else _) = _ => destruct c eqn:E
    end.
    + apply Nat.leb_le in E. rewrite firstn_app.
      rewrite length_app in *. simpl in *.
      replace (cap - (length examples + 1)) with 0 by lia.
      simpl. rewrite app_nil_r.
      symmetry. apply firstn_all2. rewrite length_app. simpl. lia.
    + apply Nat.leb_gt in E. now apply IH.
Qed.

Lemma overlaps_check_spec rules tracked :
  overlaps_check rules tracked
  = match filter (overlapping rules) tracked with
    | [] => []
    | hits => [overlapping_issue (firstn 25 (map (overlap_example rules) hits))]
    end.
Proof.
  unfold overlaps_check. rewrite overlap_scan_spec by (simpl; lia). simpl.
  now destruct (filter (overlapping rules) tracked).
Qed.

(** The check of [--check-overlaps] with a repository root.  A tracked
    file counts when more than one rule matches it and these rules name
    more than one service.  [lint_rules] reports no OVERLAPPING_RULES
    issue when no tracked file counts, and otherwise exactly one, a
    warning whose examples are the first 25 such files in the order of the
    listing, each with the services of all the rules that match it. *)
Theorem overlap_scan_first_25 :
  forall git rules services strict check_matches root res,
    lint_rules git rules services strict check_matches true (Some root)
    = Some res ->
    filter (has_code OVERLAPPING_RULES) (issues res)
    = match filter (overlapping rules) (tracked_of (git root)) with
      | [] => []
      | hits =>
          [overlapping_issue (firstn 25 (map (overlap_example rules) hits))]
      end.
Proof.
  intros git rules services strict cm root res Hres.
  destruct (lint_rules_parts _ _ _ _ _ _ _ _ Hres) as [i1 [i2 [E1 [E2 ->]]]].
  pose proof (opt_in_coded strict _ _ _ _ _ _ _
                (matches_check_coded strict rules) E1) as C2.
  pose proof (duplicate_check_coded strict rules) as C0.
  pose proof (services_check_coded strict rules
                (match services with Some d => d | None => [] end)) as C1.
  destruct (opt_in_tracked _ _ _ _ _ E2) as [gi [-> Hgi]].
  rewrite !filter_app.
  rewrite (coded_filter_out _ _ OVERLAPPING_RULES _ C0) by code_out.
  rewrite (coded_filter_out _ _ OVERLAPPING_RULES _ C1) by code_out.
  rewrite (coded_filter_out _ _ OVERLAPPING_RULES _ C2) by code_out.
  rewrite (filter_none (has_code OVERLAPPING_RULES) gi).
  - simpl. rewrite <- overlaps_check_spec.
    apply (coded_filter_in strict), overlaps_check_coded.
  - eapply Forall_impl; [|exact Hgi]. intros i Hi.
    apply has_code_eq in Hi. unfold has_code. now rewrite Hi.
Qed.

Lemma overlap_scan_first_25_witness :
  let res :=
    {| issues := duplicate_check false two_services_rules
                 ++ overlaps_check two_services_rules [L "src/a"] |} in
  filter (has_code OVERLAPPING_RULES) (issues res)
  = match filter (overlapping two_services_rules) [L "src/a"] with
    | [] => []
    | hits =>
        [overlapping_issue
           (firstn 25 (map (overlap_example two_services_rules) hits))]
    end.
Proof.
  intros res.
  apply (overlap_scan_first_25 git_one_file two_services_rules None false
           false (L "repo") res).
  vm_compute. reflexivity.
Defined.

(** ** cli.py and action_runner.py: the exit codes *)

Lemma checks_no_error rules services :
  existsb is_error (duplicate_check false rules) = false
  /\ existsb is_error (services_check false rules services) = false
  /\ (forall tracked,
        existsb is_error (matches_check false rules tracked) = false)
  /\ (forall tracked, existsb is_error (overlaps_check rules tracked) = false).
Proof.
  repeat split; intros.
  - apply (coded_no_error _ _ (duplicate_check_coded false rules)).
    now repeat constructor.
  - apply (coded_no_error _ _ (services_check_coded false rules services)).
    now repeat constructor.
  - apply (coded_no_error _ _ (matches_check_coded false rules tracked)).
    now repeat constructor.
  - apply (coded_no_error _ _ (overlaps_check_coded false rules tracked)).
    now repeat constructor.
Qed.

Lemma no_issue_no_flag (l : list Issue) :
  existsb is_error l = false ->
  existsb (fun i => negb (is_error i)) l = false ->
  l = [].
Proof.
  destruct l as [|i l]; [reflexivity|]. simpl.
  destruct (is_error i); simpl; discriminate.
Qed.

(** The exit code of [sowners lint].  Without [--strict] it depends on
    git alone: it is 2 when an opt-in check is asked for and the listing
    of the tracked files fails with a [GitError], and 0 otherwise,
    whatever the rules and the metadata hold; an exception of the listing
    other than [GitError] leaves the command.  With [--strict] it is 0
    exactly when [lint_rules] finds no issue at all. *)
Theorem cmd_lint_exit_codes :
  (forall git rules services check_matches check_overlaps repo_root,
     cmd_lint git rules services false check_matches check_overlaps repo_root
     = if check_matches || check_overlaps
       then match git repo_root with
            | GitFiles _ => Some 0
            | GitFailed _ => Some 2
            | GitCrashed => None
            end
       else Some 0)
  /\ (forall git rules services check_matches check_overlaps repo_root,
        cmd_lint git rules services true check_matches check_overlaps repo_root
        = Some 0
        <-> lint_rules git rules (Some services) false check_matches
              check_overlaps (Some repo_root)
            = Some {| issues := [] |}).
Proof.
  split.
  - intros git rules services cm co root.
    destruct (checks_no_error rules services) as [H0 [H1 [H2 H3]]].
    unfold cmd_lint, lint_rules, opt_in, tracked_files, has_errors.
    destruct cm, co, (git root); simpl;
      rewrite ?existsb_app; simpl; rewrite ?existsb_app;
      rewrite ?H0, ?H1, ?H2, ?H3, ?orb_true_r; reflexivity.
  - intros git rules services cm co root. unfold cmd_lint.
    destruct (lint_rules git rules (Some services) false cm co (Some root))
      as [[iss]|]; [|split; discriminate].
    unfold has_errors, has_warnings. simpl.
    destruct (existsb is_error iss) eqn:He.
    + split; [discriminate|]. intros [= ->]. discriminate He.
    + destruct (existsb (fun i => negb (is_error i)) iss) eqn:Hw.
      * split; [discriminate|]. intros [= ->]. discriminate Hw.
      * split; [|reflexivity]. intros _.
        now rewrite (no_issue_no_flag _ He Hw).
Qed.



(** ** lint.py: when the duplicate check is silent *)

Lemma first_with_app (p : str) (l1 l2 : list Rule) :
  first_with p (l1 ++ l2)
  = match first_with p l1 with
    | Some f => Some f
    | None => first_with p l2
    end.
Proof.
  unfold first_with. induction l1 as [|x l1 IH]; simpl; [reflexivity|].
  now destruct (str_eqb (pattern x) p).
Qed.

Lemma conflicting_nil (rest : list Rule) :
  forall pre,
    conflicting pre rest = []
    <-> (forall l1 r l2,
           rest = l1 ++ r :: l2 -> conflicts (pre ++ l1) r = false).
Proof.
  induction rest as [|x rest IH]; intros pre; simpl.
  - split; [|reflexivity]. intros _ [|y l1] r l2 H; discriminate H.
  - split.
    + intros H. apply app_eq_nil in H. destruct H as [Hx Hrest].
      intros [|y l1] r l2 E; simpl in E; injection E as -> ->.
      * rewrite app_nil_r. now destruct (conflicts pre r).
      * rewrite (app_assoc pre [y] l1 : pre ++ y :: l1 = _).
        now apply (proj1 (IH (pre ++ [y])) Hrest l1 r l2).
    + intros H. 
      rewrite (proj2 (IH (pre ++ [x]))).
      * pose proof (H [] x rest eq_refl) as Hx. rewrite app_nil_r in Hx.
        now rewrite Hx.
      * intros l1 r l2 ->. rewrite <- app_assoc. now apply (H (x :: l1) r l2).
Qed.

Lemma conflict_issues_nil (strict : bool) (pre rest : list Rule) :
  conflict_issues strict pre rest = [] <-> conflicting pre rest = [].
Proof.
  pose proof (conflict_issues_where strict rest pre) as H.
  split; intros E; rewrite E in H; simpl in H.
  - symmetry in H. now apply map_eq_nil in H.
  - now apply map_eq_nil in H.
Qed.

Lemma no_conflict_agree (rules : list Rule) :
  (forall l1 r l2, rules = l1 ++ r :: l2 -> conflicts l1 r = false)
  <-> patterns_agree rules.
Proof.
  split.
  - intros H.
    assert (Hf : forall r, In r rules ->
                   exists f, first_with (pattern r) rules = Some f
                             /\ service f = service r).
    { intros r Hin. apply in_split in Hin. destruct Hin as [l1 [l2 E]].
      pose proof (H l1 r l2 E) as Hc. unfold conflicts in Hc.
      rewrite E, first_with_app.
      destruct (first_with (pattern r) l1) as [f|].
      - exists f. split; [reflexivity|].
        now apply negb_false_iff, str_eqb_eq in Hc.
      - exists r. split; [|reflexivity].
        unfold first_with. simpl. now rewrite str_eqb_refl. }
    intros r1 r2 H1 H2 Hp.
    destruct (Hf r1 H1) as [f1 [E1 S1]]. destruct (Hf r2 H2) as [f2 [E2 S2]].
    rewrite Hp in E1. congruence.
  - intros H l1 r l2 E. unfold conflicts.
    destruct (first_with (pattern r) l1) as [f|] eqn:Ef; [|reflexivity].
    destruct (first_with_pattern _ _ _ Ef) as [Hp Hin].
    apply negb_false_iff, str_eqb_eq. apply H.
    + rewrite E. apply in_or_app. now left.
    + rewrite E. apply in_or_app. right. now left.
    + exact Hp.
Qed.

(** The duplicate check is silent exactly on rule sets in which a raw
    pattern never names two services: [lint_rules] gives no
    DUPLICATE_PATTERN issue if and only if any two rules with the same
    raw pattern have the same service.  Repeating a rule, or a pattern
    with the same service, is never reported. *)
Theorem duplicates_silent_iff_agree :
  forall git rules services strict check_matches check_overlaps repo_root res,
    lint_rules git rules services strict check_matches check_overlaps repo_root
    = Some res ->
    (filter (has_code DUPLICATE_PATTERN) (issues res) = []
     <-> patterns_agree rules).
Proof.
  intros git rules services strict cm co repo_root res Hres.
  destruct (lint_rules_parts _ _ _ _ _ _ _ _ Hres) as [i1 [i2 [E1 [E2 ->]]]].
  pose proof (opt_in_coded strict _ _ _ _ _ _ _
                (matches_check_coded strict rules) E1) as C1.
  pose proof (opt_in_coded strict _ _ _ _ _ _ _
                (overlaps_check_coded strict rules) E2) as C2.
  pose proof (services_check_coded strict rules
                (match services with Some d => d | None => [] end)) as C0.
  rewrite !filter_app.
  rewrite (coded_filter_out _ _ DUPLICATE_PATTERN _ C0) by code_out.
  rewrite (coded_filter_out _ _ DUPLICATE_PATTERN _ C1) by code_out.
  rewrite (coded_filter_out _ _ DUPLICATE_PATTERN _ C2) by code_out.
  rewrite !app_nil_r.
  rewrite (coded_filter_in strict _ _ (duplicate_check_coded strict rules)).
  rewrite duplicate_check_spec, conflict_issues_nil, conflicting_nil.
  apply no_conflict_agree.
Qed.

Lemma duplicates_silent_iff_agree_witness :
  filter (has_code DUPLICATE_PATTERN)
    (issues {| issues := duplicate_check true two_services_rules |}) = []
  <-> patterns_agree two_services_rules.
Proof.
  apply (duplicates_silent_iff_agree no_git two_services_rules None true
           false false None
           {| issues := duplicate_check true two_services_rules |}).
  vm_compute. reflexivity.
Defined.

(** ** serviceowners_file.py: the parsed rules *)

Lemma no_space_app (a b : str) :
  no_space (a ++ b) = no_space a && no_space b.
Proof. apply forallb_app. Qed.

Lemma split_from_pieces (s : str) :
  forall acc,
    no_space acc = true ->
    Forall (fun w => w <> [] /\ no_space w = true) (split_from acc s).
Proof.
  induction s as [|c t IH]; intros acc Hacc; simpl.
  - destruct acc; [constructor|]. constructor; [|constructor].
    split; [discriminate | assumption].
  - destruct (isspace c) eqn:Ec.
    + destruct acc as [|a acc']; [now apply IH|].
      constructor; [split; [discriminate | assumption]|]. now apply IH.
    + apply IH. rewrite no_space_app, Hacc. simpl. now rewrite Ec.
Qed.

Lemma rstrip_by_none (p : ascii -> bool) (w : str) :
  forallb (fun c => negb (p c)) w = true -> rstrip_by p w = w.
Proof.
  induction w as [|c t IH]; simpl; [reflexivity|].
  intros H. apply andb_true_iff in H. destruct H as [Hc Ht].
  rewrite (IH Ht). apply negb_true_iff in Hc. rewrite Hc. now destruct t.
Qed.

Lemma strip_no_space (w : str) : no_space w = true -> strip w = w.
Proof.
  intros H. unfold strip.
  assert (E : lstrip_by isspace w = w).
  { destruct w as [|c t]; [reflexivity|]. simpl in *.
    apply andb_true_iff in H. destruct H as [Hc _].
    apply negb_true_iff in Hc. now rewrite Hc. }
  rewrite E. now apply rstrip_by_none.
Qed.

Lemma split_pieces (s : str) :
  Forall (fun w => w <> [] /\ no_space w = true) (split s).
Proof. now apply split_from_pieces. Qed.

Lemma parse_loop_no_empty_service (src : str) (lines : list str) :
  forall rules idx,
    match parse_loop src rules idx lines with
    | Raises (ParseError_empty_service _ _) => False
    | Unmodelled => False
    | _ => True
    end.
Proof.
  induction lines as [|raw_line lines IH]; intros rules idx; simpl;
    [exact I|].
  destruct (line_content raw_line) as [ln|]; [|apply IH].
  pose proof (split_pieces ln) as Hp.
  destruct (split ln) as [|p [|s [|x cols]]]; try exact I.
  inversion Hp as [|? ? [_ Hp1] Hp2]; subst.
  inversion Hp2 as [|? ? [Hs1 Hs2] _]; subst.
  rewrite (strip_no_space _ Hp1), (strip_no_space _ Hs2).
  destruct s as [|c s]; [now contradiction Hs1|]. simpl.
  pose proof (compile_pattern_modelled p) as Hm.
  destruct (compile_pattern p) as [c0|e|]; [apply IH | exact I | now apply Hm].
Qed.

(** The columns [str.split()] gives hold no whitespace and are not
    empty, so stripping them again changes nothing and the check for an
    empty service name can not fire: whatever the text,
    [parse_serviceowners_text] returns rules or raises one of the two
    other parse errors, never the error for an empty service name. *)
Theorem empty_service_never_raised :
  (forall s, Forall (fun w => strip w = w /\ w <> []) (split s))
  /\ (forall text src,
        match parse_serviceowners_text text src with
        | Raises (ParseError_empty_service _ _) => False
        | Unmodelled => False
        | _ => True
        end).
Proof.
  split.
  - intros s. eapply Forall_impl; [|apply split_pieces].
    intros w [Hn Hs]. split; [now apply strip_no_space | assumption].
  - intros text src. apply parse_loop_no_empty_service.
Qed.

Lemma read_from_later src raw_line lines idx r :
  read_from src lines (S idx) r -> read_from src (raw_line :: lines) idx r.
Proof.
  intros [Hs [Hl [[raw' [Hn Hc]] Hp]]]. repeat split; try assumption; [lia|].
  exists raw'. split; [|assumption].
  replace (line r - idx) with (S (line r - S idx)) by lia. exact Hn.
Qed.

Lemma parse_loop_rules (src : str) (lines : list str) :
  forall rules0 idx rules,
    parse_loop src rules0 idx lines = Returns rules ->
    exists new,
      rules = rules0 ++ new
      /\ length new = length (filter has_content lines)
      /\ StronglySorted lt (map line new)
      /\ Forall (read_from src lines idx) new.
Proof.
  induction lines as [|raw_line lines IH]; intros rules0 idx rules; simpl.
  - intros [= <-]. exists []. rewrite app_nil_r.
    repeat split; constructor.
  - unfold has_content at 1.
    destruct (line_content raw_line) as [ln|] eqn:El.
    + pose proof (split_pieces ln) as Hp.
      destruct (split ln) as [|p [|s [|x cols]]] eqn:Es; try discriminate.
      inversion Hp as [|? ? [_ Hp1] Hp2]; subst.
      inversion Hp2 as [|? ? [Hs1 Hs2] _]; subst.
      rewrite (strip_no_space _ Hp1), (strip_no_space _ Hs2).
      destruct (is_empty s); [discriminate|].
      destruct (compile_pattern p) as [c|e|] eqn:Ec; try discriminate.
      intros H. destruct (IH _ _ _ H) as [new [-> [Hlen [Hsort Hall]]]].
      set (r := {| pattern := p; service := s; line := idx; source := src;
                   compiled := c |}).
      exists (r :: new). rewrite <- app_assoc. simpl.
      split; [reflexivity|]. split; [now rewrite Hlen|]. split.
      * constructor; [assumption|].
        apply Forall_forall. intros n Hn. apply in_map_iff in Hn.
        destruct Hn as [r' [<- Hr']].
        rewrite Forall_forall in Hall.
        destruct (Hall r' Hr') as [_ [Hle _]]. lia.
      * constructor.
        -- repeat split; simpl; try lia; try assumption.
           exists raw_line. rewrite Nat.sub_diag. simpl.
           split; [reflexivity|]. now rewrite El, <- Es.
        -- eapply Forall_impl; [|exact Hall].
           intros r' Hr'. now apply read_from_later.
    + intros H. destruct (IH _ _ _ H) as [new [-> [Hlen [Hsort Hall]]]].
      exists new. repeat split; try assumption.
      eapply Forall_impl; [|exact Hall].
      intros r' Hr'. now apply read_from_later.
Qed.

(** The rules [parse_serviceowners_text] returns follow the lines of the
    text.  There is one rule for each line that is left with content once
    blank lines and comments are taken away; the rules come in the order
    of the lines, with strictly increasing line numbers counted from 1;
    each rule has the source name given to the parser, its pattern and
    its service are the two whitespace-separated columns of its line,
    neither is empty nor holds whitespace, and its compiled pattern is
    what [compile_pattern] returns for its pattern. *)
Theorem parsed_rules_follow_lines :
  forall text src rules,
    parse_serviceowners_text text src = Returns rules ->
    length rules = length (filter has_content (splitlines text))
    /\ StronglySorted lt (map line rules)
    /\ Forall (fun r =>
                 source r = src
                 /\ columns_at (splitlines text) (line r)
                    = Some [pattern r; service r]
                 /\ compile_pattern (pattern r) = Returns (compiled r)
                 /\ pattern r <> [] /\ no_space (pattern r) = true
                 /\ service r <> [] /\ no_space (service r) = true)
         rules.
Proof.
  intros text src rules H. unfold parse_serviceowners_text in H.
  destruct (parse_loop_rules _ _ _ _ _ H) as [new [-> [Hlen [Hsort Hall]]]].
  simpl. repeat split; try assumption.
  eapply Forall_impl; [|exact Hall].
  intros r [Hs [Hl [[raw_line [Hn Hc]] Hp]]].
  assert (Hcol : columns_at (splitlines text) (line r)
                 = Some [pattern r; service r]).
  { unfold columns_at. destruct (line r) as [|k]; [lia|].
    replace (S k - 1) with k in Hn by lia. now rewrite Hn. }
  destruct (line_content raw_line) as [ln|]; [|discriminate].
  injection Hc as Hc. pose proof (split_pieces ln) as Hpieces.
  rewrite Hc in Hpieces.
  inversion Hpieces as [|? ? [Hp1 Hp2] Hrest]; subst.
  inversion Hrest as [|? ? [Hs1 Hs2] _]; subst.
  repeat split; assumption.
Qed.

Lemma parsed_rules_follow_lines_witness :
  let text := lines_text ["# rules"; "src/** api  # one"; ""; "*.md docs"]%string in
  let rules := rules_of_text text in
  length rules = length (filter has_content (splitlines text))
  /\ StronglySorted lt (map line rules)
  /\ Forall (fun r =>
               source r = L "SERVICEOWNERS"
               /\ columns_at (splitlines text) (line r)
                  = Some [pattern r; service r]
               /\ compile_pattern (pattern r) = Returns (compiled r)
               /\ pattern r <> [] /\ no_space (pattern r) = true
               /\ service r <> [] /\ no_space (service r) = true)
       rules.
Proof.
  intros text rules.
  apply (parsed_rules_follow_lines text (L "SERVICEOWNERS") rules).
  vm_compute. reflexivity.
Defined.

(** ** impact.py: [file_count_for] *)

Lemma insert_sorted_length (x : str) (l : list str) :
  length (insert_sorted x l) = S (length l).
Proof.
  induction l as [|y l IH]; simpl; [reflexivity|].
  destruct (str_leb x y); simpl; [reflexivity | now rewrite IH].
Qed.

Lemma sorted_length (l : list str) : length (sorted l) = length l.
Proof.
  induction l as [|x l IH]; simpl; [reflexivity|].
  now rewrite insert_sorted_length, IH.
Qed.

(** [file_count_for] on a report of [compute_impact] counts the distinct
    changed paths the service owns; for a service that owns none, and so
    has no entry in the report, it is 0. *)
Theorem file_count_counts_owned_paths :
  forall (rules : list Rule) (paths : list str) (svc : str),
    file_count_for (compute_impact rules paths) svc
    = length (py_set (filter (owned_by rules (Some svc)) paths)).
Proof.
  intros rules paths svc. unfold file_count_for.
  rewrite (proj1 (compute_impact_buckets rules paths) svc).
  destruct (filter (owned_by rules (Some svc)) paths) as [|p fs];
    [reflexivity|].
  simpl option_map. cbv iota. now rewrite sorted_length.
Qed.

(** ** patterns.py: what normalisation forgets *)

Lemma replace_to_slash (s : str) :
  replace_chr "\" (L "/") s = map to_slash s.
Proof.
  unfold replace_chr. induction s as [|c s IH]; [reflexivity|].
  cbn [flat_map map]. rewrite IH. unfold to_slash.
  now destruct (chr_eqb c "\").
Qed.

Lemma isspace_to_slash (c : ascii) : isspace (to_slash c) = isspace c.
Proof.
  unfold to_slash. destruct (chr_eqb c "\") eqn:E; [|reflexivity].
  apply chr_eqb_eq in E. now subst c.
Qed.

Lemma lstrip_to_slash (s : str) :
  lstrip_by isspace (map to_slash s) = map to_slash (lstrip_by isspace s).
Proof.
  induction s as [|c s IH]; [reflexivity|].
  cbn [map lstrip_by]. rewrite isspace_to_slash.
  now destruct (isspace c).
Qed.

Lemma rstrip_to_slash (s : str) :
  rstrip_by isspace (map to_slash s) = map to_slash (rstrip_by isspace s).
Proof.
  induction s as [|c s IH]; [reflexivity|].
  cbn [map rstrip_by]. rewrite IH, isspace_to_slash.
  destruct (rstrip_by isspace s); cbn [map]; [|reflexivity].
  now destruct (isspace c).
Qed.

Lemma strip_to_slash (s : str) :
  strip (map to_slash s) = map to_slash (strip s).
Proof. unfold strip. now rewrite lstrip_to_slash, rstrip_to_slash. Qed.

Lemma to_slash_twice (s : str) :
  map to_slash (map to_slash s) = map to_slash s.
Proof.
  rewrite map_map. apply map_ext. intros c. unfold to_slash.
  destruct (chr_eqb c "\") eqn:E; [reflexivity | now rewrite E].
Qed.

Lemma normalize_to_slash (p : str) :
  _normalize_pattern (replace_chr "\" (L "/") p) = _normalize_pattern p.
Proof.
  unfold _normalize_pattern.
  rewrite !replace_to_slash, strip_to_slash.
  destruct (strip p) as [|c s]; [reflexivity|].
  now rewrite to_slash_twice.
Qed.

Lemma pattern_matches_normalized (p q path : str) :
  match _normalize_pattern p, _normalize_pattern q with
  | Returns n, Returns m => n = m
  | Returns _, _ | _, Returns _ => False
  | _, _ => True
  end ->
  pattern_matches p path = pattern_matches q path.
Proof.
  unfold pattern_matches, compile_pattern.
  destruct (_normalize_pattern p) as [n|e|];
    destruct (_normalize_pattern q) as [m|e'|]; try contradiction;
    try reflexivity.
  intros ->. now destruct (Re.compile (anchored m)).
Qed.

Lemma no_backslash_contains (s : str) :
  no_backslash s = true -> contains "\" s = false.
Proof.
  unfold no_backslash, contains. induction s as [|x l IH]; [reflexivity|].
  cbn [forallb existsb]. intros H. apply andb_true_iff in H.
  destruct H as [Hx Hl]. rewrite (IH Hl), orb_false_r.
  apply negb_true_iff in Hx. now rewrite chr_eqb_sym.
Qed.

(** A backslash in a pattern is a separator and never an escape:
    a pattern and the pattern with every backslash turned into a slash
    are normalised to the same glob, so they compile alike and match the
    same paths.  The normalised glob of a compiled pattern is not empty,
    holds no backslash and does not end with a slash, and [raw] keeps the
    pattern as given. *)
Theorem backslash_is_separator :
  (forall p path,
     pattern_matches (replace_chr "\" (L "/") p) path = pattern_matches p path)
  /\ (forall p,
        match compile_pattern p with
        | Returns cp =>
            raw cp = p
            /\ _normalize_pattern p = Returns (normalized cp)
            /\ normalized cp <> []
            /\ contains "\" (normalized cp) = false
            /\ endswith_chr "/" (normalized cp) = false
        | _ => True
        end).
Proof.
  split.
  - intros p path. apply pattern_matches_normalized.
    rewrite normalize_to_slash. now destruct (_normalize_pattern p).
  - intros p. destruct (compile_pattern p) as [cp| |] eqn:E; try exact I.
    destruct (compile_pattern_Returns _ _ E) as [Hn _].
    assert (Hraw : raw cp = p).
    { unfold compile_pattern in E. rewrite Hn in E.
      destruct (Re.compile (anchored (normalized cp))); try discriminate.
      now injection E as <-. }
    split; [exact Hraw|]. split; [exact Hn|].
    pose proof (normalize_no_backslash _ _ Hn) as Hb.
    unfold _normalize_pattern in Hn.
    destruct (strip p) as [|c s]; [discriminate|].
    set (q := strip_leading_slash
                (strip_dot_slash (replace_chr "\" (L "/") (c :: s)))) in *.
    destruct q as [|d q'] eqn:Eq; [discriminate|].
    destruct (endswith_chr "/" (d :: q')) eqn:Ee; injection Hn as Hn;
      rewrite <- Hn.
    + repeat split.
      * intros H. apply app_eq_nil in H. destruct H as [_ H]. discriminate H.
      * apply no_backslash_contains. now rewrite Hn.
      * unfold endswith_chr. rewrite rev_app_distr. reflexivity.
    + repeat split.
      * discriminate.
      * apply no_backslash_contains. now rewrite Hn.
      * exact Ee.
Qed.

Lemma rstrip_by_cons_keep (p : ascii -> bool) (c : ascii) (t : str) :
  p c = false -> rstrip_by p (c :: t) = c :: rstrip_by p t.
Proof. intros H. simpl. rewrite H. now destruct (rstrip_by p t). Qed.

Lemma normalize_from (c : ascii) (t : str) :
  isspace c = false ->
  _normalize_pattern (c :: t)
  = let q := strip_leading_slash
               (strip_dot_slash
                  (map to_slash (c :: rstrip_by isspace t))) in
    match q with
    | [] => Raises PatternSyntaxError_root
    | _ :: _ =>
        if endswith_chr "/" q then Returns (rstrip_slash q ++ L "/**")
        else Returns q
    end.
Proof.
  intros Hc. unfold _normalize_pattern, strip. cbn [lstrip_by]. rewrite Hc.
  rewrite (rstrip_by_cons_keep _ _ _ Hc). now rewrite replace_to_slash.
Qed.

Lemma slash_not_space : isspace "/" = false.
Proof. reflexivity. Qed.

Lemma dot_not_space : isspace "." = false.
Proof. reflexivity. Qed.

(** What is left of a pattern that starts with a character of its own
    once the leading [./] and [/] would be taken away: itself. *)
Lemma starts_plain_kept (c : ascii) (t : str) :
  starts_plain (c :: t) = true ->
  isspace c = false
  /\ strip_leading_slash
       (strip_dot_slash (map to_slash (c :: rstrip_by isspace t)))
     = map to_slash (c :: rstrip_by isspace t).
Proof.
  unfold starts_plain. intros H.
  apply andb_true_iff in H. destruct H as [H H4].
  apply andb_true_iff in H. destruct H as [H H3].
  apply andb_true_iff in H. destruct H as [H1 H2].
  apply negb_true_iff in H1, H2, H3, H4.
  split; [exact H1|].
  assert (Ec : to_slash c = c) by (unfold to_slash; now rewrite H3).
  cbn [map]. rewrite Ec.
  assert (Ed : strip_dot_slash (c :: map to_slash (rstrip_by isspace t))
               = c :: map to_slash (rstrip_by isspace t)).
  { destruct (chr_eqb c ".") eqn:Edot.
    - cbn [andb] in H4.
      destruct t as [|d t']; [reflexivity|].
      destruct (isspace d) eqn:Esd.
      + assert (Hd : chr_eqb (to_slash d) "/" = false).
        { unfold to_slash. destruct (chr_eqb d "\") eqn:E.
          - apply chr_eqb_eq in E. subst d. discriminate Esd.
          - apply orb_false_iff in H4. now destruct H4. }
        cbn [rstrip_by]. rewrite Esd.
        destruct (rstrip_by isspace t') as [|x l]; cbn [map];
          [reflexivity|].
        cbn [strip_dot_slash]. now rewrite Hd, andb_false_r.
      + rewrite (rstrip_by_cons_keep _ _ _ Esd). cbn [map strip_dot_slash].
        assert (Hd : chr_eqb (to_slash d) "/" = false).
        { unfold to_slash. apply orb_false_iff in H4.
          destruct H4 as [Ha Hb]. now rewrite Hb. }
        now rewrite Hd, andb_false_r.
    - destruct (map to_slash (rstrip_by isspace t)) as [|x l];
        [reflexivity|].
      cbn [strip_dot_slash]. now rewrite Edot. }
  rewrite Ed. unfold strip_leading_slash. now rewrite H2.
Qed.

(** A leading slash does not anchor a pattern: it is dropped before the
    choice between a root-anchored glob and a basename glob is made.
    For a pattern that begins with a character of its own (no
    whitespace, no separator, no [./]), the pattern, the pattern after a
    [/] and the pattern after [./] match the same paths; so [/name]
    matches [name] in any directory, as [name] does. *)
Theorem leading_slash_does_not_anchor :
  forall p path,
    starts_plain p = true ->
    pattern_matches ("/"%char :: p) path = pattern_matches p path
    /\ pattern_matches ("."%char :: "/"%char :: p) path
       = pattern_matches p path.
Proof.
  intros p path Hp.
  destruct p as [|c t].
  - split; reflexivity.
  - destruct (starts_plain_kept _ _ Hp) as [Hc Hq].
    pose proof (normalize_from c t Hc) as Np. cbv zeta in Np. rewrite Hq in Np.
    assert (N1 : _normalize_pattern ("/"%char :: c :: t)
                 = _normalize_pattern (c :: t)).
    { rewrite (normalize_from "/" (c :: t) slash_not_space). cbv zeta.
      rewrite (rstrip_by_cons_keep _ _ _ Hc), Np.
      change (map to_slash ("/"%char :: c :: rstrip_by isspace t))
        with ("/"%char :: map to_slash (c :: rstrip_by isspace t)).
      assert (E : strip_leading_slash
                    (strip_dot_slash
                       ("/"%char :: map to_slash (c :: rstrip_by isspace t)))
                  = map to_slash (c :: rstrip_by isspace t)).
      { cbn [map strip_dot_slash]. reflexivity. }
      now rewrite E. }
    assert (N2 : _normalize_pattern ("."%char :: "/"%char :: c :: t)
                 = _normalize_pattern (c :: t)).
    { rewrite (normalize_from "." ("/"%char :: c :: t) dot_not_space).
      cbv zeta.
      rewrite (rstrip_by_cons_keep _ _ _ slash_not_space).
      rewrite (rstrip_by_cons_keep _ _ _ Hc), Np.
      change (map to_slash ("."%char :: "/"%char :: c :: rstrip_by isspace t))
        with ("."%char :: "/"%char
                :: map to_slash (c :: rstrip_by isspace t)).
      assert (E : strip_dot_slash
                    ("."%char :: "/"%char
                       :: map to_slash (c :: rstrip_by isspace t))
                  = strip_dot_slash
                      (map to_slash (c :: rstrip_by isspace t)))
        by reflexivity.
      now rewrite E, Hq. }
    split; apply pattern_matches_normalized.
    + rewrite N1. now destruct (_normalize_pattern (c :: t)).
    + rewrite N2. now destruct (_normalize_pattern (c :: t)).
Qed.

Lemma leading_slash_does_not_anchor_witness :
  pattern_matches (L "/README") (L "docs/README")
  = pattern_matches (L "README") (L "docs/README")
  /\ pattern_matches (L "./README") (L "docs/README")
     = pattern_matches (L "README") (L "docs/README").
Proof.
  apply (leading_slash_does_not_anchor (L "README") (L "docs/README")).
  reflexivity.
Defined.

(** ** patterns.py: globs without [**] and brackets *)

Lemma simple_tokens_loop (fuel : nat) :
  forall n : str,
    length n <= fuel ->
    contains "[" n = false ->
    has_double_star n = false ->
    glob_tokens_loop fuel n = map simple_token n.
Proof.
  induction fuel as [|fuel IH]; intros n Hlen Hb Hs.
  - destruct n; [reflexivity | simpl in Hlen; lia].
  - destruct n as [|c rest]; [reflexivity|].
    assert (Hrest : glob_tokens_loop fuel rest = map simple_token rest).
    { apply IH.
      - simpl in Hlen. lia.
      - unfold contains in *. cbn [existsb] in Hb.
        apply orb_false_iff in Hb. now destruct Hb.
      - destruct rest as [|d r]; [reflexivity|].
        cbn [has_double_star] in Hs. apply orb_false_iff in Hs.
        now destruct Hs. }
    cbn [glob_tokens_loop map]. unfold simple_token at 1.
    destruct (chr_eqb c "*") eqn:E1.
    + destruct rest as [|d r]; [now rewrite Hrest|].
      cbn [has_double_star] in Hs. rewrite E1 in Hs. cbn [andb] in Hs.
      apply orb_false_iff in Hs. destruct Hs as [Hd _]. rewrite Hd.
      now rewrite Hrest.
    + destruct (chr_eqb c "?") eqn:E2; [now rewrite Hrest|].
      unfold contains in Hb. cbn [existsb] in Hb.
      apply orb_false_iff in Hb. destruct Hb as [Hc _].
      rewrite chr_eqb_sym in Hc. rewrite Hc. now rewrite Hrest.
Qed.

Lemma simple_tokens (n : str) :
  contains "[" n = false -> has_double_star n = false ->
  glob_tokens n = map simple_token n.
Proof. intros. now apply simple_tokens_loop. Qed.

Lemma simple_tokens_classfree (n : str) :
  existsb is_class (map simple_token n) = false.
Proof.
  induction n as [|c n IH]; [reflexivity|].
  cbn [map existsb]. rewrite IH, orb_false_r. unfold simple_token.
  destruct (chr_eqb c "*"); [reflexivity|].
  now destruct (chr_eqb c "?").
Qed.

Lemma count_chr_app (c : ascii) (a b : str) :
  count_chr c (a ++ b) = count_chr c a + count_chr c b.
Proof. unfold count_chr. now rewrite filter_app, length_app. Qed.

Lemma not_slash_accepts (c : ascii) :
  Re.accepts not_slash c = negb (chr_eqb "/" c).
Proof.
  destruct (Re.accepts not_slash c) eqn:E.
  - symmetry. apply negb_true_iff.
    now apply (accepted_not_slash not_slash c).
  - destruct (chr_eqb "/" c) eqn:Ec; [reflexivity|].
    exfalso. revert E Ec. unfold not_slash. cbn [Re.accepts existsb].
    unfold Re.in_item. rewrite orb_false_r.
    rewrite (chr_eqb_sym c "/"). intros E Ec. rewrite Ec in E. discriminate E.
Qed.

Lemma not_slash_run (s : str) :
  forallb (Re.accepts not_slash) s = true -> count_chr "/" s = 0.
Proof.
  induction s as [|c s IH]; [reflexivity|].
  cbn [forallb]. intros H. apply andb_true_iff in H. destruct H as [Hc Hs].
  rewrite not_slash_accepts in Hc. apply negb_true_iff in Hc.
  unfold count_chr in *. cbn [filter]. rewrite Hc. now apply IH.
Qed.

Lemma simple_items_slashes (n : str) :
  forall (rest : list Re.regex) (s : str) (b : bool)
         (k : str -> bool -> bool),
    Re.mtch (Re.seq_of (map item_of (map simple_token n) ++ rest)) s b k
    = true ->
    exists s1 s2 b',
      s = s1 ++ s2
      /\ count_chr "/" s1 = count_chr "/" n
      /\ Re.mtch (Re.seq_of rest) s2 b' k = true.
Proof.
  induction n as [|c n IH]; intros rest s b k H.
  - now exists [], s, b.
  - cbn [map app Re.seq_of Re.mtch] in H. unfold simple_token at 1 in H.
    destruct (chr_eqb c "*") eqn:E1; [|destruct (chr_eqb c "?") eqn:E2];
      cbn [item_of Re.mtch] in H.
    + apply star_k_split in H. destruct H as [m [s' [b' [-> [Hm H]]]]].
      destruct (IH _ _ _ _ H) as [s1 [s2 [b2 [-> [Hc Hk]]]]].
      exists (m ++ s1), s2, b2. rewrite app_assoc.
      split; [reflexivity|]. split; [|assumption].
      rewrite count_chr_app, (not_slash_run _ Hm), Hc.
      apply chr_eqb_eq in E1. subst c. reflexivity.
    + destruct s as [|d s']; [discriminate|].
      apply andb_true_iff in H. destruct H as [Hd H].
      destruct (IH _ _ _ _ H) as [s1 [s2 [b2 [-> [Hc Hk]]]]].
      exists (d :: s1), s2, b2. split; [reflexivity|]. split; [|assumption].
      rewrite not_slash_accepts in Hd. apply negb_true_iff in Hd.
      apply chr_eqb_eq in E2. subst c.
      unfold count_chr in *. cbn [filter]. now rewrite Hd.
    + destruct s as [|d s']; [discriminate|].
      apply andb_true_iff in H. destruct H as [Hd H].
      destruct (IH _ _ _ _ H) as [s1 [s2 [b2 [-> [Hc Hk]]]]].
      exists (d :: s1), s2, b2. split; [reflexivity|]. split; [|assumption].
      cbn [Re.accepts] in Hd. apply chr_eqb_eq in Hd. subst d.
      unfold count_chr in *. cbn [filter].
      destruct (chr_eqb "/" c); cbn [length]; now rewrite Hc.
Qed.

Lemma at_end_no_slash (s : str) :
  Re.at_end s = true -> count_chr "/" s = 0.
Proof.
  destruct s as [|c [|d s]]; try discriminate; [reflexivity|].
  cbn [Re.at_end]. intros H. apply chr_eqb_eq in H. now subst c.
Qed.

(** A single star and a question mark never cross a directory boundary.
    For a pattern whose normalised glob has a slash, no bracket and no
    run of two stars, every path it matches has exactly as many slashes
    as the glob: it lies at the depth the pattern spells out. *)
Theorem single_star_keeps_depth :
  forall p cp path,
    compile_pattern p = Returns cp ->
    contains "/" (normalized cp) = true ->
    contains "[" (normalized cp) = false ->
    has_double_star (normalized cp) = false ->
    matches cp path = true ->
    count_chr "/" path = count_chr "/" (normalized cp).
Proof.
  intros p cp path Hcp Hslash Hbr Hss Hm.
  destruct (compile_pattern_Returns _ _ Hcp) as [_ Hre].
  set (n := normalized cp) in *.
  assert (Hcf : has_class n = false).
  { unfold has_class. rewrite (simple_tokens _ Hbr Hss).
    apply simple_tokens_classfree. }
  rewrite (compile_classfree _ Hcf) in Hre. injection Hre as Hre.
  unfold matches, Re.match_ in Hm. rewrite <- Hre in Hm.
  unfold anchor_of in Hm. rewrite Hslash in Hm.
  rewrite (simple_tokens _ Hbr Hss) in Hm.
  cbn [Re.seq_of Re.mtch andb] in Hm.
  destruct (simple_items_slashes n [Re.REol] path true _ Hm)
    as [s1 [s2 [b' [-> [Hc Hend]]]]].
  cbn [Re.seq_of Re.mtch] in Hend.
  apply andb_true_iff in Hend. destruct Hend as [Hend _].
  now rewrite count_chr_app, Hc, (at_end_no_slash _ Hend), Nat.add_0_r.
Qed.

Lemma single_star_keeps_depth_witness :
  count_chr "/" (L "src/a.py") = count_chr "/" (normalized src_py_pattern).
Proof.
  apply (single_star_keeps_depth (L "src/*.py") src_py_pattern (L "src/a.py"));
    reflexivity.
Defined.

(** ** patterns.py: globs without wildcards *)

Lemma plain_tokens (n : str) :
  forallb glob_plain n = true -> glob_tokens n = map TLit n.
Proof.
  intros H. unfold glob_tokens.
  rewrite <- (app_nil_r n) at 2.
  rewrite (glob_tokens_literals n (length n) [] H)
    by (rewrite app_nil_r; lia).
  rewrite Nat.sub_diag. destruct n; simpl; now rewrite ?app_nil_r.
Qed.

(** A pattern without wildcards that names a path matches that path
    and nothing else, but for one quirk of [$]: for a pattern whose
    normalised glob has a slash and none of [*], [?] and [[], [matches]
    holds of a path exactly when the path is the glob itself, or the glob
    followed by one newline. *)
Theorem literal_pattern_matches_itself :
  forall p cp path,
    compile_pattern p = Returns cp ->
    contains "/" (normalized cp) = true ->
    forallb glob_plain (normalized cp) = true ->
    matches cp path
    = str_eqb path (normalized cp)
      || str_eqb path (normalized cp ++ [Re.newline]).
Proof.
  intros p cp path Hcp Hslash Hplain.
  destruct (compile_pattern_Returns _ _ Hcp) as [_ Hre].
  set (n := normalized cp) in *.
  assert (Hcf : has_class n = false).
  { unfold has_class. rewrite (plain_tokens _ Hplain).
    apply literals_not_class. }
  rewrite (compile_classfree _ Hcf) in Hre. injection Hre as Hre.
  unfold matches, Re.match_. rewrite <- Hre.
  unfold anchor_of. rewrite Hslash, (plain_tokens _ Hplain), item_of_literals.
  cbn [Re.seq_of Re.mtch andb]. rewrite mtch_literals_prefix.
  destruct (drop_prefix n path) as [s'|] eqn:E.
  - apply drop_prefix_spec in E. subst path.
    cbn [Re.seq_of Re.mtch]. rewrite andb_true_r.
    destruct s' as [|c [|d s']]; cbn [Re.at_end].
    + rewrite app_nil_r, str_eqb_refl. reflexivity.
    + destruct (chr_eqb c Re.newline) eqn:Ec.
      * apply chr_eqb_eq in Ec. subst c. now rewrite str_eqb_refl, orb_true_r.
      * symmetry. apply orb_false_iff. split; apply str_eqb_neq; intros H.
        -- rewrite <- (app_nil_r n) in H at 2.
           apply app_inv_head in H. discriminate H.
        -- apply app_inv_head in H. injection H as ->.
           now rewrite chr_eqb_refl in Ec.
    + symmetry. apply orb_false_iff. split; apply str_eqb_neq; intros H.
      * rewrite <- (app_nil_r n) in H at 2.
        apply app_inv_head in H. discriminate H.
      * apply app_inv_head in H. discriminate H.
  - symmetry. apply orb_false_iff. split; apply str_eqb_neq; intros H.
    + assert (E' : drop_prefix n path = Some [])
        by (apply drop_prefix_spec; now rewrite app_nil_r).
      congruence.
    + assert (E' : drop_prefix n path = Some [Re.newline])
        by now apply drop_prefix_spec.
      congruence.
Qed.

Lemma literal_pattern_matches_itself_witness :
  matches readme_pattern (L "docs/README.md")
  = str_eqb (L "docs/README.md") (normalized readme_pattern)
    || str_eqb (L "docs/README.md")
         (normalized readme_pattern ++ [Re.newline]).
Proof.
  apply (literal_pattern_matches_itself (L "docs/README.md") readme_pattern
           (L "docs/README.md")); reflexivity.
Defined.

(** ** services_file.py and markdown.py: owners given as strings *)

(** An owner given as a string is kept as it is: whichever of team, user
    and email [OwnerRef.from_obj] files the string under, [display] gives
    the string back, and the owners line of a service whose owners are
    strings is these strings, the empty ones left out, joined by a comma
    and a space. *)
Theorem owner_strings_round_trip :
  (forall s, display (OwnerRef_from_obj s) = s)
  /\ (forall names,
        _owners_line (map OwnerRef_from_obj names)
        = join (L ", ") (filter (fun s => negb (is_empty s)) names)).
Proof.
  assert (D : forall s, display (OwnerRef_from_obj s) = s).
  { intros s. unfold OwnerRef_from_obj.
    destruct (contains "@" s && contains "." s && negb (contains " " s)
              && negb (startswith (L "@") s));
      [|destruct (startswith (L "@") s)]; now destruct s. }
  split; [exact D|].
  intros names. unfold _owners_line.
  assert (E : map display
                (filter (fun o => negb (is_empty (display o)))
                   (map OwnerRef_from_obj names))
              = filter (fun s => negb (is_empty s)) names).
  { induction names as [|s names IH]; [reflexivity|].
    cbn [map filter]. rewrite (D s).
    destruct (negb (is_empty s)); cbn [map]; now rewrite ?D, IH. }
  rewrite E. destruct names as [|s names]; [reflexivity|].
  cbn [map]. now destruct (filter (fun s0 => negb (is_empty s0)) (s :: names)).
Qed.

(** ** gitutils.py: reading the output of git *)

Lemma split_chr_from_name (sep : ascii) (n : str) :
  forall acc rest,
    contains sep n = false ->
    split_chr_from sep acc (n ++ sep :: rest)
    = (acc ++ n) :: split_chr_from sep [] rest.
Proof.
  induction n as [|c n IH]; intros acc rest H.
  - cbn [app split_chr_from]. now rewrite chr_eqb_refl, app_nil_r.
  - unfold contains in H. cbn [existsb] in H. apply orb_false_iff in H.
    destruct H as [Hc Hn]. cbn [app split_chr_from].
    rewrite chr_eqb_sym, Hc. rewrite (IH _ _ Hn). now rewrite <- app_assoc.
Qed.

Lemma split_chr_from_parts (sep : ascii) (s : str) :
  forall acc,
    contains sep acc = false ->
    Forall (fun p => contains sep p = false) (split_chr_from sep acc s).
Proof.
  induction s as [|c s IH]; intros acc H; cbn [split_chr_from].
  - now repeat constructor.
  - destruct (chr_eqb c sep) eqn:E.
    + constructor; [assumption | now apply IH].
    + apply IH. unfold contains in *. rewrite existsb_app, H.
      cbn [existsb orb]. now rewrite chr_eqb_sym, E.
Qed.

Lemma z_names_parts (names : list str) :
  forallb z_name names = true ->
  filter (fun p => negb (is_empty p))
    (split_chr_from NUL [] (flat_map (fun n => n ++ [NUL]) names))
  = names.
Proof.
  induction names as [|n names IH]; [reflexivity|].
  cbn [forallb flat_map]. intros H. apply andb_true_iff in H.
  destruct H as [Hn Hs]. unfold z_name in Hn. apply andb_true_iff in Hn.
  destruct Hn as [Hne Hz]. apply negb_true_iff in Hz.
  rewrite <- app_assoc. cbn [app].
  rewrite (split_chr_from_name NUL n [] _ Hz). cbn [app filter].
  rewrite Hne. now rewrite (IH Hs).
Qed.

(** [git_ls_files] reads back what [git ls-files -z] prints: from the
    names, each followed by a NUL, it gives exactly the names, whatever
    spaces or line breaks they hold; and whatever the output, no name it
    returns is empty or holds a NUL. *)
Theorem ls_files_round_trip :
  (forall names,
     forallb z_name names = true ->
     git_ls_files (flat_map (fun n => n ++ [NUL]) names) = names)
  /\ (forall out, forallb z_name (git_ls_files out) = true).
Proof.
  split.
  - intros names H. unfold git_ls_files, split_chr.
    rewrite (z_names_parts _ H).
    destruct names as [|n names]; [reflexivity|].
    cbn [flat_map]. destruct n; reflexivity.
  - intros out. unfold git_ls_files.
    destruct (is_empty out); [reflexivity|].
    apply forallb_forall. intros p Hp. apply filter_In in Hp.
    destruct Hp as [Hin Hne]. unfold z_name. rewrite Hne. cbn [andb].
    pose proof (split_chr_from_parts NUL out [] eq_refl) as Hparts.
    rewrite Forall_forall in Hparts. now rewrite (Hparts p Hin).
Qed.

Lemma ls_files_round_trip_witness :
  git_ls_files (flat_map (fun n => n ++ [NUL]) [L "src/a b.py"; L "README"])
  = [L "src/a b.py"; L "README"].
Proof.
  apply (proj1 ls_files_round_trip [L "src/a b.py"; L "README"]).
  reflexivity.
Defined.

Lemma splitlines_from_name (n : str) :
  forall acc rest,
    forallb (fun c => negb (is_linebreak c)) n = true ->
    splitlines_from acc (n ++ Re.newline :: rest)
    = (acc ++ n) :: splitlines_from [] rest.
Proof.
  induction n as [|c n IH]; intros acc rest H.
  - cbn [app]. rewrite app_nil_r. reflexivity.
  - cbn [forallb] in H. apply andb_true_iff in H. destruct H as [Hc Hn].
    apply negb_true_iff in Hc. cbn [app splitlines_from].
    assert (Hcr : chr_eqb c cr = false).
    { destruct (chr_eqb c cr) eqn:E; [|reflexivity].
      apply chr_eqb_eq in E. subst c. discriminate Hc. }
    rewrite Hcr, Hc, (IH _ _ Hn). now rewrite <- app_assoc.
Qed.

(** [git_diff_name_only] reads back what [git diff --name-only] prints,
    one name on each line, for names that are not empty, hold no line
    break and have no whitespace around them: it gives exactly these
    names, in order. *)
Theorem diff_names_round_trip :
  forall names,
    forallb line_name names = true ->
    git_diff_name_only (flat_map (fun n => n ++ [Re.newline]) names) = names.
Proof.
  intros names. unfold git_diff_name_only, splitlines.
  induction names as [|n names IH]; [reflexivity|].
  cbn [forallb flat_map]. intros H. apply andb_true_iff in H.
  destruct H as [Hn Hs]. unfold line_name in Hn.
  apply andb_true_iff in Hn. destruct Hn as [Hn Hstrip].
  apply andb_true_iff in Hn. destruct Hn as [Hne Hlb].
  apply str_eqb_eq in Hstrip.
  rewrite <- app_assoc. cbn [app].
  rewrite (splitlines_from_name n [] _ Hlb). cbn [app filter].
  rewrite Hstrip, Hne. cbn [map]. now rewrite Hstrip, (IH Hs).
Qed.

Lemma diff_names_round_trip_witness :
  git_diff_name_only
    (flat_map (fun n => n ++ [Re.newline]) [L "src/a b.py"; L "README"])
  = [L "src/a b.py"; L "README"].
Proof.
  apply (diff_names_round_trip [L "src/a b.py"; L "README"]).
  reflexivity.
Defined.

(** ** cli.py: bootstrapping from CODEOWNERS *)

Lemma lower_chr_space (c : ascii) : isspace (lower_chr c) = isspace c.
Proof.
  destruct c as [b0 b1 b2 b3 b4 b5 b6 b7].
  destruct b0, b1, b2, b3, b4, b5, b6, b7; reflexivity.
Qed.

Lemma linebreak_is_space (c : ascii) :
  is_linebreak c = true -> isspace c = true.
Proof.
  destruct c as [b0 b1 b2 b3 b4 b5 b6 b7].
  destruct b0, b1, b2, b3, b4, b5, b6, b7; intros H;
    first [reflexivity | discriminate H].
Qed.

Lemma no_space_lower (s : str) : no_space (lower s) = no_space s.
Proof.
  unfold no_space, lower. induction s as [|c s IH]; [reflexivity|].
  cbn [map forallb]. now rewrite lower_chr_space, IH.
Qed.

Lemma no_space_replace (a b : ascii) (s : str) :
  isspace b = false -> no_space s = true ->
  no_space (replace_chr a [b] s) = true.
Proof.
  intros Hb. unfold no_space, replace_chr.
  induction s as [|c s IH]; [reflexivity|].
  cbn [flat_map forallb]. intros H. apply andb_true_iff in H.
  destruct H as [Hc Hs]. rewrite forallb_app, (IH Hs), andb_true_r.
  destruct (chr_eqb c a); cbn [forallb]; [now rewrite Hb | now rewrite Hc].
Qed.

Lemma no_space_lstrip (p : ascii -> bool) (s : str) :
  no_space s = true -> no_space (lstrip_by p s) = true.
Proof.
  destruct (lstrip_by_suffix p s) as [pre E]. intros H.
  rewrite E, no_space_app in H. apply andb_true_iff in H. now destruct H.
Qed.

Lemma no_space_rstrip (p : ascii -> bool) (s : str) :
  no_space s = true -> no_space (rstrip_by p s) = true.
Proof.
  destruct (rstrip_by_prefix p s) as [suf E]. intros H.
  rewrite E, no_space_app in H. apply andb_true_iff in H. now destruct H.
Qed.

Lemma no_space_split_chr (sep : ascii) (s : str) :
  forall acc,
    no_space acc = true -> no_space s = true ->
    Forall (fun w => no_space w = true) (split_chr_from sep acc s).
Proof.
  induction s as [|c s IH]; intros acc Ha Hs; cbn [split_chr_from].
  - now repeat constructor.
  - unfold no_space in Hs. cbn [forallb] in Hs. apply andb_true_iff in Hs.
    destruct Hs as [Hc Hs].
    destruct (chr_eqb c sep).
    + constructor; [assumption | now apply IH].
    + apply IH; [|assumption]. rewrite no_space_app, Ha.
      unfold no_space. cbn [forallb]. now rewrite Hc.
Qed.

Lemma infer_from_pattern_word (pat s : str) :
  no_space pat = true ->
  _infer_service_from_pattern pat = Some s ->
  s <> [] /\ no_space s = true.
Proof.
  intros Hp. unfold _infer_service_from_pattern.
  set (p := replace_chr "\" (L "/") _).
  assert (Hnp : no_space p = true).
  { unfold p. apply no_space_replace; [reflexivity|].
    rewrite (strip_no_space _ Hp).
    destruct (endswith_chr "/" (lstrip_by is_slash pat)).
    - apply no_space_rstrip. now apply no_space_lstrip.
    - now apply no_space_lstrip. }
  set (parts := filter (fun seg => negb (is_empty seg)) (split_chr "/" p)).
  destruct parts as [|x parts'] eqn:Eparts; [discriminate|].
  destruct (last_opt (filter is_literal (x :: parts'))) as [seg|] eqn:El;
    [|discriminate].
  assert (Hseg : no_space seg = true).
  { apply last_opt_split in El. destruct El as [pre El].
    assert (Hin : In seg (filter is_literal (x :: parts')))
      by (rewrite El; apply in_or_app; right; now left).
    apply filter_In in Hin. destruct Hin as [Hin _].
    rewrite <- Eparts in Hin. unfold parts in Hin.
    apply filter_In in Hin. destruct Hin as [Hin _].
    pose proof (no_space_split_chr "/" p [] eq_refl Hnp) as Hall.
    rewrite Forall_forall in Hall. now apply Hall. }
  set (r := lower (strip seg)).
  destruct (is_empty r) eqn:Ee; [discriminate|].
  intros [= <-]. split.
  - intros H. now rewrite H in Ee.
  - unfold r. now rewrite no_space_lower, (strip_no_space _ Hseg).
Qed.

Lemma infer_from_owner_word (owner s : str) :
  no_space owner = true ->
  _infer_service_from_owner owner = Some s ->
  s <> [] /\ no_space s = true.
Proof.
  intros Ho. unfold _infer_service_from_owner.
  rewrite (strip_no_space _ Ho).
  destruct (is_empty owner); [discriminate|].
  set (o1 := match owner with
             | c :: t => if chr_eqb c "@" then t else owner
             | [] => owner
             end).
  assert (H1 : no_space o1 = true).
  { unfold o1. destruct owner as [|c t]; [reflexivity|].
    destruct (chr_eqb c "@"); [|assumption].
    unfold no_space in Ho. cbn [forallb] in Ho.
    apply andb_true_iff in Ho. now destruct Ho. }
  set (o2 := match split_at_chr "/" o1 with
             | Some (_, rest) => rest
             | None => o1
             end).
  assert (H2 : no_space o2 = true).
  { unfold o2. destruct (split_at_chr "/" o1) as [[a b]|] eqn:E;
      [|assumption].
    apply split_at_chr_spec in E. destruct E as [E _].
    rewrite E, no_space_app in H1. apply andb_true_iff in H1.
    destruct H1 as [_ H1]. unfold no_space in H1. cbn [forallb] in H1.
    apply andb_true_iff in H1. now destruct H1. }
  set (r := lower (replace_chr "-" (L "_") o2)).
  destruct (is_empty r) eqn:Ee; [discriminate|].
  intros [= <-]. split.
  - intros H. now rewrite H in Ee.
  - unfold r. rewrite no_space_lower.
    now apply (no_space_replace "-" "_" o2).
Qed.

Lemma split_from_word (w : str) :
  forall acc rest,
    no_space w = true ->
    split_from acc (w ++ rest) = split_from (acc ++ w) rest.
Proof.
  induction w as [|c w IH]; intros acc rest H.
  - now rewrite app_nil_r.
  - unfold no_space in H. cbn [forallb] in H. apply andb_true_iff in H.
    destruct H as [Hc Hw]. apply negb_true_iff in Hc.
    cbn [app split_from]. rewrite Hc, (IH _ _ Hw). now rewrite <- app_assoc.
Qed.

Lemma split_two_words (pat svc : str) :
  pat <> [] -> no_space pat = true -> svc <> [] -> no_space svc = true ->
  split (pat ++ [tab] ++ svc) = [pat; svc].
Proof.
  intros Hp1 Hp2 Hs1 Hs2. unfold split.
  rewrite (split_from_word pat [] _ Hp2). cbn [app split_from].
  change (isspace tab) with true. cbv iota.
  destruct pat as [|c pat]; [now contradiction Hp1|].
  rewrite <- (app_nil_r svc) at 1.
  rewrite (split_from_word svc [] [] Hs2). cbn [app split_from].
  destruct svc; [now contradiction Hs1 | reflexivity].
Qed.

Lemma init_line_columns (raw_line ln : str) :
  init_line raw_line = Some ln ->
  exists pat owners,
    split (strip raw_line) = pat :: owners /\ owners <> []
    /\ two_columns pat ln.
Proof.
  unfold init_line.
  destruct (is_empty (strip raw_line) || startswith (L "#") (strip raw_line));
    [discriminate|].
  pose proof (split_pieces (strip raw_line)) as Hp.
  destruct (split (strip raw_line)) as [|pat [|owner rest]];
    try discriminate.
  inversion Hp as [|? ? [Hp1 Hp2] Hr]; subst.
  inversion Hr as [|? ? [Ho1 Ho2] _]; subst.
  intros [= <-]. exists pat, (owner :: rest).
  split; [reflexivity|]. split; [discriminate|].
  set (svc := match _infer_service_from_pattern pat with
              | Some s => s
              | None =>
                  match _infer_service_from_owner owner with
                  | Some s => s
                  | None => L "service"
                  end
              end).
  assert (Hsvc : svc <> [] /\ no_space svc = true).
  { unfold svc.
    destruct (_infer_service_from_pattern pat) as [s|] eqn:E1.
    - now apply (infer_from_pattern_word pat).
    - destruct (_infer_service_from_owner owner) as [s|] eqn:E2.
      + now apply (infer_from_owner_word owner).
      + split; [discriminate | reflexivity]. }
  destruct Hsvc as [Hs1 Hs2]. exists svc.
  split; [reflexivity|]. split; [assumption|]. split; [assumption|].
  now apply split_two_words.
Qed.

Lemma join_newline_lines (x : str) (lines : list str) :
  join [Re.newline] (x :: lines) ++ [Re.newline]
  = flat_map (fun n => n ++ [Re.newline]) (x :: lines).
Proof.
  revert x. induction lines as [|y lines IH]; intros x.
  - cbn [join flat_map]. now rewrite app_nil_r.
  - change (join [Re.newline] (x :: y :: lines))
      with (x ++ [Re.newline] ++ join [Re.newline] (y :: lines)).
    change (flat_map (fun n => n ++ [Re.newline]) (x :: y :: lines))
      with ((x ++ [Re.newline])
            ++ flat_map (fun n => n ++ [Re.newline]) (y :: lines)).
    rewrite <- (IH y). now rewrite <- !app_assoc.
Qed.

Lemma splitlines_lines (lines : list str) :
  Forall (fun n => forallb (fun c => negb (is_linebreak c)) n = true) lines ->
  splitlines_from [] (flat_map (fun n => n ++ [Re.newline]) lines) = lines.
Proof.
  induction 1 as [|n lines Hn _ IH]; [reflexivity|].
  cbn [flat_map]. rewrite <- app_assoc. cbn [app].
  rewrite (splitlines_from_name n [] _ Hn). cbn [app]. now rewrite IH.
Qed.

Lemma no_space_one_line (s : str) :
  no_space s = true -> forallb (fun c => negb (is_linebreak c)) s = true.
Proof.
  unfold no_space. induction s as [|c s IH]; [reflexivity|].
  cbn [forallb]. intros H. apply andb_true_iff in H. destruct H as [Hc Hs].
  rewrite (IH Hs), andb_true_r.
  destruct (is_linebreak c) eqn:E; [|reflexivity].
  apply linebreak_is_space in E. now rewrite E in Hc.
Qed.

Lemma init_lines_columns (lines : list str) (ln : str) :
  In ln (flat_map (fun raw_line =>
                     match init_line raw_line with
                     | Some l => [l]
                     | None => []
                     end) lines) ->
  exists raw_line pat owners,
    In raw_line lines /\ init_line raw_line = Some ln
    /\ split (strip raw_line) = pat :: owners /\ owners <> []
    /\ two_columns pat ln.
Proof.
  intros H. apply in_flat_map in H. destruct H as [raw_line [Hin H]].
  destruct (init_line raw_line) as [l|] eqn:E; [|contradiction].
  destruct H as [<-|[]].
  destruct (init_line_columns _ _ E) as [pat [owners [Hs [Ho Ht]]]].
  now exists raw_line, pat, owners.
Qed.

Lemma init_lines_all (txt : str) :
  Forall (fun ln =>
            exists raw_line pat owners,
              In raw_line (splitlines txt)
              /\ init_line raw_line = Some ln
              /\ split (strip raw_line) = pat :: owners
              /\ owners <> []
              /\ two_columns pat ln)
    (init_lines txt).
Proof. apply Forall_forall. intros ln Hin. now apply init_lines_columns. Qed.

Lemma init_text_lines (txt : str) :
  splitlines (init_text txt)
  = L "# Generated from CODEOWNERS" :: L "# pattern    service"
      :: init_lines txt.
Proof.
  unfold init_text, splitlines. cbn [app].
  rewrite join_newline_lines. apply splitlines_lines.
  constructor; [reflexivity|]. constructor; [reflexivity|].
  eapply Forall_impl; [|exact (init_lines_all txt)].
  intros ln [raw_line [pat [owners [_ [_ [Hs [_ [svc [-> [_ [Hsvc _]]]]]]]]]]].
  pose proof (split_pieces (strip raw_line)) as Hp. rewrite Hs in Hp.
  inversion Hp as [|? ? [_ Hpat] _]; subst.
  rewrite !forallb_app. rewrite (no_space_one_line _ Hpat).
  rewrite (no_space_one_line _ Hsvc). reflexivity.
Qed.

(** What [sowners init] writes.  Each line of CODEOWNERS that has a
    pattern and at least one owner gives one line of the output: the
    pattern, a tab and a service name.  The service name is never empty
    and holds no whitespace, so the line splits into exactly two columns,
    the first being the pattern as CODEOWNERS has it.  The lines of the
    whole output are the two header comments followed by these lines, in
    the order of CODEOWNERS. *)
Theorem init_writes_two_columns :
  forall txt,
    splitlines (init_text txt)
    = L "# Generated from CODEOWNERS" :: L "# pattern    service"
        :: init_lines txt
    /\ Forall (fun ln =>
                 exists raw_line pat owners,
                   In raw_line (splitlines txt)
                   /\ init_line raw_line = Some ln
                   /\ split (strip raw_line) = pat :: owners
                   /\ owners <> []
                   /\ two_columns pat ln)
         (init_lines txt).
Proof.
  intros txt. split.
  - apply init_text_lines.
  - apply init_lines_all.
Qed.

Lemma comment_loop_no_hash (rest : str) :
  forall in_quote seen,
    contains "#" rest = false ->
    comment_loop in_quote seen rest = rstrip (seen ++ rest).
Proof.
  induction rest as [|ch rest IH]; intros q seen H.
  - cbn [comment_loop]. now rewrite app_nil_r.
  - unfold contains in H. cbn [existsb] in H. apply orb_false_iff in H.
    destruct H as [Hc Hr]. cbn [comment_loop].
    rewrite chr_eqb_sym, Hc. cbn [andb].
    rewrite (IH _ _ Hr). now rewrite <- app_assoc.
Qed.

Lemma two_columns_content (pat ln : str) :
  pat <> [] -> no_space pat = true ->
  two_columns pat ln -> contains "#" ln = false ->
  line_content ln = Some ln.
Proof.
  intros Hp1 Hp2 [svc [-> [Hs1 [Hs2 _]]]] Hh.
  assert (Hstrip : strip (pat ++ [tab] ++ svc) = pat ++ [tab] ++ svc).
  { unfold strip.
    assert (El : lstrip_by isspace (pat ++ [tab] ++ svc)
                 = pat ++ [tab] ++ svc).
    { destruct pat as [|c pat]; [now contradiction Hp1|].
      unfold no_space in Hp2. cbn [forallb] in Hp2.
      apply andb_true_iff in Hp2. destruct Hp2 as [Hc _].
      apply negb_true_iff in Hc. cbn [app lstrip_by]. now rewrite Hc. }
    rewrite El, app_assoc.
    rewrite rstrip_by_app_nonempty; rewrite (rstrip_by_none _ _ Hs2);
      [reflexivity | assumption]. }
  assert (Hr : rstrip (pat ++ [tab] ++ svc) = pat ++ [tab] ++ svc).
  { unfold rstrip. rewrite app_assoc.
    rewrite rstrip_by_app_nonempty; rewrite (rstrip_by_none _ _ Hs2);
      [reflexivity | assumption]. }
  unfold line_content. rewrite Hstrip.
  assert (Hstart : startswith (L "#") (pat ++ [tab] ++ svc) = false).
  { destruct pat as [|c pat]; [now contradiction Hp1|].
    unfold contains in Hh. cbn [app existsb] in Hh.
    apply orb_false_iff in Hh. destruct Hh as [Hc _].
    cbn [app L list_ascii_of_string startswith]. now rewrite Hc. }
  rewrite Hstart.
  assert (He : is_empty (pat ++ [tab] ++ svc) = false)
    by (destruct pat; [now contradiction Hp1 | reflexivity]).
  rewrite He. cbn [orb].
  unfold _strip_inline_comment. rewrite (comment_loop_no_hash _ _ _ Hh).
  change ([] ++ pat ++ [tab] ++ svc) with (pat ++ [tab] ++ svc).
  rewrite Hr, Hstrip, He. reflexivity.
Qed.

Lemma parse_loop_generated (src : str) (lines : list str) :
  forall rules0 idx,
    Forall (fun ln =>
              exists pat, pat <> [] /\ no_space pat = true
                          /\ two_columns pat ln)
      lines ->
    forallb reads_back lines = true ->
    exists new,
      parse_loop src rules0 idx lines = Returns (rules0 ++ new)
      /\ map rule_line new = lines
      /\ map line new = seq idx (length lines)
      /\ Forall (fun r => source r = src) new.
Proof.
  induction lines as [|ln lines IH]; intros rules0 idx Hall Hok.
  - exists []. rewrite app_nil_r. now repeat split.
  - inversion Hall as [|? ? [pat [Hp1 [Hp2 Htwo]]] Hrest]; subst.
    cbn [forallb] in Hok. apply andb_true_iff in Hok.
    destruct Hok as [Hln Hok]. unfold reads_back in Hln.
    apply andb_true_iff in Hln. destruct Hln as [Hh Hc].
    apply negb_true_iff in Hh.
    pose proof (two_columns_content _ _ Hp1 Hp2 Htwo Hh) as Hcontent.
    destruct Htwo as [svc [Eln [Hs1 [Hs2 Hsplit]]]].
    rewrite Hsplit in Hc. cbn [hd] in Hc. unfold compiles in Hc.
    destruct (compile_pattern pat) as [c| |] eqn:Ec; try discriminate Hc.
    cbn [parse_loop]. rewrite Hcontent, Hsplit.
    rewrite (strip_no_space _ Hp2), (strip_no_space _ Hs2).
    assert (He : is_empty svc = false)
      by (destruct svc; [now contradiction Hs1 | reflexivity]).
    rewrite He, Ec.
    set (r := {| pattern := pat; service := svc; line := idx; source := src;
                 compiled := c |}).
    destruct (IH (rules0 ++ [r]) (S idx) Hrest Hok)
      as [new [Hparse [Hlines [Hnum Hsrc]]]].
    exists (r :: new). rewrite Hparse, <- app_assoc. cbn [app map length seq].
    split; [reflexivity|]. split; [|split].
    + rewrite Hlines. unfold rule_line. cbn [r pattern service].
      now rewrite Eln.
    + now rewrite Hnum.
    + constructor; [reflexivity | assumption].
Qed.

(** The output of [sowners init] reads back as rules.  When no line
    written for a rule holds a [#] and every pattern compiles,
    [parse_serviceowners_text] returns, for the output, one rule for
    each such line, in order: its pattern and service are the two
    columns of the line, its line number counts from 3, after the two
    header comments, and its source is the name given to the parser. *)
Theorem init_output_reads_back :
  forall txt src,
    forallb reads_back (init_lines txt) = true ->
    exists rules,
      parse_serviceowners_text (init_text txt) src = Returns rules
      /\ map rule_line rules = init_lines txt
      /\ map line rules = seq 3 (length (init_lines txt))
      /\ Forall (fun r => source r = src) rules.
Proof.
  intros txt src Hok. unfold parse_serviceowners_text.
  rewrite (init_text_lines txt).
  change (parse_loop src [] 1
            (L "# Generated from CODEOWNERS" :: L "# pattern    service"
               :: init_lines txt))
    with (parse_loop src [] 3 (init_lines txt)).
  apply (parse_loop_generated src (init_lines txt) [] 3); [|exact Hok].
  eapply Forall_impl; [|exact (init_lines_all txt)].
  intros ln [raw_line [pat [owners [_ [_ [Hs [_ Htwo]]]]]]].
  pose proof (split_pieces (strip raw_line)) as Hp. rewrite Hs in Hp.
  inversion Hp as [|? ? [Hp1 Hp2] _]; subst.
  now exists pat.
Qed.

Lemma init_output_reads_back_witness :
  let txt := lines_text ["# owners"; "/src/api/ @org/api-team";
                         "*.md @docs"]%string in
  exists rules,
    parse_serviceowners_text (init_text txt) (L "SERVICEOWNERS")
    = Returns rules
    /\ map rule_line rules = init_lines txt
    /\ map line rules = seq 3 (length (init_lines txt))
    /\ Forall (fun r => source r = L "SERVICEOWNERS") rules.
Proof.
  intros txt.
  apply (init_output_reads_back txt (L "SERVICEOWNERS")).
  vm_compute. reflexivity.
Defined.

(** ** paths.py: paths that are already repository paths *)

Lemma split_chr_from_cons (sep : ascii) (s : str) :
  forall acc, exists x l, split_chr_from sep acc s = x :: l.
Proof.
  induction s as [|c s IH]; intros acc; cbn [split_chr_from].
  - now exists acc, [].
  - destruct (chr_eqb c sep); [|apply IH].
    now exists acc, (split_chr_from sep [] s).
Qed.

Lemma join_cons (sep x y : str) (l : list str) :
  join sep (x :: y :: l) = x ++ sep ++ join sep (y :: l).
Proof. reflexivity. Qed.

Lemma join_split_chr_from (sep : ascii) (s : str) :
  forall acc, join [sep] (split_chr_from sep acc s) = acc ++ s.
Proof.
  induction s as [|c s IH]; intros acc; cbn [split_chr_from].
  - cbn [join]. now rewrite app_nil_r.
  - destruct (chr_eqb c sep) eqn:E.
    + apply chr_eqb_eq in E. subst c.
      destruct (split_chr_from_cons sep s []) as [x [l El]].
      pose proof (IH []) as H. rewrite El in *.
      rewrite join_cons, H. reflexivity.
    + rewrite IH. now rewrite <- app_assoc.
Qed.

Lemma split_chr_from_app (sep : ascii) (a b : str) :
  forall acc,
    split_chr_from sep acc (a ++ sep :: b)
    = split_chr_from sep acc a ++ split_chr_from sep [] b.
Proof.
  induction a as [|c a IH]; intros acc; cbn [app split_chr_from].
  - now rewrite chr_eqb_refl.
  - destruct (chr_eqb c sep); [|apply IH].
    cbn [app]. now rewrite IH.
Qed.

(** A string whose components are all kept starts with a character
    that is no slash. *)
Lemma components_head (q : str) :
  forallb is_component (split_chr "/" q) = true ->
  exists c t, q = c :: t /\ chr_eqb c "/" = false.
Proof.
  unfold split_chr. destruct q as [|c t]; [discriminate|].
  intros H. exists c, t. split; [reflexivity|].
  destruct (chr_eqb c "/") eqn:E; [|reflexivity].
  cbn [split_chr_from] in H. rewrite E in H. discriminate H.
Qed.

Lemma components_not_dot_slash (q : str) :
  forallb is_component (split_chr "/" q) = true ->
  strip_dot_slash q = q.
Proof.
  intros H. destruct q as [|c1 [|c2 t]]; try reflexivity.
  cbn [strip_dot_slash].
  destruct (chr_eqb c1 "." && chr_eqb c2 "/") eqn:E; [|reflexivity].
  apply andb_true_iff in E. destruct E as [E1 E2].
  apply chr_eqb_eq in E1, E2. subst c1 c2. discriminate H.
Qed.

Lemma repo_path_parse (q : str) :
  forallb is_component (split_chr "/" q) = true ->
  path_parse q = ([], split_chr "/" q).
Proof.
  intros H. destruct (components_head _ H) as [c [t [-> Hc]]].
  unfold path_parse, splitroot. rewrite Hc. f_equal.
  apply filter_all. apply Forall_forall. now apply forallb_forall.
Qed.

Lemma repo_path_str (q : str) :
  forallb is_component (split_chr "/" q) = true ->
  path_str [] (split_chr "/" q) = q.
Proof.
  intros H. unfold path_str, split_chr. cbn [app].
  change (L "/") with ["/"%char]. rewrite join_split_chr_from. cbn [app].
  destruct (components_head _ H) as [c [t [-> _]]]. reflexivity.
Qed.

(** The last steps of [normalize_repo_path] keep a path whose
    components are all kept. *)
Lemma repo_path_tail (q : str) :
  forallb is_component (split_chr "/" q) = true ->
  PurePosixPath_str (strip_leading_slash (strip_dot_slash q)) = q.
Proof.
  intros H. rewrite (components_not_dot_slash _ H).
  destruct (components_head _ H) as [c [t [E Hc]]].
  assert (Hl : strip_leading_slash q = q)
    by (rewrite E; unfold strip_leading_slash; now rewrite Hc).
  rewrite Hl. unfold PurePosixPath_str. rewrite (repo_path_parse _ H).
  now apply repo_path_str.
Qed.

Lemma repo_path_kept (path : str) (repo_root : option str) :
  repo_path (to_posix path) = true ->
  normalize_repo_path path repo_root = to_posix path.
Proof.
  unfold repo_path. intros H.
  apply andb_true_iff in H. destruct H as [H Hq2].
  apply andb_true_iff in H. destruct H as [H Hq1].
  apply andb_true_iff in H. destruct H as [Hc Hs].
  apply str_eqb_eq in Hs. apply negb_true_iff in Hq1, Hq2.
  unfold normalize_repo_path. rewrite Hs.
  assert (Hu : unquote (to_posix path) = to_posix path)
    by (unfold unquote; now rewrite Hq1, Hq2).
  rewrite Hu.
  assert (Ha : is_absolute (to_posix path) = false)
    by (unfold is_absolute; now rewrite (repo_path_parse _ Hc)).
  rewrite Ha.
  destruct repo_root; now apply repo_path_tail.
Qed.

(** A path that is already a repository path is left alone, its
    backslashes read as slashes: when the path, once backslashes are
    turned into slashes, is made of components separated by single
    slashes, none empty or a single dot, with no whitespace around it and
    no quote in front, [normalize_repo_path] returns exactly that,
    whatever the repository root.  A leading dot of a dotfile or a
    dot-directory is kept, and so is a [..] component.  A list of such
    paths goes through [normalize_paths] unchanged. *)
Theorem repo_paths_are_kept :
  (forall path repo_root,
     repo_path (to_posix path) = true ->
     normalize_repo_path path repo_root = to_posix path)
  /\ (forall paths repo_root,
        forallb repo_path paths = true ->
        forallb no_backslash paths = true ->
        normalize_paths paths repo_root = paths).
Proof.
  split; [exact repo_path_kept|].
  intros paths repo_root. unfold normalize_paths.
  induction paths as [|p paths IH]; [reflexivity|].
  cbn [forallb]. intros H Hb.
  apply andb_true_iff in H. destruct H as [Hp H].
  apply andb_true_iff in Hb. destruct Hb as [Hbp Hb].
  assert (Ep : to_posix p = p) by (unfold to_posix; now apply replace_chr_id).
  assert (Hne : negb (is_empty p) && negb (is_empty (strip p)) = true).
  { unfold repo_path in Hp.
    apply andb_true_iff in Hp. destruct Hp as [Hp _].
    apply andb_true_iff in Hp. destruct Hp as [Hp _].
    apply andb_true_iff in Hp. destruct Hp as [Hc Hs].
    apply str_eqb_eq in Hs. rewrite Hs.
    destruct (components_head _ Hc) as [c [t [-> _]]]. reflexivity. }
  cbn [filter]. rewrite Hne. cbn [map].
  rewrite (IH H Hb). f_equal.
  rewrite <- Ep at 2. apply repo_path_kept. now rewrite Ep.
Qed.

Lemma repo_paths_are_kept_witness :
  normalize_repo_path (L ".github\workflows/ci.yml") (Some (L "/tmp/irrelevant"))
  = to_posix (L ".github\workflows/ci.yml").
Proof.
  apply (proj1 repo_paths_are_kept (L ".github\workflows/ci.yml")
           (Some (L "/tmp/irrelevant"))).
  reflexivity.
Defined.

(** ** paths.py: absolute paths *)

Lemma strip_fixed (q : str) :
  strip q = q -> lstrip_by isspace q = q /\ rstrip_by isspace q = q.
Proof.
  unfold strip. intros H.
  destruct (lstrip_by_suffix isspace q) as [pre Epre].
  destruct (rstrip_by_prefix isspace (lstrip_by isspace q)) as [suf Esuf].
  rewrite H in Esuf.
  assert (Hlen : length pre = 0 /\ length suf = 0).
  { pose proof (f_equal (@length ascii) Epre) as L1.
    pose proof (f_equal (@length ascii) Esuf) as L2.
    rewrite length_app in L1, L2. lia. }
  destruct Hlen as [Hpre _]. destruct pre; [|discriminate Hpre].
  cbn [app] in Epre. rewrite <- Epre in H. now split.
Qed.

Lemma strip_after_slash (a q : str) :
  q <> [] -> strip q = q ->
  strip ("/"%char :: a ++ q) = "/"%char :: a ++ q.
Proof.
  intros Hne Hs. destruct (strip_fixed _ Hs) as [_ Hr].
  unfold strip. cbn [lstrip_by]. change (isspace "/") with false. cbv iota.
  change ("/"%char :: a ++ q) with (("/"%char :: a) ++ q).
  rewrite rstrip_by_app_nonempty; rewrite Hr; [reflexivity | assumption].
Qed.

Lemma drop_parts_app (a b : list str) : drop_parts a (a ++ b) = Some b.
Proof.
  induction a as [|x a IH]; [reflexivity|].
  cbn [app drop_parts]. now rewrite str_eqb_refl.
Qed.

Lemma rooted_parse (r0 : str) :
  forallb is_component (split_chr "/" r0) = true ->
  path_parse ("/"%char :: r0) = (L "/", split_chr "/" r0).
Proof.
  intros H. destruct (components_head _ H) as [c [t [E Hc]]].
  unfold path_parse, splitroot. rewrite chr_eqb_refl. rewrite E at 1.
  rewrite Hc. f_equal. apply filter_all. apply Forall_forall.
  now apply forallb_forall.
Qed.

Lemma components_app (a b : str) :
  forallb is_component (split_chr "/" a) = true ->
  forallb is_component (split_chr "/" b) = true ->
  split_chr "/" (a ++ "/"%char :: b) = split_chr "/" a ++ split_chr "/" b
  /\ forallb is_component (split_chr "/" (a ++ "/"%char :: b)) = true.
Proof.
  intros Ha Hb. unfold split_chr in *. rewrite split_chr_from_app.
  split; [reflexivity|]. now rewrite forallb_app, Ha, Hb.
Qed.

Lemma no_backslash_to_posix (s : str) :
  no_backslash s = true -> to_posix s = s.
Proof. intros H. unfold to_posix. now apply replace_chr_id. Qed.

Lemma repo_path_parts (q : str) :
  repo_path q = true ->
  forallb is_component (split_chr "/" q) = true /\ strip q = q /\ q <> [].
Proof.
  unfold repo_path. intros H.
  apply andb_true_iff in H. destruct H as [H _].
  apply andb_true_iff in H. destruct H as [H _].
  apply andb_true_iff in H. destruct H as [Hc Hs].
  apply str_eqb_eq in Hs. split; [assumption|]. split; [assumption|].
  destruct (components_head _ Hc) as [c [t [-> _]]]. discriminate.
Qed.

(** What [normalize_repo_path] does with an absolute path, on a POSIX
    system.  A path under the repository root is made relative to it:
    for a root [/a/.../b] and a repository path [rel], the path
    [root/rel] becomes [rel].  When there is no root, or when the path is
    not under the root (so that [relative_to] raises), nothing is
    reported: the leading slash is dropped and [/q] becomes the
    repository path [q]. *)
Theorem absolute_paths_become_relative :
  (forall root rel,
     abs_dir root = true ->
     repo_path rel = true -> no_backslash rel = true ->
     normalize_repo_path (root ++ "/"%char :: rel) (Some root) = rel)
  /\ (forall q,
        repo_path q = true -> no_backslash q = true ->
        normalize_repo_path ("/"%char :: q) None = q)
  /\ (forall root q,
        repo_path q = true -> no_backslash q = true ->
        relative_to ("/"%char :: q) root = None ->
        normalize_repo_path ("/"%char :: q) (Some root) = q).
Proof.
  assert (Outside : forall q repo_root,
            repo_path q = true -> no_backslash q = true ->
            match repo_root with
            | Some root => relative_to ("/"%char :: q) root = None
            | None => True
            end ->
            normalize_repo_path ("/"%char :: q) repo_root = q).
  { intros q repo_root Hq Hb Hrel.
    destruct (repo_path_parts _ Hq) as [Hc [Hs Hne]].
    unfold normalize_repo_path.
    assert (Ep : to_posix ("/"%char :: q) = "/"%char :: q)
      by (apply no_backslash_to_posix; exact Hb).
    rewrite Ep.
    pose proof (strip_after_slash [] q Hne Hs) as Hst. cbn [app] in Hst.
    rewrite Hst.
    assert (Hu : unquote ("/"%char :: q) = "/"%char :: q) by reflexivity.
    rewrite Hu.
    assert (Hp : match repo_root with
                 | Some root =>
                     if is_absolute ("/"%char :: q)
                     then match relative_to ("/"%char :: q) root with
                          | Some q0 => q0
                          | None => "/"%char :: q
                          end
                     else "/"%char :: q
                 | None => "/"%char :: q
                 end = "/"%char :: q).
    { destruct repo_root as [root|]; [|reflexivity].
      rewrite Hrel. now destruct (is_absolute ("/"%char :: q)). }
    rewrite Hp.
    assert (Hd : strip_dot_slash ("/"%char :: q) = "/"%char :: q)
      by (destruct q; reflexivity).
    rewrite Hd. cbn [strip_leading_slash]. rewrite chr_eqb_refl.
    unfold PurePosixPath_str. rewrite (repo_path_parse _ Hc).
    now apply repo_path_str. }
  split; [|split].
  - intros root rel Hroot Hrel Hb.
    destruct (repo_path_parts _ Hrel) as [Hc [Hs Hne]].
    destruct root as [|c r0]; [discriminate|]. cbn [abs_dir] in Hroot.
    apply andb_true_iff in Hroot. destruct Hroot as [Hroot Hb0].
    apply andb_true_iff in Hroot. destruct Hroot as [Hslash Hc0].
    apply chr_eqb_eq in Hslash. subst c.
    cbn [app].
    destruct (components_app _ _ Hc0 Hc) as [Esplit Hall].
    unfold normalize_repo_path.
    assert (Ep : to_posix ("/"%char :: r0 ++ "/"%char :: rel)
                 = "/"%char :: r0 ++ "/"%char :: rel).
    { apply no_backslash_to_posix.
      change ("/"%char :: r0 ++ "/"%char :: rel)
        with (("/"%char :: r0) ++ "/"%char :: rel).
      rewrite no_backslash_app.
      change (no_backslash ("/"%char :: r0)) with (no_backslash r0).
      rewrite Hb0.
      change (no_backslash ("/"%char :: rel)) with (no_backslash rel).
      now rewrite Hb. }
    rewrite Ep.
    pose proof (strip_after_slash (r0 ++ ["/"%char]) rel Hne Hs) as Hst.
    rewrite <- app_assoc in Hst. cbn [app] in Hst. rewrite Hst.
    assert (Hu : unquote ("/"%char :: r0 ++ "/"%char :: rel)
                 = "/"%char :: r0 ++ "/"%char :: rel) by reflexivity.
    rewrite Hu.
    assert (Ha : is_absolute ("/"%char :: r0 ++ "/"%char :: rel) = true)
      by (unfold is_absolute; now rewrite (rooted_parse _ Hall)).
    rewrite Ha.
    assert (Hr : relative_to ("/"%char :: r0 ++ "/"%char :: rel)
                   ("/"%char :: r0) = Some rel).
    { unfold relative_to.
      rewrite (rooted_parse _ Hall), (rooted_parse _ Hc0), Esplit.
      rewrite str_eqb_refl, drop_parts_app. cbn [option_map].
      now rewrite (repo_path_str _ Hc). }
    rewrite Hr. now apply repo_path_tail.
  - intros q Hq Hb. now apply (Outside q None).
  - intros root q Hq Hb Hrel. now apply (Outside q (Some root)).
Qed.

Lemma absolute_paths_become_relative_witness :
  normalize_repo_path (L "/home/me/repo" ++ "/"%char :: L "src/.env")
    (Some (L "/home/me/repo"))
  = L "src/.env".
Proof.
  apply (proj1 absolute_paths_become_relative (L "/home/me/repo")
           (L "src/.env")); reflexivity.
Defined.
